(** * pto: a schema-driven binary codec (src/pto/pto.cpp)

    A shallow embedding of the codec in [pto.cpp]: the schema model
    ([Field], [Protocol], [Context]), the [Encoder] and [Decoder] structs
    with their wire primitives and the signed variable-length integer, and
    the three entry points [ImportPto], [EncodePto] and [DecodePto].

    Conventions of the embedding.
    - A byte of a buffer is a [byte]; a buffer is a [list byte].
    - C integers are [Z]; a cast to a fixed width is written out
      ([to_u8], [to_u16], [to_i16], [to_u64], [to_i64]).  Buffer offsets
      and sizes are C [int]s in the source; buffers are taken shorter than
      2^31 bytes, where no offset computation wraps, and offsets stay in [Z].
    - A C++ exception derived from [BadPto] is the outcome [Throw]; an
      out-of-bounds store (undefined behaviour in C++) is the outcome
      [Undefined].
    - Host values are [LuaValue]s.  A table is its sequence part (the
      values at keys 1..n, what [lua_rawlen] and [lua_rawgeti] see) and its
      string-keyed part (what [lua_getfield] sees); metatables are not
      modelled.
    - The conversions between integers, doubles and floats are those of the
      host CPU; they are the fields of [HostFloat], over which the codec is
      parametric. *)

From stdpp Require Import gmap strings list fin_maps pretty.
From Stdlib Require Import ZArith Strings.Byte Lia.

#[local] Open Scope Z_scope.
#[local] Set Warnings "-register-all".

(** ** Constants of the source *)

Definition MAX_DEPTH : Z := 128.
Definition BUFFER_SIZE : Z := 128.
Definition MAX_INT : Z := 0xffffffffffffff.

(** ** Bytes and fixed-width integers *)

Definition byte_to_Z (b : byte) : Z := Z.of_N (Byte.to_N b).

Definition byte_of_Z (z : Z) : byte :=
  default x00 (Byte.of_N (Z.to_N (z mod 256))).

Definition to_u8 (z : Z) : Z := z mod 2 ^ 8.
Definition to_u16 (z : Z) : Z := z mod 2 ^ 16.
Definition to_u64 (z : Z) : Z := z mod 2 ^ 64.
Definition to_i16 (z : Z) : Z := (z + 2 ^ 15) mod 2 ^ 16 - 2 ^ 15.
Definition to_i64 (z : Z) : Z := (z + 2 ^ 63) mod 2 ^ 64 - 2 ^ 63.

(** [memcpy] of the [n] low bytes of an integer on a little-endian host. *)
Fixpoint le_bytes (n : nat) (v : Z) : list byte :=
  match n with
  | O => []
  | S n' => byte_of_Z v :: le_bytes n' (v / 256)
  end.

(** The unsigned integer whose little-endian bytes are [bs]. *)
Fixpoint le_value (bs : list byte) : Z :=
  match bs with
  | [] => 0
  | b :: bs' => byte_to_Z b + 256 * le_value bs'
  end.

(** ** Exceptions ([struct BadPto] and its subclasses) *)

Inductive BadPto :=
| BadArrayType (field vt : string)
| BadArraySize (field : string)
| BadField (array : bool) (field expect vt : string)
| BadInt (field : string) (val : Z) (array : bool)
| BadString (field : string) (size : Z)
| BadType (field : string) (type : Z)
| BadDecode
| TooDepth (encode : bool).

(** [reason_] as the constructors of the source build it with [fmt::format]. *)
Definition reason_ (e : BadPto) : string :=
  match e with
  | BadArrayType field vt =>
      "field:" +:+ field +:+ " expect table,not " +:+ vt
  | BadArraySize field =>
      "field:" +:+ field +:+ " array size more than 0xffff"
  | BadField true field expect vt =>
      "field:" +:+ field +:+ " array member expect " +:+ expect +:+ ",not " +:+ vt
  | BadField false field expect vt =>
      "field:" +:+ field +:+ " expect " +:+ expect +:+ ",not " +:+ vt
  | BadInt field val true =>
      "field:" +:+ field +:+ " array member int out of range," +:+ pretty val
  | BadInt field val false =>
      "field:" +:+ field +:+ " int out of range," +:+ pretty val
  | BadString field size =>
      "field:" +:+ field +:+ " string size more than 0xffff:" +:+ pretty size
  | BadType field type =>
      "unknown field:" +:+ field +:+ ",type:" +:+ pretty type
  | BadDecode => "invalid message"
  | TooDepth true => "pto encode too depth"
  | TooDepth false => "pto decode too depth"
  end.

(** ** Outcomes and the state-and-exception monad of the two structs *)

Inductive Result (A : Type) :=
| Ok (a : A)
| Throw (e : BadPto)
| Undefined.
Arguments Ok {A} a.
Arguments Throw {A} e.
Arguments Undefined {A}.

Section Monad.
Context {St : Type}.

Definition M (A : Type) : Type := St -> Result (A * St).

Definition ret {A} (a : A) : M A := fun s => Ok (a, s).

Definition bind {A B} (m : M A) (k : A -> M B) : M B :=
  fun s =>
    match m s with
    | Ok (a, s') => k a s'
    | Throw e => Throw e
    | Undefined => Undefined
    end.

Definition throw {A} (e : BadPto) : M A := fun _ => Throw e.

Definition undefined {A} : M A := fun _ => Undefined.

(** [for (x : xs) body(x)] *)
Definition for_each {A} (body : A -> M unit) : list A -> M unit :=
  fix go (xs : list A) : M unit :=
    match xs with
    | [] => ret tt
    | x :: xs' => bind (body x) (fun _ => go xs')
    end.

(** [for (x : xs) acc = body(x, acc)] *)
Definition fold_each {A B} (body : A -> B -> M B) : list A -> B -> M B :=
  fix go (xs : list A) (acc : B) : M B :=
    match xs with
    | [] => ret acc
    | x :: xs' => bind (body x acc) (fun acc' => go xs' acc')
    end.

(** [for (i = start; n iterations; i++) body(i)] *)
Definition for_range (body : Z -> M unit) : nat -> Z -> M unit :=
  fix go (n : nat) (i : Z) : M unit :=
    match n with
    | O => ret tt
    | S n' => bind (body i) (fun _ => go n' (i + 1))
    end.

(** [for (i = start; n iterations; i++) acc = body(i, acc)] *)
Definition for_fold {A} (body : Z -> A -> M A) : nat -> Z -> A -> M A :=
  fix go (n : nat) (i : Z) (acc : A) : M A :=
    match n with
    | O => ret acc
    | S n' => bind (body i acc) (fun acc' => go n' (i + 1) acc')
    end.
End Monad.

Notation "'do' x <- m ; k" := (bind m (fun x => k))
  (at level 10, x name, m at level 100, k at level 200).
Notation "'run' m ; k" := (bind m (fun _ => k))
  (at level 10, m at level 100, k at level 200).

(** ** Host values (the Lua C API as the codec uses it) *)

Inductive LuaValue :=
| LNil
| LBool (b : bool)
| LInt (n : Z)                    (* lua_Integer, 64-bit signed *)
| LFloat (bits : Z)               (* lua_Number, the bits of a binary64 *)
| LStr (s : list byte)
| LTable (arr : list LuaValue) (hash : gmap string LuaValue)
| LLightUserdata (mem : list byte) (* a raw pointer and the bytes behind it *)
| LFunction
| LUserdata
| LThread.

Definition LUA_TNIL : Z := 0.
Definition LUA_TBOOLEAN : Z := 1.
Definition LUA_TLIGHTUSERDATA : Z := 2.
Definition LUA_TNUMBER : Z := 3.
Definition LUA_TSTRING : Z := 4.
Definition LUA_TTABLE : Z := 5.
Definition LUA_TFUNCTION : Z := 6.
Definition LUA_TUSERDATA : Z := 7.
Definition LUA_TTHREAD : Z := 8.

Definition lua_type (v : LuaValue) : Z :=
  match v with
  | LNil => LUA_TNIL
  | LBool _ => LUA_TBOOLEAN
  | LInt _ | LFloat _ => LUA_TNUMBER
  | LStr _ => LUA_TSTRING
  | LTable _ _ => LUA_TTABLE
  | LLightUserdata _ => LUA_TLIGHTUSERDATA
  | LFunction => LUA_TFUNCTION
  | LUserdata => LUA_TUSERDATA
  | LThread => LUA_TTHREAD
  end.

Definition lua_typename (vt : Z) : string :=
  if vt =? LUA_TNIL then "nil"
  else if vt =? LUA_TBOOLEAN then "boolean"
  else if vt =? LUA_TLIGHTUSERDATA then "userdata"
  else if vt =? LUA_TNUMBER then "number"
  else if vt =? LUA_TSTRING then "string"
  else if vt =? LUA_TTABLE then "table"
  else if vt =? LUA_TFUNCTION then "function"
  else if vt =? LUA_TUSERDATA then "userdata"
  else if vt =? LUA_TTHREAD then "thread"
  else "no value".

(** The conversions of the host between integers and floating-point
    numbers, on bit patterns: [(lua_Number)n], [(float)d], [(double)f] and
    the float-to-integer conversion of [lua_tointeger], which fails on a
    float that is not an integer in range. *)
Class HostFloat := {
  int_to_double : Z -> Z;
  double_to_float : Z -> Z;
  float_to_double : Z -> Z;
  double_to_int : Z -> option Z
}.

Definition lua_toboolean (v : LuaValue) : bool :=
  match v with
  | LNil | LBool false => false
  | _ => true
  end.

(** [lua_tointeger] gives 0 where the value does not convert.  (The host
    also converts a string that spells a number; the codec calls
    [lua_tointeger] on a value it has not checked to be a number only for
    the length argument of [DecodePto].) *)
Definition lua_tointeger `{HostFloat} (v : LuaValue) : Z :=
  match v with
  | LInt n => n
  | LFloat d => default 0 (double_to_int d)
  | _ => 0
  end.

Definition lua_tonumber `{HostFloat} (v : LuaValue) : Z :=
  match v with
  | LInt n => int_to_double n
  | LFloat d => d
  | _ => 0
  end.

Definition lua_tolstring (v : LuaValue) : list byte :=
  match v with
  | LStr s => s
  | _ => []
  end.

Definition lua_rawlen (v : LuaValue) : Z :=
  match v with
  | LTable arr _ => Z.of_nat (length arr)
  | LStr s => Z.of_nat (length s)
  | _ => 0
  end.

(** [lua_rawgeti(L, index, i)]: the value at integer key [i], nil outside
    the sequence. *)
Definition lua_rawgeti (v : LuaValue) (i : Z) : LuaValue :=
  match v with
  | LTable arr _ =>
      if (1 <=? i) then default LNil (arr !! Z.to_nat (i - 1)) else LNil
  | _ => LNil
  end.

(** [lua_getfield(L, index, name)]: the value at a string key, nil when the
    key is absent.  The host raises an error of its own when the indexed
    value is not a table (and looks a string up in the string metatable);
    the codec checks for a table before every call but the one on the
    top-level record, which the statements about that call take to be a
    table. *)
Definition lua_getfield (v : LuaValue) (name : string) : LuaValue :=
  match v with
  | LTable _ hash => default LNil (hash !! name)
  | _ => LNil
  end.

Definition lua_createtable : LuaValue := LTable [] ∅.

(** [lua_setfield(L, index, name)] with the value [x] on top of the stack. *)
Definition lua_setfield (t : LuaValue) (name : string) (x : LuaValue) : LuaValue :=
  match t with
  | LTable arr hash => LTable arr (<[name := x]> hash)
  | _ => t
  end.

(** [lua_rawseti(L, -2, i)] and [lua_seti(L, -2, i)] with the value [x] on
    top of the stack: key [i] extends the sequence when it is the next
    index and overwrites inside it. *)
Definition lua_rawseti (t : LuaValue) (i : Z) (x : LuaValue) : LuaValue :=
  match t with
  | LTable arr hash =>
      if i =? Z.of_nat (length arr) + 1 then LTable (arr ++ [x]) hash
      else if (1 <=? i) then LTable (<[Z.to_nat (i - 1) := x]> arr) hash
      else t
  | _ => t
  end.

(** ** The schema model *)

Inductive eTYPE :=
| Bool | Short | Int | Float | Double | String | Pto
| BadCode (code : Z).   (* an integer outside the enum, cast to eTYPE *)

Definition eTYPE_of_Z (n : Z) : eTYPE :=
  if n =? 0 then Bool else if n =? 1 then Short else if n =? 2 then Int
  else if n =? 3 then Float else if n =? 4 then Double
  else if n =? 5 then String else if n =? 6 then Pto else BadCode n.

Definition eTYPE_to_Z (t : eTYPE) : Z :=
  match t with
  | Bool => 0 | Short => 1 | Int => 2 | Float => 3 | Double => 4
  | String => 5 | Pto => 6 | BadCode n => n
  end.

Inductive Field :=
  mkField (name_ : string) (array_ : bool) (type_ : eTYPE) (childs_ : list Field).

Definition name_ (f : Field) : string := let 'mkField n _ _ _ := f in n.
Definition array_ (f : Field) : bool := let 'mkField _ a _ _ := f in a.
Definition type_ (f : Field) : eTYPE := let 'mkField _ _ t _ := f in t.
Definition childs_ (f : Field) : list Field := let 'mkField _ _ _ c := f in c.

Record Protocol := mkProtocol {
  pto_name_ : string;
  fields_ : list Field
}.

(** [Context]: a table of 0xffff slots, each empty (NULL) or a protocol. *)
Record Context := mkContext { ptos_ : list (option Protocol) }.

Definition Context_new : Context := mkContext (replicate (Z.to_nat 0xffff) None).

(** [ptos_[id] = pto]; a store outside the vector is undefined behaviour. *)
Definition AddPto (id : Z) (pto : Protocol) (ctx : Context) : Result Context :=
  if Z.of_nat (length (ptos_ ctx)) <=? id then Undefined
  else Ok (mkContext (<[Z.to_nat id := Some pto]> (ptos_ ctx))).

Definition GetPto (ctx : Context) (id : Z) : option Protocol :=
  if id >=? 0xffff then None
  else default None (ptos_ ctx !! Z.to_nat id).

(** ** [struct Encoder]

    The state is the written part [ptr_[0 .. offset_)] of the buffer;
    [Reserve] changes the capacity only and leaves the written bytes as
    they are.  The growth of the buffer is set apart: [Append_raw] appends
    to a list of any length, where [Reserve] computes sizes in [int] and
    cannot pass 2^30 bytes; the statements that assert a successful
    encoding carry that bound. *)

Module Encoder.

(** [Append(void* data, int size)] *)
Definition Append_raw (data : list byte) : @M (list byte) unit :=
  fun buf => Ok (tt, buf ++ data).

(** [Append<T>(T val)], [w = sizeof(T)] *)
Definition Append_T (w : nat) (val : Z) : @M (list byte) unit :=
  Append_raw (le_bytes w val).

(** [Append(const char* str, int sz)] *)
Definition Append_str (str : list byte) (sz : Z) : @M (list byte) unit :=
  run Append_T 2 (to_u16 sz);
  Append_raw (take (Z.to_nat sz) str).

(** [Append(int64_t val)]: the variable-length integer. *)
Definition Append_int64 (val : Z) : @M (list byte) unit :=
  if val =? 0 then Append_T 1 0
  else
    let positive := if val <? 0 then 0 else 1 in
    let value := if val <? 0 then to_u64 (- val) else to_u64 val in
    let length :=
      if value <=? 0xff then 1
      else if value <=? 0xffff then 2
      else if value <=? 0xffffff then 3
      else if value <=? 0xffffffff then 4
      else if value <=? 0xffffffffff then 5
      else if value <=? 0xffffffffffff then 6
      else 7 in
    let tag := to_u8 length in
    let tag := to_u8 (Z.lor (Z.shiftl tag 1) positive) in
    (* data[0] = tag; memcpy(&data[1], &value, length); Append(data, length + 1) *)
    Append_raw (byte_of_Z tag :: le_bytes (Z.to_nat length) value).

Definition BeginArray (field : Field) (v : LuaValue) (vt : Z) : @M (list byte) Z :=
  if negb (vt =? LUA_TTABLE) then
    throw (BadArrayType (name_ field) (lua_typename vt))
  else
    let size := lua_rawlen v in
    if size >? 0xffff then throw (BadArraySize (name_ field))
    else run Append_T 2 (to_u16 size); ret (to_u16 size).

Section WithHost.
Context `{HostFloat}.

(** The shape shared by [EncodeBool] .. [EncodeString]: the array
    prefix and a loop over the members, or the single value; [one]
    is the kind check and the write of one value, told whether it is
    an array member. *)
Definition encode_with (one : bool -> LuaValue -> @M (list byte) unit)
    (field : Field) (v : LuaValue) : @M (list byte) unit :=
  let vt := lua_type v in
  if array_ field then
    do size <- BeginArray field v vt;
    for_range (fun i => one true (lua_rawgeti v i)) (Z.to_nat size) 1
  else one false v.

(** [EncodeBool] .. [EncodeString].  Each is [encode_with] over the
    check and the write of one value, which the source repeats in the
    array branch and in the single-value branch. *)

Definition EncodeBool_one (field : Field) (array : bool) (x : LuaValue)
    : @M (list byte) unit :=
  let vt := lua_type x in
  if negb (vt =? LUA_TBOOLEAN) then
    throw (BadField array (name_ field) "bool" (lua_typename vt))
  else Append_T 1 (if lua_toboolean x then 1 else 0).

Definition EncodeBool (field : Field) : LuaValue -> @M (list byte) unit :=
  encode_with (EncodeBool_one field) field.

Definition EncodeShort_one (field : Field) (array : bool) (x : LuaValue)
    : @M (list byte) unit :=
  let vt := lua_type x in
  if negb (vt =? LUA_TNUMBER) then
    throw (BadField array (name_ field) "short" (lua_typename vt))
  else Append_T 2 (to_i16 (lua_tointeger x)).

Definition EncodeShort (field : Field) : LuaValue -> @M (list byte) unit :=
  encode_with (EncodeShort_one field) field.

Definition EncodeInt_one (field : Field) (array : bool) (x : LuaValue)
    : @M (list byte) unit :=
  let vt := lua_type x in
  if negb (vt =? LUA_TNUMBER) then
    throw (BadField array (name_ field) "int" (lua_typename vt))
  else
    let val := lua_tointeger x in
    if (val >? MAX_INT) || (val <? - MAX_INT) then
      throw (BadInt (name_ field) val array)
    else Append_int64 val.

Definition EncodeInt (field : Field) : LuaValue -> @M (list byte) unit :=
  encode_with (EncodeInt_one field) field.

Definition EncodeFloat_one (field : Field) (array : bool) (x : LuaValue)
    : @M (list byte) unit :=
  let vt := lua_type x in
  if negb (vt =? LUA_TNUMBER) then
    throw (BadField array (name_ field) "float" (lua_typename vt))
  else Append_T 4 (double_to_float (lua_tonumber x)).

Definition EncodeFloat (field : Field) : LuaValue -> @M (list byte) unit :=
  encode_with (EncodeFloat_one field) field.

Definition EncodeDouble_one (field : Field) (array : bool) (x : LuaValue)
    : @M (list byte) unit :=
  let vt := lua_type x in
  if negb (vt =? LUA_TNUMBER) then
    throw (BadField array (name_ field) "double" (lua_typename vt))
  else Append_T 8 (lua_tonumber x).

Definition EncodeDouble (field : Field) : LuaValue -> @M (list byte) unit :=
  encode_with (EncodeDouble_one field) field.

Definition EncodeString_one (field : Field) (array : bool) (x : LuaValue)
    : @M (list byte) unit :=
  let vt := lua_type x in
  if negb (vt =? LUA_TSTRING) then
    throw (BadField array (name_ field) "string" (lua_typename vt))
  else
    let str := lua_tolstring x in
    let size := Z.of_nat (length str) in
    if size >? 0xffff then throw (BadString (name_ field) size)
    else Append_str str size.

Definition EncodeString (field : Field) : LuaValue -> @M (list byte) unit :=
  encode_with (EncodeString_one field) field.

(** [EncodePto], with the call back into [EncodeOne] as a parameter. *)
Definition EncodePto_ (EncodeOne : Field -> LuaValue -> Z -> @M (list byte) unit)
    (field : Field) (v : LuaValue) (depth : Z) : @M (list byte) unit :=
  let depth := depth + 1 in
  if depth >? MAX_DEPTH then throw (TooDepth true)
  else
    let vt := lua_type v in
    if negb (vt =? LUA_TTABLE) then
      throw (BadField false (name_ field) "table" (lua_typename vt))
    else if array_ field then
      do size <- BeginArray field v vt;
      for_range (fun i =>
        let x := lua_rawgeti v (i + 1) in
        let vt := lua_type x in
        if negb (vt =? LUA_TTABLE) then
          throw (BadField true (name_ field) "table" (lua_typename vt))
        else
          for_each (fun child =>
            EncodeOne child (lua_getfield x (name_ child)) depth)
            (childs_ field)) (Z.to_nat size) 0
    else
      for_each (fun child =>
        EncodeOne child (lua_getfield v (name_ child)) depth)
        (childs_ field).

Fixpoint EncodeOne (field : Field) (v : LuaValue) (depth : Z) {struct field}
    : @M (list byte) unit :=
  match type_ field with
  | Bool => EncodeBool field v
  | Short => EncodeShort field v
  | Int => EncodeInt field v
  | Float => EncodeFloat field v
  | Double => EncodeDouble field v
  | String => EncodeString field v
  | Pto => EncodePto_ EncodeOne field v depth
  | BadCode n => throw (BadType (name_ field) n)
  end.

Definition EncodePto := EncodePto_ EncodeOne.
End WithHost.

End Encoder.

(** ** [struct Decoder] *)

Module Decoder.

Record t := mk {
  ptr_ : list byte;
  offset_ : Z;
  size_ : Z
}.

(** [Decoder(const char* ptr, int size)] over a whole buffer. *)
Definition new (buf : list byte) : t := mk buf 0 (Z.of_nat (length buf)).

(** The [n] bytes at the cursor. *)
Definition peek (n : nat) (d : t) : list byte :=
  take n (drop (Z.to_nat (offset_ d)) (ptr_ d)).

Definition advance (n : Z) (d : t) : t :=
  mk (ptr_ d) (offset_ d + n) (size_ d).

(** [Read(uint8_t* val, int size)]: the bytes copied out. *)
Definition Read_raw (size : Z) : @M t (list byte) :=
  fun d =>
    if size_ d - offset_ d <? size then Throw BadDecode
    else Ok (peek (Z.to_nat size) d, advance size d).

(** [Read<T>()], [w = sizeof(T)]: the value as an unsigned integer.
    The test [sizeof(T) > size_ - offset_] compares as [size_t]: a
    negative [size_ - offset_] converts to a large unsigned number, the
    test does not fire and the value is read outside the buffer. *)
Definition Read_T (w : nat) : @M t Z :=
  fun d =>
    if size_ d - offset_ d <? 0 then Undefined
    else if Z.of_nat w >? size_ d - offset_ d then Throw BadDecode
    else Ok (le_value (peek w d), advance (Z.of_nat w) d).

(** [int64_t Read()]: the variable-length integer.  The magnitude bytes
    are copied into a [uint64_t]; copying more than 8 of them writes
    past it. *)
Definition Read_int64 : @M t Z :=
  do tag <- Read_T 1;
  if tag =? 0 then ret 0
  else
    let length := Z.shiftr tag 1 in
    do bytes <- Read_raw length;
    if length >? 8 then undefined
    else
      let value := le_value bytes in
      ret (if Z.land tag 1 =? 1 then to_i64 value
           else to_i64 (- to_i64 value)).

(** [const char* Read(uint16_t* size)]: a length-prefixed string. *)
Definition Read_str : @M t (list byte) :=
  do size <- Read_T 2;
  fun d =>
    if size_ d - offset_ d <? size then Throw BadDecode
    else Ok (peek (Z.to_nat size) d, advance size d).

(** [lua_pushboolean(L, val)] *)
Definition lua_pushboolean (val : Z) : LuaValue := LBool (negb (val =? 0)).

Section WithHost.
Context `{HostFloat}.

(** The shape shared by [DecodeBool] .. [DecodeString]: the count and
    a fresh sequence filled member by member, or the single value,
    stored in the table at [index] under the field's name; [one] reads
    one element and pushes it. *)
Definition decode_with (one : @M t LuaValue)
    (field : Field) (tbl : LuaValue) : @M t LuaValue :=
  if array_ field then
    do size <- Read_T 2;
    do arr <- for_fold (fun i arr =>
                do val <- one; ret (lua_rawseti arr i val))
                (Z.to_nat size) 1 lua_createtable;
    ret (lua_setfield tbl (name_ field) arr)
  else
    do val <- one;
    ret (lua_setfield tbl (name_ field) val).

(** [DecodeBool] .. [DecodeString]: [decode_with] over the read of
    one value. *)

(** [Read<bool>()] loads the byte at the cursor as a [bool]: a byte
    other than 0 and 1 is no value of that type and the load is
    undefined behaviour. *)
Definition DecodeBool_one : @M t LuaValue :=
  do val <- Read_T 1;
  if (val =? 0) || (val =? 1) then ret (lua_pushboolean val)
  else undefined.

Definition DecodeBool : Field -> LuaValue -> @M t LuaValue :=
  decode_with DecodeBool_one.

Definition DecodeShort_one : @M t LuaValue :=
  do val <- Read_T 2; ret (LInt (to_i16 val)).

Definition DecodeShort : Field -> LuaValue -> @M t LuaValue :=
  decode_with DecodeShort_one.

Definition DecodeInt_one : @M t LuaValue :=
  do val <- Read_int64; ret (LInt val).

Definition DecodeInt : Field -> LuaValue -> @M t LuaValue :=
  decode_with DecodeInt_one.

Definition DecodeFloat_one : @M t LuaValue :=
  do val <- Read_T 4; ret (LFloat (float_to_double val)).

Definition DecodeFloat : Field -> LuaValue -> @M t LuaValue :=
  decode_with DecodeFloat_one.

Definition DecodeDouble_one : @M t LuaValue :=
  do val <- Read_T 8; ret (LFloat val).

Definition DecodeDouble : Field -> LuaValue -> @M t LuaValue :=
  decode_with DecodeDouble_one.

Definition DecodeString_one : @M t LuaValue :=
  do val <- Read_str; ret (LStr val).

Definition DecodeString : Field -> LuaValue -> @M t LuaValue :=
  decode_with DecodeString_one.

(** [DecodePto], with the call back into [DecodeOne] as a parameter. *)
Definition DecodePto_ (DecodeOne : Field -> LuaValue -> Z -> @M t LuaValue)
    (field : Field) (tbl : LuaValue) (depth : Z) : @M t LuaValue :=
  let depth := depth + 1 in
  if depth >? MAX_DEPTH then throw (TooDepth false)
  else if array_ field then
    do size <- Read_T 2;
    do arr <- for_fold (fun i arr =>
                do rec <- fold_each (fun child rec => DecodeOne child rec depth)
                            (childs_ field) lua_createtable;
                ret (lua_rawseti arr i rec))
                (Z.to_nat size) 1 lua_createtable;
    ret (lua_setfield tbl (name_ field) arr)
  else
    do rec <- fold_each (fun child rec => DecodeOne child rec depth)
                (childs_ field) lua_createtable;
    ret (lua_setfield tbl (name_ field) rec).

Fixpoint DecodeOne (field : Field) (tbl : LuaValue) (depth : Z) {struct field}
    : @M t LuaValue :=
  match type_ field with
  | Bool => DecodeBool field tbl
  | Short => DecodeShort field tbl
  | Int => DecodeInt field tbl
  | Float => DecodeFloat field tbl
  | Double => DecodeDouble field tbl
  | String => DecodeString field tbl
  | Pto => DecodePto_ DecodeOne field tbl depth
  | BadCode n => throw (BadType (name_ field) n)
  end.

Definition DecodePto := DecodePto_ DecodeOne.
End WithHost.

End Decoder.

(** ** The entry points registered with the host *)

Inductive Outcome (A : Type) :=
| Return (a : A)
| luaL_error (msg : string)
| UndefinedBehaviour.
Arguments Return {A} a.
Arguments luaL_error {A} msg.
Arguments UndefinedBehaviour {A}.

(** The functions of the library table; they live in a module of their own
    because [EncodePto] and [DecodePto] are also methods of the structs. *)
Module Api.

(** [ImportPto]: [id_arg] is the integer [luaL_checkinteger] returns and
    [fields] the field list [ImportField] builds from the schema table. *)
Definition ImportPto (ctx : Context) (id_arg : Z) (name : string)
    (fields : list Field) : Outcome Context :=
  let id := to_u16 id_arg in
  if id >? 0xffff then luaL_error "id must less than 0xffff"
  else
    let pto := mkProtocol name fields in
    match AddPto id pto ctx with
    | Ok ctx' => Return ctx'
    | _ => UndefinedBehaviour
    end.

Section EntryPoints.
Context `{HostFloat}.

(** [EncodePto] (the static function): arguments 2 and 3 are the id
    and the record.  The message of a [BadPto] is its reason: the
    source hands the reason to [luaL_error] as the format, which
    leaves a reason without a percent sign as it is. *)
Definition EncodePto (ctx : Context) (id_arg : Z) (record : LuaValue)
    : Outcome (list byte) :=
  let id := to_u16 id_arg in
  match GetPto ctx id with
  | None => luaL_error ("no such pto:" +:+ pretty id)
  | Some pto =>
      let depth := 1 in
      match for_each (fun field =>
              Encoder.EncodeOne field (lua_getfield record (name_ field)) depth)
              (fields_ pto) [] with
      | Ok (_, buf) => Return buf
      | Throw e => luaL_error (reason_ e)
      | Undefined => UndefinedBehaviour
      end
  end.

(** [DecodePto] (the static function): argument 3 is a string, or a
    light userdata with its length as argument 4; a length that is
    negative or exceeds the bytes behind the pointer lets the reads
    leave them. *)
Definition DecodePto (ctx : Context) (id_arg : Z) (input : LuaValue) (len_arg : LuaValue)
    : Outcome LuaValue :=
  let id := to_u16 id_arg in
  match GetPto ctx id with
  | None => luaL_error ("no such pto:" +:+ pretty id)
  | Some pto =>
      let run_decoder (decoder : Decoder.t) : Outcome LuaValue :=
        let depth := 1 in
        match fold_each (fun field tbl => Decoder.DecodeOne field tbl depth)
                (fields_ pto) lua_createtable decoder with
        | Ok (tbl, decoder') =>
            if negb (Decoder.offset_ decoder' =? Decoder.size_ decoder') then
              luaL_error ("decode protocol:" +:+ pto_name_ pto +:+ " error")
            else Return tbl
        | Throw e => luaL_error (reason_ e)
        | Undefined => UndefinedBehaviour
        end in
      match input with
      | LStr str => run_decoder (Decoder.new str)
      | LLightUserdata mem =>
          let size := lua_tointeger len_arg in
          if (0 <=? size) && (size <=? Z.of_nat (length mem)) then
            run_decoder (Decoder.new (take (Z.to_nat size) mem))
          else UndefinedBehaviour
      | _ =>
          luaL_error ("decode protocol:" +:+ pto_name_ pto +:+
                      " error,unkown type:" +:+ lua_typename (lua_type input))
      end
  end.
End EntryPoints.

End Api.

(** ** An IEEE 754 host

    The conversions of a host with binary64 doubles, binary32 floats and
    round-to-nearest-even, on bit patterns.  The theorems below hold for
    every [HostFloat]; this one evaluates the examples. *)

Module IEEE754.

(** [sig / 2^k] rounded to nearest, ties to even. *)
Definition round_shift (sig k : Z) : Z :=
  let q := sig / 2 ^ k in
  let r := sig mod 2 ^ k in
  let half := 2 ^ (k - 1) in
  if r >? half then q + 1
  else if r =? half then (if Z.odd q then q + 1 else q)
  else q.

Definition double_to_float (d : Z) : Z :=
  let sign := (d / 2 ^ 63) mod 2 * 2 ^ 31 in
  let e := (d / 2 ^ 52) mod 2 ^ 11 in
  let m := d mod 2 ^ 52 in
  if e =? 2047 then
    if m =? 0 then sign + 0x7f800000
    else sign + 0x7f800000 + Z.lor (m / 2 ^ 29) (2 ^ 22)
  else if e =? 0 then sign
  else
    let sig := 2 ^ 52 + m in
    let E := e - 1023 in
    if E >=? -126 then
      let bits := (E + 126) * 2 ^ 23 + round_shift sig 29 in
      if bits >=? 0x7f800000 then sign + 0x7f800000 else sign + bits
    else sign + round_shift sig (29 + (-126 - E)).

Definition float_to_double (f : Z) : Z :=
  let sign := (f / 2 ^ 31) mod 2 * 2 ^ 63 in
  let e := (f / 2 ^ 23) mod 2 ^ 8 in
  let m := f mod 2 ^ 23 in
  if e =? 255 then
    if m =? 0 then sign + 2047 * 2 ^ 52
    else sign + 2047 * 2 ^ 52 + Z.lor (m * 2 ^ 29) (2 ^ 51)
  else if e =? 0 then
    if m =? 0 then sign
    else
      let p := Z.log2 m in
      sign + (p - 149 + 1023) * 2 ^ 52 + (m - 2 ^ p) * 2 ^ (52 - p)
  else sign + (e - 127 + 1023) * 2 ^ 52 + m * 2 ^ 29.

Definition int_to_double (n : Z) : Z :=
  let sign := if n <? 0 then 2 ^ 63 else 0 in
  let a := Z.abs n in
  if a =? 0 then 0
  else
    let p := Z.log2 a in
    if p <=? 52 then sign + (p + 1023) * 2 ^ 52 + (a * 2 ^ (52 - p) - 2 ^ 52)
    else sign + (p + 1022) * 2 ^ 52 + round_shift a (p - 52).

Definition double_to_int (d : Z) : option Z :=
  let negative := (d / 2 ^ 63) mod 2 =? 1 in
  let e := (d / 2 ^ 52) mod 2 ^ 11 in
  let m := d mod 2 ^ 52 in
  if e =? 2047 then None
  else if e =? 0 then (if m =? 0 then Some 0 else None)
  else
    let E := e - 1023 in
    let sig := 2 ^ 52 + m in
    if E <? 0 then None
    else if E <? 52 then
      if sig mod 2 ^ (52 - E) =? 0 then
        Some (if negative then - (sig / 2 ^ (52 - E)) else sig / 2 ^ (52 - E))
      else None
    else
      let v := if negative then - (sig * 2 ^ (E - 52)) else sig * 2 ^ (E - 52) in
      if (- 2 ^ 63 <=? v) && (v <? 2 ^ 63) then Some v else None.

Definition host : HostFloat :=
  Build_HostFloat int_to_double double_to_float float_to_double double_to_int.
End IEEE754.

(** ** Vocabulary of the statements *)

(** A decoder over a buffer: the cursor is inside it and [size_] is its
    length. *)
Definition wf (d : Decoder.t) : Prop :=
  0 <= Decoder.offset_ d <= Decoder.size_ d /\
  Decoder.size_ d = Z.of_nat (length (Decoder.ptr_ d)).

(** The bytes not yet read. *)
Definition rest (d : Decoder.t) : list byte :=
  drop (Z.to_nat (Decoder.offset_ d)) (Decoder.ptr_ d).

(** The same decoder over the buffer with [ext] appended. *)
Definition extend (ext : list byte) (d : Decoder.t) : Decoder.t :=
  Decoder.mk (Decoder.ptr_ d ++ ext) (Decoder.offset_ d)
    (Decoder.size_ d + Z.of_nat (length ext)).

(** [one] reads the bytes [out] at the cursor as the value [x]. *)
Definition elem_reads (one : @M Decoder.t LuaValue) (x : LuaValue) (out : list byte) : Prop :=
  forall d post, wf d -> rest d = out ++ post ->
    one d = Ok (x, Decoder.advance (Z.of_nat (length out)) d).

(** [one] writes the value [x] as the bytes [out]. *)
Definition elem_writes (one : LuaValue -> @M (list byte) unit) (x : LuaValue) (out : list byte) : Prop :=
  forall buf, one x buf = Ok (tt, buf ++ out).

(** [x] is written by [enc] and read back by [dec], through the same bytes. *)
Definition elem_codec (enc : bool -> LuaValue -> @M (list byte) unit)
    (dec : @M Decoder.t LuaValue) (x : LuaValue) : Prop :=
  exists out, (forall array, elem_writes (enc array) x out) /\ elem_reads dec x out.

(** The value [v] of [field], met at depth [depth], is written by
    [EncodeOne] and read back by [DecodeOne] into the table under the
    field's name. *)
Definition field_codec `{HostFloat} (field : Field) (depth : Z) (v : LuaValue) : Prop :=
  exists out,
    (forall buf, Encoder.EncodeOne field v depth buf = Ok (tt, buf ++ out)) /\
    (forall tbl d post, wf d -> rest d = out ++ post ->
       Decoder.DecodeOne field tbl depth d =
       Ok (lua_setfield tbl (name_ field) v, Decoder.advance (Z.of_nat (length out)) d)).

(** [stable m]: how the outcome of the read [m] on a buffer determines its
    outcome on the buffer with more bytes appended.  A success is kept,
    with the same value and cursor; an exception other than [BadDecode] is
    kept; after [BadDecode] the longer buffer can only succeed by reading
    past the end of the shorter one. *)
Definition stable {A} (m : @M Decoder.t A) : Prop :=
  forall d ext, wf d ->
    match m d with
    | Ok (a, d') =>
        wf d' /\ Decoder.offset_ d <= Decoder.offset_ d' /\
        Decoder.ptr_ d' = Decoder.ptr_ d /\
        m (extend ext d) = Ok (a, extend ext d')
    | Throw BadDecode =>
        match m (extend ext d) with
        | Ok (_, d1) => Decoder.size_ d < Decoder.offset_ d1
        | _ => True
        end
    | Throw e => m (extend ext d) = Throw e
    | Undefined => m (extend ext d) = Undefined
    end.

(** ** Values in the wire domain of a schema

    [conforms depth field v]: the value [v] of [field], met by the walk at
    depth [depth], is one the wire format represents exactly.  A Bool holds
    a boolean; a Short an integer of 16 bits; an Int an integer of
    magnitude at most [MAX_INT]; a Float a float that the conversion to
    binary32 and back leaves unchanged; a Double a float; a String at most
    0xffff bytes; a Message, not deeper than [MAX_DEPTH], a record of
    exactly its child fields; an array a sequence of at most 0xffff such
    members and nothing else. *)

Definition keys_within (hash : gmap string LuaValue) (names : list string) : bool :=
  bool_decide (dom hash ⊆@{gset string} list_to_set names).

Definition elem_conforms `{HostFloat} (type : eTYPE) (x : LuaValue) : bool :=
  match type, x with
  | Bool, LBool _ => true
  | Short, LInt n => (- 2 ^ 15 <=? n) && (n <? 2 ^ 15)
  | Int, LInt n => (- MAX_INT <=? n) && (n <=? MAX_INT)
  | Float, LFloat d => float_to_double (double_to_float d mod 2 ^ 32) =? d
  | Double, LFloat d => (0 <=? d) && (d <? 2 ^ 64)
  | String, LStr s => Z.of_nat (length s) <=? 0xffff
  | _, _ => false
  end.

Definition shape_conforms (array : bool) (one : LuaValue -> bool) (v : LuaValue) : bool :=
  if array then
    match v with
    | LTable arr hash =>
        keys_within hash [] && (Z.of_nat (length arr) <=? 0xffff) && forallb one arr
    | _ => false
    end
  else one v.

Definition record_conforms (conf : Field -> LuaValue -> bool) (fields : list Field)
    (x : LuaValue) : bool :=
  match x with
  | LTable [] hash =>
      keys_within hash (map name_ fields) &&
      forallb (fun f => conf f (lua_getfield x (name_ f))) fields
  | _ => false
  end.

Fixpoint conforms `{HostFloat} (depth : Z) (field : Field) (v : LuaValue) {struct field} : bool :=
  match type_ field with
  | Pto =>
      (depth + 1 <=? MAX_DEPTH) &&
      shape_conforms (array_ field)
        (record_conforms (conforms (depth + 1)) (childs_ field)) v
  | BadCode _ => false
  | t => shape_conforms (array_ field) (elem_conforms t) v
  end.

(** A record in the wire domain of a protocol: the top-level fields are met
    at depth 1. *)
Definition protocol_conforms `{HostFloat} (pto : Protocol) (record : LuaValue) : bool :=
  record_conforms (conforms 1) (fields_ pto) record.

(** ** The protocols of the examples *)

Definition P1 : list Field :=
  [mkField "a" false Bool []; mkField "b" false Short [];
   mkField "c" false Int []; mkField "d" false String []].

Definition P2 : list Field := [mkField "xs" true Int []].

Definition P3 : list Field :=
  [mkField "inner" true Pto [mkField "x" false Short []; mkField "y" false Short []]].

Definition P4 : list Field := [mkField "x" false Float []].

(** A registry holding [P1] .. [P4] under the ids 1 .. 4. *)
Definition registry : Context :=
  let import id name fields ctx :=
    match Api.ImportPto ctx id name fields with
    | Return ctx' => ctx'
    | _ => ctx
    end in
  import 4 "P4" P4
    (import 3 "P3" P3 (import 2 "P2" P2 (import 1 "P1" P1 Context_new))).

Definition record1 : LuaValue :=
  LTable [] (<["a" := LBool true]> (<["b" := LInt (-1)]>
            (<["c" := LInt 0]> (<["d" := LStr ["h"%byte; "i"%byte]]> ∅)))).

Definition record3 : LuaValue :=
  LTable [] {["inner" :=
    LTable [LTable [] (<["x" := LInt 1]> {["y" := LInt 2]});
            LTable [] (<["x" := LInt 3]> {["y" := LInt 4]})] ∅]}.

(** A Short outside 16 bits. *)
Definition record_wide : LuaValue :=
  LTable [] (<["a" := LBool true]> (<["b" := LInt 70000]>
            (<["c" := LInt 0]> (<["d" := LStr ["h"%byte; "i"%byte]]> ∅)))).

(** [chain n leaf]: [n] Message fields nested in one another around
    [leaf], and the nested records that hold [v] at the leaf. *)
Fixpoint chain (n : nat) (leaf : Field) : Field :=
  match n with
  | O => leaf
  | S n' => mkField "m" false Pto [chain n' leaf]
  end.

Fixpoint chain_value (n : nat) (leaf : Field) (v : LuaValue) : LuaValue :=
  match n with
  | O => v
  | S n' => LTable [] {[name_ (chain n' leaf) := chain_value n' leaf v]}
  end.

(** The number of Message levels below and including a field. *)
Fixpoint height (field : Field) : Z :=
  match type_ field with
  | Pto => 1 + foldr (fun child acc => Z.max (height child) acc) 0 (childs_ field)
  | _ => 0
  end.

(** A registry holding, under the id 1, a protocol whose one field is
    [n] nested Message fields around a Bool, and the record for it. *)
Definition deep_registry (n : nat) : Context :=
  match Api.ImportPto Context_new 1 "deep" [chain n (mkField "a" false Bool [])] with
  | Return ctx => ctx
  | _ => Context_new
  end.

Definition deep_record (n : nat) : LuaValue :=
  LTable [] {[name_ (chain n (mkField "a" false Bool [])) :=
                chain_value n (mkField "a" false Bool []) (LBool true)]}.


(** [m] never succeeds. *)
Definition always_fails {St A} (m : @M St A) : Prop :=
  forall s a s', m s <> Ok (a, s').

(** The types with a wire primitive of their own. *)
Definition primitive (type : eTYPE) : bool :=
  match type with
  | Pto | BadCode _ => false
  | _ => true
  end.

(** The kind a field expects, as the message of [BadField] names it. *)
Definition kind_name (type : eTYPE) : string :=
  match type with
  | Bool => "bool" | Short => "short" | Int => "int" | Float => "float"
  | Double => "double" | String => "string" | Pto => "table" | BadCode _ => ""
  end.

(** The bytes of the first concrete scenario. *)
Definition bytes1 : list byte := [x01; xff; xff; x00; x02; x00; x68; x69].

(** The double nearest to 0.1 in a Float field, and the double it comes
    back as: the binary32 nearest to 0.1, widened. *)
Definition record_tenth : LuaValue :=
  LTable [] {["x" := LFloat 0x3FB999999999999A]}.

Definition record_tenth_narrowed : LuaValue :=
  LTable [] {["x" := LFloat 0x3FB99999A0000000]}.

(** [record_wide] after a round trip: the Short has lost its high bits. *)
Definition record_narrowed : LuaValue :=
  LTable [] (<["a" := LBool true]> (<["b" := LInt 4464]>
            (<["c" := LInt 0]> (<["d" := LStr ["h"%byte; "i"%byte]]> ∅)))).

(** Whatever [enc] writes, [dec] reads as some value. *)
Definition elem_decodable (enc : bool -> LuaValue -> @M (list byte) unit)
    (dec : @M Decoder.t LuaValue) : Prop :=
  forall array x buf res, enc array x buf = Ok (tt, res) ->
    exists out x', res = buf ++ out /\ elem_reads dec x' out.

(** [DecodeOne] reads the bytes [out] as some value of [field]. *)
Definition field_decodes `{HostFloat} (field : Field) (depth : Z) (out : list byte) : Prop :=
  exists v', forall tbl d post, wf d -> rest d = out ++ post ->
    Decoder.DecodeOne field tbl depth d =
    Ok (lua_setfield tbl (name_ field) v', Decoder.advance (Z.of_nat (length out)) d).

(** ** Further vocabulary *)

(** [m] only appends: from every buffer it either succeeds, leaving the
    buffer followed by the same bytes [out], or throws the same exception. *)
Definition appends {A} (m : @M (list byte) A) : Prop :=
  (exists a out, forall buf, m buf = Ok (a, buf ++ out)) \/
  (exists e, forall buf, m buf = Throw e).

(** The single-valued field of the same name, type and children. *)
Definition single (field : Field) : Field :=
  mkField (name_ field) false (type_ field) (childs_ field).

(** [P1] in two halves, under the ids 5 and 6, beside [P1] under 1. *)
Definition registry_split : Context :=
  let import id name fields ctx :=
    match Api.ImportPto ctx id name fields with
    | Return ctx' => ctx'
    | _ => ctx
    end in
  import 6 "P1b" (drop 2 P1) (import 5 "P1a" (take 2 P1) (import 1 "P1" P1 Context_new)).

(** The [lua_type] a primitive encoder asks for. *)
Definition expected_type (type : eTYPE) : Z :=
  match type with
  | Bool => LUA_TBOOLEAN
  | String => LUA_TSTRING
  | Pto => LUA_TTABLE
  | _ => LUA_TNUMBER
  end.

(** An Int field occurs in [field] or below it. *)
Fixpoint has_int (field : Field) : bool :=
  match type_ field with
  | Int => true
  | Pto => existsb has_int (childs_ field)
  | _ => false
  end.

(** The outcomes of [m]: its exceptions satisfy [E], and it ends in
    undefined behaviour only if [U]. *)
Definition outcomes {St A} (E : BadPto -> Prop) (U : Prop) (m : @M St A) : Prop :=
  forall s,
    match m s with
    | Ok _ => True
    | Throw e => E e
    | Undefined => U
    end.

(** A registry as [Context()] builds it and [AddPto] keeps it: 0xffff slots. *)
Definition registry_wf (ctx : Context) : Prop :=
  length (ptos_ ctx) = Z.to_nat 0xffff.

(** The names of [field] and of the fields below it. *)
Fixpoint names (field : Field) : list string :=
  name_ field :: flat_map names (childs_ field).

(** The exceptions a decoder raises over fields named in [ns]. *)
Definition decode_error (ns : list string) (e : BadPto) : Prop :=
  e = BadDecode \/ e = TooDepth false \/
  exists name n, e = BadType name n /\ name ∈ ns.

(** The field an exception names. *)
Definition error_field (e : BadPto) : option string :=
  match e with
  | BadArrayType field _ | BadArraySize field | BadField _ field _ _
  | BadInt field _ _ | BadString field _ | BadType field _ => Some field
  | BadDecode | TooDepth _ => None
  end.

(** The exceptions an encoder raises over fields named in [ns]. *)
Definition encode_error (ns : list string) (e : BadPto) : Prop :=
  e = TooDepth true \/ exists name, error_field e = Some name /\ name ∈ ns.

Definition to_u32 (z : Z) : Z := z mod 2 ^ 32.

(** [Field::GetField(uint32_t index)]: NULL beyond the children, else
    [childs_[index]]; an index outside the vector is undefined behaviour. *)
Definition Field_GetField (field : Field) (index : Z) : Result (option Field) :=
  let index := to_u32 index in
  if index >? Z.of_nat (length (childs_ field)) then Ok None
  else
    match childs_ field !! Z.to_nat index with
    | Some child => Ok (Some child)
    | None => Undefined
    end.

(** ** The buffer of [struct Encoder]

    [Encoder] above keeps the written bytes only.  Here is the buffer as
    the struct has it: the allocation [ptr_] of [size_] bytes, first the
    array [init_] and later blocks from [malloc], with the write position
    [offset_].  Sizes are C [int]s; an [int] computation that leaves
    [INT_MIN .. INT_MAX] is undefined behaviour. *)

Definition INT_MAX : Z := 2 ^ 31 - 1.
Definition INT_MIN : Z := - 2 ^ 31.
Definition in_int (z : Z) : bool := (INT_MIN <=? z) && (z <=? INT_MAX).

Module Buffer.

Record t := mk {
  ptr_ : list byte;
  offset_ : Z;
  size_ : Z
}.

(** [Encoder()], over the bytes [init_] happens to hold. *)
Definition new (init_ : list byte) : t := mk init_ 0 BUFFER_SIZE.

(** [while ( nsize < need ) nsize = nsize * 2;] run for at most [fuel]
    iterations; [None] when they do not suffice. *)
Fixpoint grow (fuel : nat) (nsize need : Z) : option (Result Z) :=
  if nsize <? need then
    match fuel with
    | O => None
    | S fuel' =>
        if negb (in_int (nsize * 2)) then Some Undefined
        else grow fuel' (nsize * 2) need
    end
  else Some (Ok nsize).

Section WithMalloc.
(** [malloc(n)]: the bytes of the block it returns, or [None] for NULL. *)
Variable malloc : Z -> option (list byte).

(** [Reserve(int sz)] *)
Definition Reserve (fuel : nat) (sz : Z) (e : t) : option (Result t) :=
  if negb (in_int (offset_ e + sz)) then Some Undefined
  else if offset_ e + sz <=? size_ e then Some (Ok e)
  else if negb (in_int (size_ e * 2)) then Some Undefined
  else
    match grow fuel (size_ e * 2) (offset_ e + sz) with
    | None => None
    | Some (Ok nsize) =>
        match malloc nsize with
        | None => Some Undefined      (* memcpy to NULL *)
        | Some nptr =>
            (* memcpy(nptr, ptr_, size_) *)
            let nptr := take (Z.to_nat (size_ e)) (ptr_ e)
                        ++ drop (Z.to_nat (size_ e)) nptr in
            Some (Ok (mk nptr (offset_ e) nsize))
        end
    | Some (Throw x) => Some (Throw x)
    | Some Undefined => Some Undefined
    end.

(** [Append(void* data, int size)], [size] the length of [data]. *)
Definition Append (fuel : nat) (data : list byte) (e : t) : option (Result t) :=
  let size := Z.of_nat (length data) in
  match Reserve fuel size e with
  | Some (Ok e) =>
      (* memcpy(ptr_ + offset_, data, size); offset_ += size *)
      let ptr := take (Z.to_nat (offset_ e)) (ptr_ e) ++ data
                 ++ drop (Z.to_nat (offset_ e + size)) (ptr_ e) in
      if negb (in_int (offset_ e + size)) then Some Undefined
      else Some (Ok (mk ptr (offset_ e + size) (size_ e)))
  | r => r
  end.
End WithMalloc.

End Buffer.

(** A buffer as [Encoder()] builds it and [Reserve] keeps it: the
    allocation has [size_] bytes, [BUFFER_SIZE] doubled some times, and the
    write position is inside it. *)
Definition buffer_wf (e : Buffer.t) : Prop :=
  0 <= Buffer.offset_ e <= Buffer.size_ e /\
  Z.of_nat (length (Buffer.ptr_ e)) = Buffer.size_ e /\
  exists j, 7 <= j <= 30 /\ Buffer.size_ e = 2 ^ j.

(** The bytes written so far, what [lua_pushlstring(L, ptr_, offset_)]
    returns. *)
Definition written (e : Buffer.t) : list byte :=
  take (Z.to_nat (Buffer.offset_ e)) (Buffer.ptr_ e).

(** [malloc] returns a block of the size asked for. *)
Definition malloc_succeeds (malloc : Z -> option (list byte)) : Prop :=
  forall n, 0 < n -> exists block, malloc n = Some block /\ Z.of_nat (length block) = n.

(** A [malloc] whose blocks hold zeroes. *)
Definition malloc_zeroes (n : Z) : option (list byte) :=
  Some (replicate (Z.to_nat n) x00).

(** ** [ImportField]

    The walk over a schema table that builds the field list of a protocol.
    Besides the field list it has two outcomes: the host raises an error
    (an entry of the list is a value that cannot be indexed), or the
    behaviour is undefined ([strdup] of a NULL name, [lua_rawgeti] on a
    value that is no table, a push beyond the stack slots that
    [luaL_checkstack] has ensured). *)

Definition to_i32 (z : Z) : Z := (z + 2 ^ 31) mod 2 ^ 32 - 2 ^ 31.

Inductive Import (A : Type) :=
| Imported (a : A)
| HostError
| ImportUndefined.
Arguments Imported {A} a.
Arguments HostError {A}.
Arguments ImportUndefined {A}.

(** The C string at the start of a byte string: the bytes before the
    first NUL, what [strdup] copies. *)
Fixpoint c_str (bs : list byte) : list byte :=
  match bs with
  | [] => []
  | b :: bs' => if Byte.eqb b x00 then [] else b :: c_str bs'
  end.

(** [for] over the entries, stopping at the first that is not imported. *)
Definition import_each {A B} (f : A -> Import B) : list A -> Import (list B) :=
  fix go (xs : list A) : Import (list B) :=
    match xs with
    | [] => Imported []
    | x :: xs' =>
        match f x with
        | Imported b =>
            match go xs' with
            | Imported bs => Imported (b :: bs)
            | HostError => HostError
            | ImportUndefined => ImportUndefined
            end
        | HostError => HostError
        | ImportUndefined => ImportUndefined
        end
    end.

Section ImportField.
Context `{HostFloat}.

(** The conversions of the host between strings and numbers: the number
    a string spells, if any, and the string [lua_tostring] makes of a
    float. *)
Variable string_to_number : list byte -> option LuaValue.
Variable float_to_string : Z -> string.

(** [lua_tointeger] on any value: a string that spells a number converts. *)
Definition lua_tointeger_cvt (v : LuaValue) : Z :=
  match v with
  | LStr s =>
      match string_to_number s with
      | Some x => lua_tointeger x
      | None => 0
      end
  | _ => lua_tointeger v
  end.

(** [lua_tostring]: a string or a number, NULL otherwise. *)
Definition lua_tostring (v : LuaValue) : option (list byte) :=
  match v with
  | LStr s => Some s
  | LInt n => Some (String.list_byte_of_string (pretty n))
  | LFloat d => Some (String.list_byte_of_string (float_to_string d))
  | _ => None
  end.

(** The body of the loop of [ImportField] on the entry [x], with the
    recursive call as a parameter.  The cast to [eTYPE] keeps the low 32
    bits of the integer.  An entry that is a string is indexed through
    the metatable of strings, whose table (the string library) has none
    of the keys: the type is 0, the name is NULL and goes to [strdup].
    The other values that are no table have no metatable to index
    through (a full userdata is taken to have none) and the host raises
    an error. *)
Definition import_entry (ImportField : LuaValue -> Import (list Field))
    (x : LuaValue) : Import Field :=
  match x with
  | LTable _ _ =>
      let type := eTYPE_of_Z (to_i32 (lua_tointeger_cvt (lua_getfield x "type"))) in
      let array := lua_toboolean (lua_getfield x "array") in
      match lua_tostring (lua_getfield x "name") with
      | None => ImportUndefined           (* strdup(NULL) *)
      | Some name =>
          let name := String.string_of_list_byte (c_str name) in
          match type with
          | Pto =>
              match ImportField (lua_getfield x "pto") with
              | Imported childs => Imported (mkField name array type childs)
              | HostError => HostError
              | ImportUndefined => ImportUndefined
              end
          | _ => Imported (mkField name array type [])
          end
      end
  | LStr _ => ImportUndefined             (* strdup(NULL) *)
  | _ => HostError                        (* lua_getfield on a value with no index *)
  end.

(** [ImportField] on the value [v] at [index], with [free] stack slots
    left of those ensured.  An entry takes one slot and the values
    fetched from it another; the nested call runs with both in use. *)
Fixpoint ImportField (free : nat) (v : LuaValue) {struct free} : Import (list Field) :=
  match v with
  | LTable arr _ =>
      import_each (fun x =>
        match free with
        | S (S free') => import_entry (ImportField free') x
        | _ => ImportUndefined
        end) arr
  | LStr (_ :: _) => ImportUndefined      (* lua_rawgeti on a string *)
  | _ => Imported []
  end.
End ImportField.

(** The stack slots [ImportPto] ensures before the walk. *)
Definition IMPORT_STACK : nat := Z.to_nat (MAX_DEPTH * 2 + 8).

(** The schema table that spells a field list: one entry per field with
    the keys "type", "array", "name" and, for a Message, "pto". *)
Fixpoint schema_entry (field : Field) : LuaValue :=
  LTable []
    (<["type" := LInt (eTYPE_to_Z (type_ field))]>
     (<["array" := LBool (array_ field)]>
      (<["name" := LStr (String.list_byte_of_string (name_ field))]>
       match type_ field with
       | Pto => {["pto" := LTable (map schema_entry (childs_ field)) ∅]}
       | _ => ∅
       end))).

Definition schema_value (fields : list Field) : LuaValue :=
  LTable (map schema_entry fields) ∅.

(** A type code that survives the cast to [eTYPE]: one of the seven, or an
    [int] that is none of them. *)
Definition code_ok (type : eTYPE) : bool :=
  match type with
  | BadCode n => negb ((0 <=? n) && (n <=? 6)) && (to_i32 n =? n)
  | _ => true
  end.

(** A field list as [ImportField] can build it: names are C strings, type
    codes are [int]s, only Messages have children. *)
Fixpoint schema_ok (field : Field) : bool :=
  forallb (fun b => negb (Byte.eqb b x00)) (String.list_byte_of_string (name_ field))
  && code_ok (type_ field)
  && match type_ field with
     | Pto => forallb schema_ok (childs_ field)
     | _ => match childs_ field with [] => true | _ => false end
     end.

(** ** What the decoder builds

    [shaped depth field v]: [v] has the form of a value that [DecodeOne]
    builds for [field] at [depth].  A Bool is a boolean, a Short and an
    Int an integer, a Float and a Double a float, a String at most 0xffff
    bytes, a Message within the depth bound a table that holds such values
    under the names of its children, an array a sequence of at most 0xffff
    such members. *)

Definition elem_shaped (type : eTYPE) (x : LuaValue) : bool :=
  match type, x with
  | Bool, LBool _ => true
  | Short, LInt _ => true
  | Int, LInt _ => true
  | Float, LFloat _ => true
  | Double, LFloat _ => true
  | String, LStr s => Z.of_nat (length s) <=? 0xffff
  | _, _ => false
  end.

Definition array_shaped (array : bool) (one : LuaValue -> bool) (v : LuaValue) : bool :=
  if array then
    match v with
    | LTable arr _ => (Z.of_nat (length arr) <=? 0xffff) && forallb one arr
    | _ => false
    end
  else one v.

Definition record_shaped (shaped : Field -> LuaValue -> bool) (fields : list Field)
    (x : LuaValue) : bool :=
  (lua_type x =? LUA_TTABLE) &&
  forallb (fun f => shaped f (lua_getfield x (name_ f))) fields.

Fixpoint shaped (depth : Z) (field : Field) (v : LuaValue) {struct field} : bool :=
  match type_ field with
  | Pto =>
      (depth + 1 <=? MAX_DEPTH) &&
      array_shaped (array_ field)
        (record_shaped (shaped (depth + 1)) (childs_ field)) v
  | BadCode _ => false
  | t => array_shaped (array_ field) (elem_shaped t) v
  end.

(** The fields below [field] that share a parent have different names. *)
Fixpoint distinct_names (field : Field) : bool :=
  bool_decide (NoDup (map name_ (childs_ field)))
  && forallb distinct_names (childs_ field).

(** The exception of an Int beyond [MAX_INT], raised under a field that
    has an Int. *)
Definition int_error (int : bool) (e : BadPto) : Prop :=
  int = true /\ exists name val array, e = BadInt name val array.

(** A Bool field occurs in [field] or below it. *)
Fixpoint has_bool (field : Field) : bool :=
  match type_ field with
  | Bool => true
  | Pto => existsb has_bool (childs_ field)
  | _ => false
  end.

(** The outcomes of the read [m] on a decoder over a buffer: on success
    the decoder is still over the buffer, the exceptions satisfy [E], and
    the read ends in undefined behaviour only if [U]. *)
Definition reads {A} (E : BadPto -> Prop) (U : Prop) (m : @M Decoder.t A) : Prop :=
  forall d, wf d ->
    match m d with
    | Ok (_, d') => wf d'
    | Throw e => E e
    | Undefined => U
    end.

Import Decoder.

(** * Bytes and little-endian integers *)

Lemma byte_to_Z_range (b : byte) : 0 <= byte_to_Z b < 256.
Proof.
  unfold byte_to_Z. pose proof (Byte.to_N_bounded b). lia.
Qed.

Lemma byte_of_to_Z (b : byte) : byte_of_Z (byte_to_Z b) = b.
Proof.
  unfold byte_of_Z. rewrite Z.mod_small by apply byte_to_Z_range.
  unfold byte_to_Z. rewrite N2Z.id, Byte.of_to_N. reflexivity.
Qed.

Lemma byte_to_of_Z (z : Z) : byte_to_Z (byte_of_Z z) = z mod 256.
Proof.
  unfold byte_of_Z, byte_to_Z.
  assert (Hr : 0 <= z mod 256 < 256) by (apply Z.mod_pos_bound; lia).
  destruct (Byte.of_N (Z.to_N (z mod 256))) as [b|] eqn:E.
  - apply Byte.to_of_N in E. simpl. rewrite E. lia.
  - apply Byte.of_N_None_iff in E. lia.
Qed.

Lemma byte_to_Z_inj (a b : byte) : byte_to_Z a = byte_to_Z b -> a = b.
Proof.
  intros E. rewrite <- (byte_of_to_Z a), <- (byte_of_to_Z b), E. reflexivity.
Qed.

Lemma byte_to_Z_x00 (b : byte) : byte_to_Z b = 0 <-> b = x00.
Proof.
  split; [intros E; apply byte_to_Z_inj; rewrite E; reflexivity | intros ->; reflexivity].
Qed.

Lemma length_le_bytes (n : nat) (v : Z) : length (le_bytes n v) = n.
Proof. revert v. induction n as [|n IH]; intros v; simpl; [|rewrite IH]; reflexivity. Qed.

Lemma le_value_range (bs : list byte) : 0 <= le_value bs < 2 ^ (8 * Z.of_nat (length bs)).
Proof.
  induction bs as [|b bs IH]; simpl le_value; simpl length.
  - simpl. lia.
  - pose proof (byte_to_Z_range b).
    replace (8 * Z.of_nat (S (length bs))) with (8 + 8 * Z.of_nat (length bs)) by lia.
    rewrite Z.pow_add_r by lia. change (2 ^ 8) with 256. nia.
Qed.

Lemma le_value_le_bytes (n : nat) (v : Z) :
  le_value (le_bytes n v) = v mod 2 ^ (8 * Z.of_nat n).
Proof.
  revert v. induction n as [|n IH]; intros v.
  - simpl. rewrite Z.mod_1_r. reflexivity.
  - cbn [le_bytes le_value]. rewrite IH, byte_to_of_Z.
    replace (8 * Z.of_nat (S n)) with (8 + 8 * Z.of_nat n) by lia.
    rewrite Z.pow_add_r by lia. change (2 ^ 8) with 256.
    rewrite Z.rem_mul_r by lia. reflexivity.
Qed.

Lemma le_bytes_le_value (bs : list byte) : le_bytes (length bs) (le_value bs) = bs.
Proof.
  induction bs as [|b bs IH]; [reflexivity|].
  cbn [length le_bytes le_value]. pose proof (byte_to_Z_range b) as Hb.
  assert (Hm : (byte_to_Z b + 256 * le_value bs) mod 256 = byte_to_Z b).
  { rewrite (Z.mul_comm 256), Z.mod_add by lia. apply Z.mod_small, Hb. }
  assert (Hd : (byte_to_Z b + 256 * le_value bs) / 256 = le_value bs).
  { rewrite (Z.mul_comm 256), Z.div_add by lia.
    rewrite Z.div_small by lia. lia. }
  rewrite Hd, IH. f_equal.
  unfold byte_of_Z. rewrite Hm.
  pose proof (byte_of_to_Z b) as E. unfold byte_of_Z in E.
  rewrite Z.mod_small in E by lia. exact E.
Qed.

Lemma le_value_small (n : nat) (v : Z) :
  0 <= v < 2 ^ (8 * Z.of_nat n) -> le_value (le_bytes n v) = v.
Proof. intros Hv. rewrite le_value_le_bytes. apply Z.mod_small, Hv. Qed.

(** * The decoder's cursor *)


Lemma wf_new (buf : list byte) : wf (Decoder.new buf).
Proof. unfold wf, Decoder.new; simpl. lia. Qed.

Lemma rest_new (buf : list byte) : rest (Decoder.new buf) = buf.
Proof. reflexivity. Qed.

Lemma rest_length (d : Decoder.t) :
  wf d -> Z.of_nat (length (rest d)) = size_ d - offset_ d.
Proof.
  intros [Ho Hs]. unfold rest. rewrite length_drop. lia.
Qed.

Lemma peek_rest (n : nat) (d : Decoder.t) : peek n d = take n (rest d).
Proof. reflexivity. Qed.

Lemma wf_advance (d : Decoder.t) (n : Z) :
  wf d -> 0 <= n <= size_ d - offset_ d -> wf (advance n d).
Proof. intros [Ho Hs] Hn. unfold wf, advance; simpl. lia. Qed.

Lemma rest_advance (d : Decoder.t) (n : Z) :
  wf d -> 0 <= n -> rest (advance n d) = drop (Z.to_nat n) (rest d).
Proof.
  intros [Ho Hs] Hn. unfold rest, advance; simpl.
  rewrite drop_drop. f_equal. lia.
Qed.

Lemma rest_advance_app (d : Decoder.t) (bs post : list byte) :
  wf d -> rest d = bs ++ post ->
  wf (advance (Z.of_nat (length bs)) d) /\
  rest (advance (Z.of_nat (length bs)) d) = post.
Proof.
  intros Hw Hr. pose proof (rest_length d Hw) as Hl.
  rewrite Hr, length_app in Hl. split.
  - apply wf_advance; [assumption | lia].
  - rewrite rest_advance by (assumption || lia).
    rewrite Hr, Nat2Z.id, drop_app_length. reflexivity.
Qed.

Lemma advance_advance (d : Decoder.t) (n m : Z) :
  advance m (advance n d) = advance (n + m) d.
Proof. unfold advance; simpl. f_equal. lia. Qed.

Lemma advance_0 (d : Decoder.t) : advance 0 d = d.
Proof. destruct d; unfold advance; simpl. f_equal. lia. Qed.

(** ** Every primitive read checks the bytes left first *)



Lemma Read_raw_short (n : Z) (d : Decoder.t) :
  size_ d - offset_ d < n -> Read_raw n d = Throw BadDecode.
Proof.
  intros Hs. unfold Read_raw.
  destruct (size_ d - offset_ d <? n) eqn:E; [reflexivity | lia].
Qed.

Lemma Read_T_ok (w : nat) (d : Decoder.t) (bs post : list byte) :
  wf d -> rest d = bs ++ post -> length bs = w ->
  Read_T w d = Ok (le_value bs, advance (Z.of_nat w) d).
Proof.
  intros Hw Hr Hl. pose proof (rest_length d Hw) as Hn.
  rewrite Hr, length_app in Hn. unfold Read_T.
  destruct (size_ d - offset_ d <? 0) eqn:E0; [lia|].
  destruct (Z.of_nat w >? size_ d - offset_ d) eqn:E; [lia|].
  rewrite peek_rest, Hr, <- Hl, take_app_length. reflexivity.
Qed.

Lemma Read_raw_ok (d : Decoder.t) (bs post : list byte) :
  wf d -> rest d = bs ++ post ->
  Read_raw (Z.of_nat (length bs)) d = Ok (bs, advance (Z.of_nat (length bs)) d).
Proof.
  intros Hw Hr. pose proof (rest_length d Hw) as Hn.
  rewrite Hr, length_app in Hn. unfold Read_raw.
  destruct (size_ d - offset_ d <? Z.of_nat (length bs)) eqn:E; [lia|].
  rewrite peek_rest, Hr, Nat2Z.id, take_app_length. reflexivity.
Qed.

Lemma Read_T_le_bytes (w : nat) (v : Z) (d : Decoder.t) (post : list byte) :
  wf d -> rest d = le_bytes w v ++ post ->
  Read_T w d = Ok (v mod 2 ^ (8 * Z.of_nat w), advance (Z.of_nat w) d).
Proof.
  intros Hw Hr.
  rewrite (Read_T_ok w d (le_bytes w v) post Hw Hr (length_le_bytes w v)).
  rewrite le_value_le_bytes. reflexivity.
Qed.

Lemma Read_str_ok (d : Decoder.t) (s post : list byte) :
  wf d -> Z.of_nat (length s) <= 0xffff ->
  rest d = le_bytes 2 (Z.of_nat (length s)) ++ s ++ post ->
  Read_str d = Ok (s, advance (2 + Z.of_nat (length s)) d).
Proof.
  intros Hw Hl Hr. unfold Read_str, bind.
  rewrite (Read_T_le_bytes 2 _ d (s ++ post) Hw Hr).
  change (8 * Z.of_nat 2) with 16. rewrite Z.mod_small by lia.
  destruct (rest_advance_app d (le_bytes 2 (Z.of_nat (length s))) (s ++ post) Hw Hr)
    as [Hw' Hr'].
  rewrite length_le_bytes in Hw', Hr'.
  pose proof (Read_raw_ok _ s post Hw' Hr') as HR. unfold Read_raw in HR.
  destruct (size_ (advance (Z.of_nat 2) d) - offset_ (advance (Z.of_nat 2) d)
            <? Z.of_nat (length s)) eqn:E; [discriminate|].
  rewrite <- advance_advance. exact HR.
Qed.

(** * The variable-length integer *)

Lemma Append_int64_zero (buf : list byte) :
  Encoder.Append_int64 0 buf = Ok (tt, buf ++ [x00]).
Proof. reflexivity. Qed.

(** What [Append(int64_t)] writes for a nonzero value: the tag and the
    [l] low bytes of the magnitude, [l] chosen by the chain of
    comparisons. *)
Lemma Append_int64_shape (x : Z) :
  x <> 0 -> Z.abs x < 2 ^ 64 ->
  exists l : nat,
    (1 <= l <= 7)%nat /\
    (l = 1%nat \/ 2 ^ (8 * (Z.of_nat l - 1)) <= Z.abs x) /\
    (l = 7%nat \/ Z.abs x < 2 ^ (8 * Z.of_nat l)) /\
    forall buf,
      Encoder.Append_int64 x buf =
      Ok (tt, buf ++ byte_of_Z (Z.lor (Z.shiftl (Z.of_nat l) 1) (if 0 <? x then 1 else 0))
                  :: le_bytes l (Z.abs x)).
Proof.
  intros Hx Hr. unfold Encoder.Append_int64.
  destruct (x =? 0) eqn:E0; [lia|].
  assert (Hv : (if x <? 0 then to_u64 (- x) else to_u64 x) = Z.abs x).
  { unfold to_u64. destruct (x <? 0) eqn:E; rewrite Z.mod_small; lia. }
  rewrite Hv.
  assert (Hs : (if x <? 0 then 0 else 1) = (if 0 <? x then 1 else 0)).
  { destruct (x <? 0) eqn:E1, (0 <? x) eqn:E2; lia. }
  rewrite Hs.
  destruct (Z.abs x <=? 0xff) eqn:E1;
    [exists 1%nat|
  destruct (Z.abs x <=? 0xffff) eqn:E2;
    [exists 2%nat|
  destruct (Z.abs x <=? 0xffffff) eqn:E3;
    [exists 3%nat|
  destruct (Z.abs x <=? 0xffffffff) eqn:E4;
    [exists 4%nat|
  destruct (Z.abs x <=? 0xffffffffff) eqn:E5;
    [exists 5%nat|
  destruct (Z.abs x <=? 0xffffffffffff) eqn:E6;
    [exists 6%nat|exists 7%nat]]]]]];
  (split; [lia|]); (split; [simpl; lia|]); (split; [simpl; lia|]);
  intros buf; destruct (0 <? x); reflexivity.
Qed.

(** Reading back what [Append(int64_t)] wrote. *)
Lemma Read_int64_shape (d : Decoder.t) (l : nat) (s v : Z) (post : list byte) :
  wf d -> (1 <= l <= 7)%nat -> (s = 0 \/ s = 1) -> 0 <= v < 2 ^ (8 * Z.of_nat l) ->
  rest d = (byte_of_Z (Z.lor (Z.shiftl (Z.of_nat l) 1) s) :: le_bytes l v) ++ post ->
  Read_int64 d =
  Ok (if s =? 1 then v else - v, advance (1 + Z.of_nat l) d).
Proof.
  intros Hw Hl Hs Hv Hr. unfold Read_int64, bind.
  set (tag := Z.lor (Z.shiftl (Z.of_nat l) 1) s) in *.
  assert (Ht : tag = 2 * Z.of_nat l + s).
  { unfold tag.
    assert (l = 1 \/ l = 2 \/ l = 3 \/ l = 4 \/ l = 5 \/ l = 6 \/ l = 7)%nat
      as [->|[->|[->|[->|[->|[->| ->]]]]]] by lia;
    destruct Hs as [-> | ->]; reflexivity. }
  clearbody tag. simpl app in Hr.
  rewrite (Read_T_ok 1 d [byte_of_Z tag] (le_bytes l v ++ post) Hw Hr eq_refl).
  cbn [le_value]. rewrite byte_to_of_Z, Z.mod_small by lia.
  replace (tag + 256 * 0) with tag by lia.
  destruct (tag =? 0) eqn:E0; [lia|].
  assert (Hsh : Z.shiftr tag 1 = Z.of_nat l).
  { rewrite Z.shiftr_div_pow2 by lia. change (2 ^ 1) with 2.
    subst tag. rewrite Z.add_comm, Z.mul_comm, Z.div_add by lia.
    rewrite Z.div_small; lia. }
  rewrite Hsh.
  destruct (rest_advance_app d [byte_of_Z tag] (le_bytes l v ++ post) Hw Hr)
    as [Hw' Hr'].
  change (Z.of_nat (length [byte_of_Z tag])) with (Z.of_nat 1) in *.
  pose proof (Read_raw_ok _ (le_bytes l v) post Hw' Hr') as HR.
  rewrite length_le_bytes in HR. rewrite HR.
  destruct (Z.of_nat l >? 8) eqn:E8; [lia|].
  unfold ret. rewrite advance_advance, le_value_small by assumption.
  assert (Hland : Z.land tag 1 = s).
  { change 1 with (Z.ones 1). rewrite Z.land_ones by lia.
    change (2 ^ 1) with 2.
    subst tag. rewrite Z.add_comm, Z.mul_comm, Z.mod_add by lia.
    apply Z.mod_small; lia. }
  rewrite Hland.
  assert (Hb : v < 2 ^ 56).
  { eapply Z.lt_le_trans; [apply Hv|]. apply Z.pow_le_mono_r; lia. }
  assert (Hi : to_i64 v = v).
  { unfold to_i64. rewrite Z.mod_small; lia. }
  rewrite Hi. destruct (s =? 1) eqn:Es1; [reflexivity|].
  f_equal. f_equal. unfold to_i64. rewrite Z.mod_small; lia.
Qed.

(** C1 (varint7 shape).  For every integer [x] with
    [-(2^56-1) <= x <= 2^56-1]: [Append(int64_t)] writes bytes [out] that
    [Read()] decodes back to [x], consuming all of them; for [x = 0] these
    are the single byte 0x00; for [x <> 0] they are one tag byte followed
    by exactly [l] magnitude bytes, the little-endian bytes of [|x|], where
    [l] is the least length in 1..7 with [|x| < 2^(8l)] and the tag is
    [(l << 1) | sign], [sign] being 1 for a positive and 0 for a negative
    [x]. *)
Theorem varint7_shape (x : Z) :
  - (2 ^ 56 - 1) <= x <= 2 ^ 56 - 1 ->
  exists out : list byte,
    (forall buf, Encoder.Append_int64 x buf = Ok (tt, buf ++ out)) /\
    Decoder.Read_int64 (Decoder.new out) =
      Ok (x, Decoder.advance (Z.of_nat (length out)) (Decoder.new out)) /\
    (x = 0 -> out = [x00]) /\
    (x <> 0 ->
     exists l : nat,
       (1 <= l <= 7)%nat /\
       Z.abs x < 2 ^ (8 * Z.of_nat l) /\
       (forall l' : nat, (1 <= l' <= 7)%nat -> Z.abs x < 2 ^ (8 * Z.of_nat l') -> (l <= l')%nat) /\
       out = byte_of_Z (Z.lor (Z.shiftl (Z.of_nat l) 1) (if 0 <? x then 1 else 0))
               :: le_bytes l (Z.abs x) /\
       length out = S l).
Proof.
  intros Hx. destruct (Z.eq_dec x 0) as [-> | Hnz].
  - exists [x00]. repeat split; try reflexivity. intros H; contradiction.
  - assert (Habs : Z.abs x < 2 ^ 56) by lia.
    destruct (Append_int64_shape x Hnz) as (l & Hl & Hmin & Hmax & Henc); [lia|].
    assert (Hlt : Z.abs x < 2 ^ (8 * Z.of_nat l)).
    { destruct Hmax as [-> | H]; [exact Habs | exact H]. }
    eexists. split; [exact Henc|]. split; [|split].
    + rewrite (Read_int64_shape (Decoder.new _) l (if 0 <? x then 1 else 0)
                 (Z.abs x) [] (wf_new _) Hl).
      * cbn [length]. rewrite length_le_bytes.
        replace (Z.of_nat (S l)) with (1 + Z.of_nat l) by lia.
        destruct (0 <? x) eqn:E; simpl; do 2 f_equal; lia.
      * destruct (0 <? x); auto.
      * lia.
      * rewrite rest_new, app_nil_r. reflexivity.
    + intros ->. contradiction.
    + intros _. exists l. split; [exact Hl|]. split; [exact Hlt|]. split; [|split].
      * intros l' Hl' Hlt'.
        destruct Hmin as [-> | Hmin]; [lia|].
        destruct (le_lt_dec l l') as [Hle | Hgt]; [exact Hle | exfalso].
        assert (2 ^ (8 * Z.of_nat l') <= 2 ^ (8 * (Z.of_nat l - 1)))
          by (apply Z.pow_le_mono_r; lia).
        lia.
      * reflexivity.
      * cbn [length]. rewrite length_le_bytes. reflexivity.
Qed.

Lemma varint7_shape_witness :
  exists out : list byte,
    (forall buf, Encoder.Append_int64 (-300) buf = Ok (tt, buf ++ out)) /\
    Decoder.Read_int64 (Decoder.new out) =
      Ok (-300, Decoder.advance (Z.of_nat (length out)) (Decoder.new out)) /\
    (-300 = 0 -> out = [x00]) /\
    (-300 <> 0 ->
     exists l : nat,
       (1 <= l <= 7)%nat /\
       Z.abs (-300) < 2 ^ (8 * Z.of_nat l) /\
       (forall l' : nat, (1 <= l' <= 7)%nat -> Z.abs (-300) < 2 ^ (8 * Z.of_nat l') -> (l <= l')%nat) /\
       out = byte_of_Z (Z.lor (Z.shiftl (Z.of_nat l) 1) (if 0 <? -300 then 1 else 0))
               :: le_bytes l (Z.abs (-300)) /\
       length out = S l).
Proof. apply (varint7_shape (-300)). lia. Defined.

Example varint_300 : forall buf,
  Encoder.Append_int64 300 buf = Ok (tt, buf ++ [x05; x2c; x01]).
Proof. reflexivity. Qed.

Example varint_minus_1 : forall buf,
  Encoder.Append_int64 (-1) buf = Ok (tt, buf ++ [x02; x01]).
Proof. reflexivity. Qed.

(** * Loops over sequences *)

Lemma for_fold_rawseti (one : @M Decoder.t LuaValue) (xs : list LuaValue)
    (outs : list (list byte)) :
  Forall2 (elem_reads one) xs outs ->
  forall (done : list LuaValue) (h : gmap string LuaValue) d post,
    wf d -> rest d = concat outs ++ post ->
    for_fold (fun i arr => do val <- one; ret (lua_rawseti arr i val))
      (length xs) (Z.of_nat (length done) + 1) (LTable done h) d =
    Ok (LTable (done ++ xs) h, advance (Z.of_nat (length (concat outs))) d).
Proof.
  induction 1 as [|x out xs outs Hx Hxs IH]; intros done h d post Hw Hr.
  - simpl. unfold ret. rewrite app_nil_r, advance_0. reflexivity.
  - cbn [length for_fold concat] in *. rewrite <- app_assoc in Hr.
    unfold bind at 1. unfold bind at 1. rewrite (Hx d _ Hw Hr). unfold ret at 1.
    destruct (rest_advance_app d out _ Hw Hr) as [Hw' Hr'].
    assert (Hset : lua_rawseti (LTable done h) (Z.of_nat (length done) + 1) x =
                   LTable (done ++ [x]) h).
    { unfold lua_rawseti. rewrite Z.eqb_refl. reflexivity. }
    rewrite Hset.
    specialize (IH (done ++ [x]) h _ post Hw' Hr').
    rewrite length_app in IH. cbn [length] in IH.
    replace (Z.of_nat (length done + 1)) with (Z.of_nat (length done) + 1) in IH by lia.
    rewrite IH, <- app_assoc, advance_advance, length_app. simpl.
    do 3 f_equal. lia.
Qed.

Lemma for_range_rawgeti (g : LuaValue -> @M (list byte) unit) (delta : Z)
    (xs : list LuaValue) (outs : list (list byte)) :
  Forall2 (elem_writes g) xs outs ->
  forall (pre : list LuaValue) (h : gmap string LuaValue) (start : Z) buf,
    start + delta = Z.of_nat (length pre) + 1 ->
    for_range (fun i => g (lua_rawgeti (LTable (pre ++ xs) h) (i + delta)))
      (length xs) start buf =
    Ok (tt, buf ++ concat outs).
Proof.
  induction 1 as [|x out xs outs Hx Hxs IH]; intros pre h start buf Hs.
  - simpl. unfold ret. rewrite app_nil_r. reflexivity.
  - cbn [length for_range concat]. unfold bind at 1.
    assert (Hget : lua_rawgeti (LTable (pre ++ x :: xs) h) (start + delta) = x).
    { unfold lua_rawgeti. destruct (1 <=? start + delta) eqn:E; [|lia].
      replace (Z.to_nat (start + delta - 1)) with (length pre + 0)%nat by lia.
      rewrite lookup_app_r by lia.
      replace (length pre + 0 - length pre)%nat with 0%nat by lia. reflexivity. }
    rewrite Hget, (Hx buf).
    specialize (IH (pre ++ [x]) h (start + 1) (buf ++ out)).
    rewrite <- app_assoc in IH. cbn [app] in IH. rewrite IH.
    + rewrite <- app_assoc. reflexivity.
    + rewrite length_app. simpl. lia.
Qed.

Lemma BeginArray_ok (field : Field) (xs : list LuaValue) (h : gmap string LuaValue) buf :
  Z.of_nat (length xs) <= 0xffff ->
  Encoder.BeginArray field (LTable xs h) LUA_TTABLE buf =
  Ok (Z.of_nat (length xs), buf ++ le_bytes 2 (Z.of_nat (length xs))).
Proof.
  intros Hl. unfold Encoder.BeginArray. simpl negb. cbn [lua_rawlen].
  destruct (Z.of_nat (length xs) >? 0xffff) eqn:E; [lia|].
  unfold to_u16. rewrite Z.mod_small by lia. reflexivity.
Qed.

Lemma encode_with_single (one : bool -> LuaValue -> @M (list byte) unit)
    (field : Field) (v : LuaValue) (out : list byte) :
  array_ field = false -> elem_writes (one false) v out ->
  forall buf, Encoder.encode_with one field v buf = Ok (tt, buf ++ out).
Proof. intros Ha Hone buf. unfold Encoder.encode_with. rewrite Ha. apply Hone. Qed.

Lemma encode_with_array (one : bool -> LuaValue -> @M (list byte) unit)
    (field : Field) (xs : list LuaValue) (h : gmap string LuaValue)
    (outs : list (list byte)) :
  array_ field = true -> Z.of_nat (length xs) <= 0xffff ->
  Forall2 (elem_writes (one true)) xs outs ->
  forall buf,
    Encoder.encode_with one field (LTable xs h) buf =
    Ok (tt, buf ++ le_bytes 2 (Z.of_nat (length xs)) ++ concat outs).
Proof.
  intros Ha Hl Hall buf. unfold Encoder.encode_with. rewrite Ha.
  unfold bind. cbn [lua_type]. rewrite BeginArray_ok by assumption.
  rewrite Nat2Z.id.
  pose proof (for_range_rawgeti (one true) 0 xs outs Hall [] h 1
                (buf ++ le_bytes 2 (Z.of_nat (length xs))) eq_refl) as HR.
  cbn [app] in HR. rewrite <- app_assoc in HR. rewrite <- HR.
  clear. generalize (buf ++ le_bytes 2 (Z.of_nat (length xs))) as b.
  generalize 1 as start. generalize (length xs) as n.
  induction n as [|n IH]; intros start b; [reflexivity|].
  cbn [for_range]. unfold bind. rewrite Z.add_0_r.
  destruct (one true (lua_rawgeti (LTable xs h) start) b) as [[u b']| |];
    [apply IH | reflexivity | reflexivity].
Qed.

Lemma decode_with_single (one : @M Decoder.t LuaValue) (field : Field)
    (tbl x : LuaValue) (out : list byte) d post :
  array_ field = false -> elem_reads one x out ->
  wf d -> rest d = out ++ post ->
  Decoder.decode_with one field tbl d =
  Ok (lua_setfield tbl (name_ field) x, advance (Z.of_nat (length out)) d).
Proof.
  intros Ha Hone Hw Hr. unfold decode_with. rewrite Ha.
  unfold bind. rewrite (Hone d post Hw Hr). reflexivity.
Qed.

Lemma decode_with_array (one : @M Decoder.t LuaValue) (field : Field)
    (tbl : LuaValue) (xs : list LuaValue) (outs : list (list byte)) d post :
  array_ field = true -> Forall2 (elem_reads one) xs outs ->
  Z.of_nat (length xs) <= 0xffff ->
  wf d -> rest d = le_bytes 2 (Z.of_nat (length xs)) ++ concat outs ++ post ->
  Decoder.decode_with one field tbl d =
  Ok (lua_setfield tbl (name_ field) (LTable xs ∅),
      advance (2 + Z.of_nat (length (concat outs))) d).
Proof.
  intros Ha Hall Hl Hw Hr. unfold decode_with. rewrite Ha.
  unfold bind at 1. rewrite (Read_T_le_bytes 2 _ d _ Hw Hr).
  change (8 * Z.of_nat 2) with 16. rewrite Z.mod_small by lia.
  destruct (rest_advance_app d _ _ Hw Hr) as [Hw' Hr'].
  rewrite length_le_bytes in Hw', Hr'.
  unfold bind at 1. rewrite Nat2Z.id. unfold lua_createtable.
  pose proof (for_fold_rawseti one xs outs Hall [] ∅ _ post Hw' Hr') as HF.
  cbn [length app] in HF. change (Z.of_nat 0 + 1) with 1 in HF.
  rewrite HF. unfold ret. rewrite advance_advance. reflexivity.
Qed.

(** * The length field of a tag and the byte of a Bool *)

(** The tag [Append(int64_t)] writes never announces more than 7 bytes. *)
Lemma Append_int64_tag (x : Z) (buf : list byte) :
  exists (tag : byte) (body : list byte),
    Encoder.Append_int64 x buf = Ok (tt, buf ++ tag :: body) /\
    Z.shiftr (byte_to_Z tag) 1 <= 7.
Proof.
  unfold Encoder.Append_int64. destruct (x =? 0).
  - exists x00, []. split; [reflexivity | vm_compute; intros E; discriminate E].
  - set (value := if x <? 0 then to_u64 (- x) else to_u64 x).
    eexists _, _. split; [reflexivity|].
    destruct (value <=? 0xff); [|
    destruct (value <=? 0xffff); [|
    destruct (value <=? 0xffffff); [|
    destruct (value <=? 0xffffffff); [|
    destruct (value <=? 0xffffffffff); [|
    destruct (value <=? 0xffffffffffff)]]]]];
    destruct (x <? 0); vm_compute; intros E; discriminate E.
Qed.

(** C9 (the length field of a tag is not validated).  For a tag byte whose
    length field [tag >> 1] is 8 or more (up to 127), [Read()] has no check
    that rejects the tag: it asks [Read(uint8_t*, int)] for [tag >> 1]
    magnitude bytes.  [BadDecode] is raised exactly when the buffer holds
    fewer than that many bytes after the tag; with enough bytes no
    exception is raised at all: 8 bytes are decoded as a 64-bit magnitude
    and more than 8 are copied past the 8-byte accumulator.  The encoder
    never writes such a tag. *)
Theorem varint_tag_length_unvalidated (d : Decoder.t) (tag : byte) (body : list byte) :
  wf d -> rest d = tag :: body ->
  8 <= Z.shiftr (byte_to_Z tag) 1 ->
  Z.shiftr (byte_to_Z tag) 1 <= 127 /\
  Read_int64 d =
    bind (Read_raw (Z.shiftr (byte_to_Z tag) 1))
      (fun bytes =>
         if Z.shiftr (byte_to_Z tag) 1 >? 8 then undefined
         else ret (if Z.land (byte_to_Z tag) 1 =? 1 then to_i64 (le_value bytes)
                   else to_i64 (- to_i64 (le_value bytes))))
      (advance 1 d) /\
  (Z.of_nat (length body) < Z.shiftr (byte_to_Z tag) 1 ->
   Read_int64 d = Throw BadDecode) /\
  (Z.shiftr (byte_to_Z tag) 1 <= Z.of_nat (length body) ->
   (forall e, Read_int64 d <> Throw e) /\
   (8 < Z.shiftr (byte_to_Z tag) 1 -> Read_int64 d = Undefined)) /\
  (forall x buf, exists (tag' : byte) (body' : list byte),
     Encoder.Append_int64 x buf = Ok (tt, buf ++ tag' :: body') /\
     Z.shiftr (byte_to_Z tag') 1 <= 7).
Proof.
  intros Hw Hr HL.
  pose proof (byte_to_Z_range tag) as Hb.
  set (L := Z.shiftr (byte_to_Z tag) 1) in *.
  assert (HL' : L <= 127).
  { unfold L. rewrite Z.shiftr_div_pow2 by lia. change (2 ^ 1) with 2.
    cut (byte_to_Z tag / 2 < 128); [lia|].
    apply Z.div_lt_upper_bound; lia. }
  assert (Htag : byte_to_Z tag <> 0).
  { intros E. unfold L in HL. rewrite E, Z.shiftr_0_l in HL. lia. }
  assert (Hread : Read_int64 d =
    bind (Read_raw L)
      (fun bytes =>
         if L >? 8 then undefined
         else ret (if Z.land (byte_to_Z tag) 1 =? 1 then to_i64 (le_value bytes)
                   else to_i64 (- to_i64 (le_value bytes))))
      (advance 1 d)).
  { unfold Read_int64. unfold bind at 1.
    rewrite (Read_T_ok 1 d [tag] body Hw Hr eq_refl).
    cbn [le_value]. replace (byte_to_Z tag + 256 * 0) with (byte_to_Z tag) by lia.
    destruct (byte_to_Z tag =? 0) eqn:E; [lia | reflexivity]. }
  destruct (rest_advance_app d [tag] body Hw Hr) as [Hw' Hr'].
  change (Z.of_nat (length [tag])) with 1 in Hw', Hr'.
  pose proof (rest_length _ Hw') as Hlen. rewrite Hr' in Hlen.
  split; [exact HL'|]. split; [exact Hread|]. split; [|split].
  - intros Hshort. rewrite Hread. unfold bind.
    rewrite Read_raw_short by lia. reflexivity.
  - intros Henough. rewrite Hread. unfold bind, Read_raw.
    destruct (size_ (advance 1 d) - offset_ (advance 1 d) <? L) eqn:E; [lia|].
    split.
    + intros e. destruct (L >? 8); unfold undefined, ret; discriminate.
    + intros H8. destruct (L >? 8) eqn:E8; [reflexivity | lia].
  - intros x buf. apply Append_int64_tag.
Qed.

Lemma varint_tag_length_unvalidated_witness :
  Read_int64 (Decoder.new [x12; x01; x02; x03; x04; x05; x06; x07; x08; x09]) = Undefined /\
  Read_int64 (Decoder.new [x12; x01; x02; x03]) = Throw BadDecode.
Proof.
  split.
  - apply (varint_tag_length_unvalidated
             (Decoder.new [x12; x01; x02; x03; x04; x05; x06; x07; x08; x09])
             x12 [x01; x02; x03; x04; x05; x06; x07; x08; x09]
             (wf_new _) eq_refl);
      vm_compute; first [reflexivity | intros E; discriminate E].
  - apply (varint_tag_length_unvalidated
             (Decoder.new [x12; x01; x02; x03]) x12 [x01; x02; x03]
             (wf_new _) eq_refl);
      vm_compute; first [reflexivity | intros E; discriminate E].
Defined.

Lemma DecodeBool_one_valid (b : bool) :
  elem_reads DecodeBool_one (LBool b) [if b then x01 else x00].
Proof.
  intros d post Hw Hr. unfold DecodeBool_one, bind.
  rewrite (Read_T_ok 1 d [if b then x01 else x00] post Hw Hr eq_refl).
  destruct b; reflexivity.
Qed.

Lemma DecodeBool_one_invalid (b : byte) (d : Decoder.t) (post : list byte) :
  wf d -> rest d = b :: post -> b <> x00 -> b <> x01 -> DecodeBool_one d = Undefined.
Proof.
  intros Hw Hr H0 H1. unfold DecodeBool_one, bind.
  rewrite (Read_T_ok 1 d [b] post Hw Hr eq_refl).
  cbn [le_value]. replace (byte_to_Z b + 256 * 0) with (byte_to_Z b) by lia.
  destruct (byte_to_Z b =? 0) eqn:E0.
  { apply Z.eqb_eq, byte_to_Z_x00 in E0. contradiction. }
  destruct (byte_to_Z b =? 1) eqn:E1; [|reflexivity].
  apply Z.eqb_eq in E1. exfalso. apply H1, byte_to_Z_inj. rewrite E1. reflexivity.
Qed.

Lemma Read_T_throws (w : nat) (d : Decoder.t) (e : BadPto) :
  Read_T w d = Throw e -> e = BadDecode.
Proof.
  unfold Read_T. destruct (size_ d - offset_ d <? 0); [discriminate|].
  destruct (Z.of_nat w >? size_ d - offset_ d); [|discriminate].
  intros E. injection E as <-. reflexivity.
Qed.

Lemma DecodeBool_one_throws (d : Decoder.t) (e : BadPto) :
  DecodeBool_one d = Throw e -> e = BadDecode.
Proof.
  unfold DecodeBool_one, bind.
  destruct (Read_T 1 d) as [[val d1]|e'|] eqn:E; [| |discriminate].
  - destruct ((val =? 0) || (val =? 1)); discriminate.
  - intros E'. injection E' as <-. exact (Read_T_throws _ _ _ E).
Qed.

Lemma decode_with_throws (one : @M Decoder.t LuaValue) (P : BadPto -> Prop)
    (field : Field) (tbl : LuaValue) :
  P BadDecode -> (forall d e, one d = Throw e -> P e) ->
  forall d e, decode_with one field tbl d = Throw e -> P e.
Proof.
  intros HP Hone d e. unfold decode_with. destruct (array_ field).
  - unfold bind at 1. destruct (Read_T 2 d) as [[size d1]|e'|] eqn:E; [| |discriminate].
    + unfold bind at 1.
      assert (Hloop : forall n i acc d0 e0,
        for_fold (fun i arr => do val <- one; ret (lua_rawseti arr i val)) n i acc d0 =
          Throw e0 -> P e0).
      { induction n as [|n IH]; intros i acc d0 e0; cbn [for_fold]; [discriminate|].
        unfold bind at 1. unfold bind at 1.
        destruct (one d0) as [[val d2]|e2|] eqn:E2; [| |discriminate].
        - unfold ret at 1. apply IH.
        - intros E'. injection E' as <-. exact (Hone _ _ E2). }
      destruct (for_fold _ (Z.to_nat size) 1 lua_createtable d1) as [[arr d2]|e2|] eqn:EF;
        [discriminate | | discriminate].
      intros E'. injection E' as <-. exact (Hloop _ _ _ _ _ EF).
    + intros E'. injection E' as <-. rewrite (Read_T_throws _ _ _ E). exact HP.
  - unfold bind. destruct (one d) as [[val d1]|e'|] eqn:E; [discriminate | | discriminate].
    intros E'. injection E' as <-. exact (Hone _ _ E).
Qed.

(** C10, as the code has it (Bool decode).  [DecodeBool] loads each byte
    as a [bool].  A byte 0x00 decodes to [false] and a byte 0x01 to
    [true], for a single value and for every member of an array.  Any
    other byte is no value of the type: its load is undefined behaviour,
    not the value [true].  The only exception [DecodeBool] raises is
    [BadDecode]. *)
Theorem bool_decode_valid_bytes (field : Field) (tbl : LuaValue) :
  (forall d (b : bool) post,
     array_ field = false -> wf d ->
     rest d = (if b then x01 else x00) :: post ->
     DecodeBool field tbl d =
       Ok (lua_setfield tbl (name_ field) (LBool b), advance 1 d)) /\
  (forall d (bs : list bool) post,
     array_ field = true -> wf d -> Z.of_nat (length bs) <= 0xffff ->
     rest d = le_bytes 2 (Z.of_nat (length bs))
              ++ map (fun b : bool => if b then x01 else x00) bs ++ post ->
     DecodeBool field tbl d =
       Ok (lua_setfield tbl (name_ field) (LTable (map LBool bs) ∅),
           advance (2 + Z.of_nat (length bs)) d)) /\
  (forall d (b : byte) post,
     array_ field = false -> wf d -> rest d = b :: post ->
     b <> x00 -> b <> x01 ->
     DecodeBool field tbl d = Undefined) /\
  (forall d e, DecodeBool field tbl d = Throw e -> e = BadDecode).
Proof.
  split; [|split; [|split]].
  - intros d b post Ha Hw Hr.
    apply (decode_with_single _ field tbl _ [if b then x01 else x00] d post Ha
             (DecodeBool_one_valid b) Hw Hr).
  - intros d bs post Ha Hw Hl Hr.
    pose proof (decode_with_array DecodeBool_one field tbl (map LBool bs)
                  (map (fun b : bool => [if b then x01 else x00]) bs) d post Ha) as HD.
    assert (Hc : concat (map (fun b : bool => [if b then x01 else x00]) bs) =
                 map (fun b : bool => if b then x01 else x00) bs).
    { clear. induction bs as [|b bs IH]; simpl; [|rewrite IH]; reflexivity. }
    rewrite length_map, Hc in HD. rewrite length_map in HD. apply HD; try assumption.
    clear. induction bs as [|b bs IH]; constructor; [apply DecodeBool_one_valid | exact IH].
  - intros d b post Ha Hw Hr H0 H1. unfold DecodeBool, decode_with. rewrite Ha.
    unfold bind. rewrite (DecodeBool_one_invalid b d post Hw Hr H0 H1). reflexivity.
  - intros d e. apply (decode_with_throws _ (fun e => e = BadDecode));
      [reflexivity | apply DecodeBool_one_throws].
Qed.

Lemma bool_decode_valid_bytes_witness :
  DecodeBool (mkField "a" false Bool []) lua_createtable (Decoder.new [x01]) =
    Ok (LTable [] {["a" := LBool true]}, Decoder.mk [x01] 1 1) /\
  DecodeBool (mkField "a" false Bool []) lua_createtable (Decoder.new [xff]) =
    Undefined.
Proof.
  split.
  - apply (proj1 (bool_decode_valid_bytes (mkField "a" false Bool []) lua_createtable)
             (Decoder.new [x01]) true [] eq_refl (wf_new _) eq_refl).
  - apply (proj1 (proj2 (proj2 (bool_decode_valid_bytes (mkField "a" false Bool [])
                                  lua_createtable)))
             (Decoder.new [xff]) xff [] eq_refl (wf_new _) eq_refl);
      discriminate.
Defined.

(** C10, as the claim states it, fails.  The byte 0x02 in a Bool field
    does not decode to [true]: the decoder loads it as a [bool], which is
    undefined behaviour. *)
Lemma bool_decode_counterexample :
  DecodeBool (mkField "a" false Bool []) lua_createtable (Decoder.new [x02]) =
    Undefined /\
  DecodeBool (mkField "a" false Bool []) lua_createtable (Decoder.new [x02]) <>
    Ok (LTable [] {["a" := LBool true]}, Decoder.mk [x02] 1 1).
Proof. split; [reflexivity | discriminate]. Qed.

(** * Decoding a buffer and decoding a longer one *)

Lemma Field_ind_nested (P : Field -> Prop) :
  (forall name array type childs, Forall P childs -> P (mkField name array type childs)) ->
  forall f, P f.
Proof.
  intros Hstep. fix IH 1. intros [name array type childs].
  apply Hstep. induction childs as [|c cs IHcs]; constructor; [apply IH | exact IHcs].
Qed.

Lemma wf_extend (ext : list byte) (d : Decoder.t) : wf d -> wf (extend ext d).
Proof.
  intros [Ho Hs]. unfold wf, extend; simpl. rewrite length_app. lia.
Qed.

Lemma extend_nil (d : Decoder.t) : extend [] d = d.
Proof.
  destruct d as [p o s]. unfold extend; simpl. rewrite app_nil_r. f_equal. lia.
Qed.

Lemma peek_extend (n : nat) (ext : list byte) (d : Decoder.t) :
  wf d -> Z.of_nat n <= size_ d - offset_ d ->
  peek n (extend ext d) = peek n d.
Proof.
  intros [Ho Hs] Hn. unfold peek, extend; simpl.
  rewrite drop_app_le by lia. rewrite take_app_le; [reflexivity|].
  rewrite length_drop. lia.
Qed.

Lemma stable_ret {A} (a : A) : stable (ret a).
Proof.
  intros d ext Hw. unfold ret.
  split; [assumption|]. split; [lia|]. split; reflexivity.
Qed.

Lemma stable_throw {A} (e : BadPto) : stable (@throw Decoder.t A e).
Proof. intros d ext Hw. unfold throw. destruct e; exact I || reflexivity. Qed.

Lemma stable_undefined {A} : stable (@undefined Decoder.t A).
Proof. intros d ext Hw. reflexivity. Qed.

Lemma stable_bind_post {A B} (P : A -> Prop) (m : @M Decoder.t A) (k : A -> @M Decoder.t B) :
  stable m ->
  (forall d a d', m d = Ok (a, d') -> P a) ->
  (forall a, P a -> stable (k a)) ->
  stable (bind m k).
Proof.
  intros Hm HP Hk d ext Hw. pose proof (Hm d ext Hw) as Hmd. unfold bind.
  destruct (m d) as [[a d']|e|] eqn:Em.
  - destruct Hmd as (Hw' & Hmono & Hptr & Hext). rewrite Hext.
    pose proof (Hk a (HP _ _ _ Em) d' ext Hw') as Hkd.
    assert (Hsz : size_ d' = size_ d).
    { destruct Hw as [_ Hs], Hw' as [_ Hs']. rewrite Hs, Hs', Hptr. reflexivity. }
    destruct (k a d') as [[b d'']|e|].
    + destruct Hkd as (Hw'' & Hmono' & Hptr' & Hext').
      split; [assumption|]. split; [lia|]. split; [congruence | assumption].
    + destruct e; try exact Hkd.
      destruct (k a (extend ext d')) as [[b d1]|e|]; try exact I. lia.
    + exact Hkd.
  - destruct e; try (rewrite Hmd; reflexivity).
    destruct (m (extend ext d)) as [[a d1]|e|] eqn:Em1; try exact I.
    pose proof (Hm (extend ext d) [] (wf_extend ext d Hw)) as Hm1.
    rewrite Em1 in Hm1. destruct Hm1 as (Hw1 & _).
    pose proof (Hk a (HP _ _ _ Em1) d1 [] Hw1) as Hk1.
    destruct (k a d1) as [[b d2]|e|]; try exact I.
    destruct Hk1 as (_ & Hmono & _). lia.
  - rewrite Hmd. reflexivity.
Qed.

Lemma stable_bind {A B} (m : @M Decoder.t A) (k : A -> @M Decoder.t B) :
  stable m -> (forall a, stable (k a)) -> stable (bind m k).
Proof.
  intros Hm Hk. apply (stable_bind_post (fun _ => True)); auto.
Qed.

Lemma stable_Read_T (w : nat) : stable (Read_T w).
Proof.
  intros d ext Hw. unfold Read_T.
  pose proof (Nat2Z.is_nonneg (length ext)) as Hext.
  pose proof (Nat2Z.is_nonneg w) as Hwn.
  change (size_ (extend ext d)) with (size_ d + Z.of_nat (length ext)).
  change (offset_ (extend ext d)) with (offset_ d).
  destruct Hw as [Ho Hs].
  destruct (size_ d - offset_ d <? 0) eqn:E0; [lia|].
  destruct (size_ d + Z.of_nat (length ext) - offset_ d <? 0) eqn:E0'; [lia|].
  pose proof (conj Ho Hs : wf d) as Hw.
  destruct (Z.of_nat w >? size_ d - offset_ d) eqn:E.
  - destruct (Z.of_nat w >? size_ d + Z.of_nat (length ext) - offset_ d) eqn:E';
      [exact I|]. simpl. lia.
  - destruct (Z.of_nat w >? size_ d + Z.of_nat (length ext) - offset_ d) eqn:E';
      [lia|].
    split; [apply wf_advance; [assumption|lia]|].
    split; [simpl; lia|]. split; [reflexivity|].
    rewrite peek_extend by (assumption || lia). reflexivity.
Qed.

Lemma stable_Read_raw (n : Z) : 0 <= n -> stable (Read_raw n).
Proof.
  intros Hn d ext Hw. unfold Read_raw.
  pose proof (Nat2Z.is_nonneg (length ext)) as Hext.
  change (size_ (extend ext d)) with (size_ d + Z.of_nat (length ext)).
  change (offset_ (extend ext d)) with (offset_ d).
  destruct (size_ d - offset_ d <? n) eqn:E.
  - destruct (size_ d + Z.of_nat (length ext) - offset_ d <? n) eqn:E';
      [exact I|]. simpl. lia.
  - destruct (size_ d + Z.of_nat (length ext) - offset_ d <? n) eqn:E';
      [lia|].
    split; [apply wf_advance; [assumption|lia]|].
    split; [simpl; lia|]. split; [reflexivity|].
    rewrite peek_extend by (assumption || lia). reflexivity.
Qed.

Lemma Read_T_nonneg (w : nat) d a d' : Read_T w d = Ok (a, d') -> 0 <= a.
Proof.
  unfold Read_T. destruct (size_ d - offset_ d <? 0); [discriminate|].
  destruct (Z.of_nat w >? size_ d - offset_ d); [discriminate|].
  intros E. injection E as <- _. apply le_value_range.
Qed.

Lemma stable_Read_int64 : stable Read_int64.
Proof.
  unfold Read_int64.
  apply (stable_bind_post (fun tag => 0 <= tag)).
  - apply stable_Read_T.
  - apply Read_T_nonneg.
  - intros tag Ht. destruct (tag =? 0); [apply stable_ret|].
    apply stable_bind.
    + apply stable_Read_raw. apply Z.shiftr_nonneg. exact Ht.
    + intros bytes. destruct (Z.shiftr tag 1 >? 8);
        [apply stable_undefined | apply stable_ret].
Qed.

Lemma stable_Read_str : stable Read_str.
Proof.
  unfold Read_str.
  apply (stable_bind_post (fun size => 0 <= size)).
  - apply stable_Read_T.
  - apply Read_T_nonneg.
  - intros size Hs. apply (stable_Read_raw size Hs).
Qed.

Lemma stable_for_fold {A} (body : Z -> A -> @M Decoder.t A) :
  (forall i acc, stable (body i acc)) ->
  forall n i acc, stable (for_fold body n i acc).
Proof.
  intros Hb. induction n as [|n IH]; intros i acc; cbn [for_fold].
  - apply stable_ret.
  - apply stable_bind; [apply Hb | intros acc'; apply IH].
Qed.

Lemma stable_fold_each {A B} (body : A -> B -> @M Decoder.t B) (xs : list A) :
  Forall (fun x => forall acc, stable (body x acc)) xs ->
  forall acc, stable (fold_each body xs acc).
Proof.
  induction 1 as [|x xs Hx Hxs IH]; intros acc; cbn [fold_each].
  - apply stable_ret.
  - apply stable_bind; [apply Hx | intros acc'; apply IH].
Qed.

Lemma stable_decode_with (one : @M Decoder.t LuaValue) (field : Field) (tbl : LuaValue) :
  stable one -> stable (decode_with one field tbl).
Proof.
  intros Hone. unfold decode_with. destruct (array_ field).
  - apply stable_bind; [apply stable_Read_T|]. intros size.
    apply stable_bind; [|intros arr; apply stable_ret].
    apply stable_for_fold. intros i acc.
    apply stable_bind; [exact Hone | intros val; apply stable_ret].
  - apply stable_bind; [exact Hone | intros val; apply stable_ret].
Qed.

Section Stability.
Context `{HostFloat}.

Lemma stable_DecodeOne (field : Field) :
  forall tbl depth, stable (DecodeOne field tbl depth).
Proof.
  induction field as [name array type childs IH] using Field_ind_nested.
  intros tbl depth. destruct type; cbn [DecodeOne type_].
  - apply stable_decode_with, stable_bind; [apply stable_Read_T|].
    intros val. destruct ((val =? 0) || (val =? 1));
      [apply stable_ret | apply stable_undefined].
  - apply stable_decode_with, stable_bind;
      [apply stable_Read_T | intros; apply stable_ret].
  - apply stable_decode_with, stable_bind;
      [apply stable_Read_int64 | intros; apply stable_ret].
  - apply stable_decode_with, stable_bind;
      [apply stable_Read_T | intros; apply stable_ret].
  - apply stable_decode_with, stable_bind;
      [apply stable_Read_T | intros; apply stable_ret].
  - apply stable_decode_with, stable_bind;
      [apply stable_Read_str | intros; apply stable_ret].
  - unfold DecodePto_. cbn [array_ childs_ name_].
    destruct (depth + 1 >? MAX_DEPTH); [apply stable_throw|].
    assert (Hrec : forall acc,
      stable (fold_each (fun child rec => DecodeOne child rec (depth + 1))
                childs acc)).
    { apply stable_fold_each. eapply Forall_impl; [exact IH|].
      intros child Hc acc. apply Hc. }
    destruct array.
    + apply stable_bind; [apply stable_Read_T|]. intros size.
      apply stable_bind; [|intros arr; apply stable_ret].
      apply stable_for_fold. intros i acc.
      apply stable_bind; [apply Hrec | intros rec; apply stable_ret].
    + apply stable_bind; [apply Hrec | intros rec; apply stable_ret].
  - apply stable_throw.
Qed.

Lemma stable_fields (fields : list Field) (depth : Z) (tbl : LuaValue) :
  stable (fold_each (fun field tbl => DecodeOne field tbl depth) fields tbl).
Proof.
  apply stable_fold_each, Forall_forall. intros f _ acc. apply stable_DecodeOne.
Qed.
End Stability.

(** * The entry point [DecodePto] on a string *)

Section DecodeEntry.
Context `{HostFloat}.

Lemma new_app (buf ext : list byte) :
  Decoder.new (buf ++ ext) = extend ext (Decoder.new buf).
Proof.
  unfold Decoder.new, extend; simpl. rewrite length_app. f_equal. lia.
Qed.

(** The walk over the top-level fields, as [DecodePto] runs it. *)
Lemma DecodePto_string (ctx : Context) (id : Z) (buf : list byte) (len : LuaValue) :
  Api.DecodePto ctx id (LStr buf) len =
  match GetPto ctx (to_u16 id) with
  | None => luaL_error ("no such pto:" +:+ pretty (to_u16 id))
  | Some pto =>
      match fold_each (fun field tbl => DecodeOne field tbl 1)
              (fields_ pto) lua_createtable (Decoder.new buf) with
      | Ok (tbl, d') =>
          if negb (offset_ d' =? size_ d') then
            luaL_error ("decode protocol:" +:+ pto_name_ pto +:+ " error")
          else Return tbl
      | Throw e => luaL_error (reason_ e)
      | Undefined => UndefinedBehaviour
      end
  end.
Proof. reflexivity. Qed.

Lemma DecodePto_success (ctx : Context) (id : Z) (buf : list byte) (len tbl : LuaValue) :
  Api.DecodePto ctx id (LStr buf) len = Return tbl ->
  exists pto d',
    GetPto ctx (to_u16 id) = Some pto /\
    fold_each (fun field tbl => DecodeOne field tbl 1)
      (fields_ pto) lua_createtable (Decoder.new buf) = Ok (tbl, d') /\
    wf d' /\ ptr_ d' = buf /\
    offset_ d' = Z.of_nat (length buf).
Proof.
  rewrite DecodePto_string.
  destruct (GetPto ctx (to_u16 id)) as [pto|]; [|discriminate].
  pose proof (stable_fields (fields_ pto) 1 lua_createtable
                (Decoder.new buf) [] (wf_new buf)) as Hst.
  destruct (fold_each _ (fields_ pto) lua_createtable (Decoder.new buf))
    as [[tbl' d']|e|] eqn:Ef; [|discriminate|discriminate].
  destruct Hst as (Hw' & _ & Hptr & _).
  destruct (negb (offset_ d' =? size_ d')) eqn:E; [discriminate|].
  intros [= ->]. exists pto, d'.
  split; [reflexivity|]. split; [exact Ef|]. split; [exact Hw'|].
  split; [exact Hptr|].
  apply negb_false_iff, Z.eqb_eq in E. destruct Hw' as [_ Hs].
  rewrite E, Hs, Hptr. reflexivity.
Qed.

Lemma DecodePto_trailing (ctx : Context) (id : Z) (buf : list byte) (len : LuaValue)
    (pto : Protocol) (tbl : LuaValue) (d' : Decoder.t) :
  GetPto ctx (to_u16 id) = Some pto ->
  fold_each (fun field tbl => DecodeOne field tbl 1)
    (fields_ pto) lua_createtable (Decoder.new buf) = Ok (tbl, d') ->
  offset_ d' <> Z.of_nat (length buf) ->
  Api.DecodePto ctx id (LStr buf) len =
  luaL_error ("decode protocol:" +:+ pto_name_ pto +:+ " error").
Proof.
  intros Hpto Hfold Hne. rewrite DecodePto_string, Hpto.
  pose proof (stable_fields (fields_ pto) 1 lua_createtable
                (Decoder.new buf) [] (wf_new buf)) as Hst.
  rewrite Hfold in *. destruct Hst as ([_ Hs] & _ & Hptr & _).
  destruct (negb (offset_ d' =? size_ d')) eqn:E; [reflexivity|].
  apply negb_false_iff, Z.eqb_eq in E. exfalso. apply Hne.
  rewrite E, Hs, Hptr. reflexivity.
Qed.

Lemma DecodePto_extended (ctx : Context) (id : Z) (buf extra : list byte)
    (len tbl : LuaValue) :
  Api.DecodePto ctx id (LStr buf) len = Return tbl -> extra <> [] ->
  exists pto,
    GetPto ctx (to_u16 id) = Some pto /\
    Api.DecodePto ctx id (LStr (buf ++ extra)) len =
    luaL_error ("decode protocol:" +:+ pto_name_ pto +:+ " error").
Proof.
  intros Hok Hextra.
  destruct (DecodePto_success _ _ _ _ _ Hok) as (pto & d' & Hpto & Hfold & Hw' & Hptr & Hoff).
  exists pto. split; [exact Hpto|].
  pose proof (stable_fields (fields_ pto) 1 lua_createtable
                (Decoder.new buf) extra (wf_new buf)) as Hst.
  rewrite Hfold in Hst. destruct Hst as (_ & _ & _ & Hext).
  rewrite <- new_app in Hext.
  apply (DecodePto_trailing ctx id (buf ++ extra) len pto tbl _ Hpto Hext).
  cbn [extend offset_]. rewrite Hoff, length_app.
  destruct extra; [contradiction | simpl; lia].
Qed.

End DecodeEntry.

(** * Round trip of one value *)

Lemma Read_int64_zero (d : Decoder.t) (post : list byte) :
  wf d -> rest d = [x00] ++ post -> Read_int64 d = Ok (0, advance 1 d).
Proof.
  intros Hw Hr. unfold Read_int64, bind.
  rewrite (Read_T_ok 1 d [x00] post Hw Hr eq_refl). reflexivity.
Qed.

Lemma to_i16_u16 (n : Z) :
  - 2 ^ 15 <= n < 2 ^ 15 -> to_i16 (n mod 2 ^ 16) = n.
Proof.
  intros Hn. unfold to_i16. change (2 ^ 15) with 32768 in *.
  change (2 ^ 16) with 65536. Z.div_mod_to_equations. lia.
Qed.

Section ElemCodec.
Context `{HostFloat}.
Variable field : Field.

Lemma Bool_codec (x : LuaValue) :
  elem_conforms Bool x = true ->
  elem_codec (Encoder.EncodeBool_one field) DecodeBool_one x.
Proof.
  destruct x as [| b | | | | | | | |]; try discriminate. intros _.
  exists (le_bytes 1 (if b then 1 else 0)). split.
  - intros array buf. destruct b; reflexivity.
  - intros d post Hw Hr. unfold DecodeBool_one, bind.
    rewrite (Read_T_le_bytes 1 _ d post Hw Hr). destruct b; reflexivity.
Qed.

Lemma Short_codec (x : LuaValue) :
  elem_conforms Short x = true ->
  elem_codec (Encoder.EncodeShort_one field) DecodeShort_one x.
Proof.
  destruct x as [| | n | | | | | | |]; try discriminate. cbn [elem_conforms].
  intros Hc. apply andb_true_iff in Hc as [Hlo Hhi].
  apply Z.leb_le in Hlo. apply Z.ltb_lt in Hhi.
  exists (le_bytes 2 n). split.
  - intros array buf. unfold Encoder.EncodeShort_one. cbn [lua_type lua_tointeger].
    simpl negb. cbv iota.
    assert (Hi : to_i16 n = n).
    { unfold to_i16. change (2 ^ 15) with 32768 in *. change (2 ^ 16) with 65536.
      Z.div_mod_to_equations. lia. }
    rewrite Hi. reflexivity.
  - intros d post Hw Hr. unfold DecodeShort_one, bind.
    rewrite (Read_T_le_bytes 2 _ d post Hw Hr). unfold ret.
    change (8 * Z.of_nat 2) with 16. rewrite to_i16_u16 by lia. reflexivity.
Qed.

Lemma Int_codec (x : LuaValue) :
  elem_conforms Int x = true ->
  elem_codec (Encoder.EncodeInt_one field) DecodeInt_one x.
Proof.
  destruct x as [| | n | | | | | | |]; try discriminate. cbn [elem_conforms].
  intros Hc. apply andb_true_iff in Hc as [Hlo Hhi].
  apply Z.leb_le in Hlo. apply Z.leb_le in Hhi. unfold MAX_INT in *.
  assert (Hchk : (n >? MAX_INT) || (n <? - MAX_INT) = false).
  { unfold MAX_INT. apply orb_false_iff.
    split; [rewrite Z.gtb_ltb|]; apply Z.ltb_ge; lia. }
  destruct (Z.eq_dec n 0) as [-> | Hnz].
  - exists [x00]. split.
    + intros array buf. reflexivity.
    + intros d post Hw Hr. unfold DecodeInt_one, bind.
      rewrite (Read_int64_zero d post Hw Hr). reflexivity.
  - destruct (Append_int64_shape n Hnz) as (l & Hl & _ & Hmax & Henc); [lia|].
    eexists. split.
    + intros array buf. unfold Encoder.EncodeInt_one. cbn [lua_type lua_tointeger].
      simpl negb. cbv iota. cbv zeta. rewrite Hchk. apply Henc.
    + intros d post Hw Hr. unfold DecodeInt_one, bind.
      rewrite (Read_int64_shape d l (if 0 <? n then 1 else 0) (Z.abs n) post Hw Hl).
      * unfold ret. cbn [length]. rewrite length_le_bytes.
        replace (Z.of_nat (S l)) with (1 + Z.of_nat l) by lia.
        destruct (0 <? n) eqn:E; simpl; do 3 f_equal; lia.
      * destruct (0 <? n); auto.
      * split; [lia|]. destruct Hmax as [-> | Hm]; [|exact Hm].
        change (2 ^ (8 * Z.of_nat 7)) with (2 ^ 56). lia.
      * exact Hr.
Qed.

Lemma Float_codec (x : LuaValue) :
  elem_conforms Float x = true ->
  elem_codec (Encoder.EncodeFloat_one field) DecodeFloat_one x.
Proof.
  destruct x as [| | | bits | | | | | |]; try discriminate. cbn [elem_conforms].
  intros Hc. apply Z.eqb_eq in Hc.
  exists (le_bytes 4 (double_to_float bits)). split.
  - intros array buf. reflexivity.
  - intros d post Hw Hr. unfold DecodeFloat_one, bind.
    rewrite (Read_T_le_bytes 4 _ d post Hw Hr). unfold ret.
    change (8 * Z.of_nat 4) with 32. rewrite Hc. reflexivity.
Qed.

Lemma Double_codec (x : LuaValue) :
  elem_conforms Double x = true ->
  elem_codec (Encoder.EncodeDouble_one field) DecodeDouble_one x.
Proof.
  destruct x as [| | | bits | | | | | |]; try discriminate. cbn [elem_conforms].
  intros Hc. apply andb_true_iff in Hc as [Hlo Hhi].
  apply Z.leb_le in Hlo. apply Z.ltb_lt in Hhi.
  exists (le_bytes 8 bits). split.
  - intros array buf. reflexivity.
  - intros d post Hw Hr. unfold DecodeDouble_one, bind.
    rewrite (Read_T_le_bytes 8 _ d post Hw Hr). unfold ret.
    change (8 * Z.of_nat 8) with 64. rewrite Z.mod_small by lia. reflexivity.
Qed.

Lemma String_codec (x : LuaValue) :
  elem_conforms String x = true ->
  elem_codec (Encoder.EncodeString_one field) DecodeString_one x.
Proof.
  destruct x as [| | | | s | | | | |]; try discriminate. cbn [elem_conforms].
  intros Hc. apply Z.leb_le in Hc.
  exists (le_bytes 2 (Z.of_nat (length s)) ++ s). split.
  - intros array buf. unfold Encoder.EncodeString_one.
    cbn [lua_type lua_tolstring]. simpl negb. cbv iota. cbv zeta.
    destruct (Z.of_nat (length s) >? 0xffff) eqn:E; [lia|].
    unfold Encoder.Append_str, bind, Encoder.Append_T, Encoder.Append_raw.
    rewrite Nat2Z.id, firstn_all. unfold to_u16.
    rewrite Z.mod_small by lia.
    change (negb (LUA_TSTRING =? LUA_TSTRING)) with false. cbv iota beta.
    rewrite <- app_assoc. reflexivity.
  - intros d post Hw Hr. unfold DecodeString_one, bind.
    rewrite <- app_assoc in Hr.
    rewrite (Read_str_ok d s post Hw Hc Hr). unfold ret.
    rewrite length_app, length_le_bytes.
    do 3 f_equal. lia.
Qed.
End ElemCodec.

(** * Round trip of arrays and records *)

Lemma keys_within_nil (hash : gmap string LuaValue) :
  keys_within hash [] = true -> hash = ∅.
Proof.
  unfold keys_within. intros Hk. apply bool_decide_eq_true in Hk.
  apply dom_empty_inv_L. set_solver.
Qed.

Lemma keys_within_lookup (hash : gmap string LuaValue) (names : list string) (k : string) :
  keys_within hash names = true -> k ∉ names -> hash !! k = None.
Proof.
  unfold keys_within. intros Hk Hn. apply bool_decide_eq_true in Hk.
  apply not_elem_of_dom. intros Hd. apply Hn.
  apply Hk in Hd. apply elem_of_list_to_set in Hd. exact Hd.
Qed.

Lemma Forall2_choice {A B} (P : A -> B -> Prop) (xs : list A) :
  Forall (fun x => exists y, P x y) xs -> exists ys, Forall2 P xs ys.
Proof.
  induction 1 as [|x xs [y Hy] _ [ys Hys]].
  - exists []. constructor.
  - exists (y :: ys). constructor; assumption.
Qed.

Lemma forallb_Forall {A} (f : A -> bool) (xs : list A) :
  forallb f xs = true -> Forall (fun x => f x = true) xs.
Proof.
  induction xs as [|x xs IH]; simpl; intros Hf; constructor;
    apply andb_true_iff in Hf as [Hx Hxs]; auto.
Qed.

Lemma shape_roundtrip (enc : bool -> LuaValue -> @M (list byte) unit)
    (dec : @M Decoder.t LuaValue) (ok : LuaValue -> bool) (field : Field) (v : LuaValue) :
  (forall x, ok x = true -> elem_codec enc dec x) ->
  shape_conforms (array_ field) ok v = true ->
  exists out,
    (forall buf, Encoder.encode_with enc field v buf = Ok (tt, buf ++ out)) /\
    (forall tbl d post, wf d -> rest d = out ++ post ->
       decode_with dec field tbl d =
       Ok (lua_setfield tbl (name_ field) v, advance (Z.of_nat (length out)) d)).
Proof.
  intros Hcodec Hc. unfold shape_conforms in Hc.
  destruct (array_ field) eqn:Ha.
  - destruct v as [| | | | | arr hash | | | |]; try discriminate.
    apply andb_true_iff in Hc as [Hc Hall]. apply andb_true_iff in Hc as [Hk Hl].
    apply keys_within_nil in Hk. subst hash. apply Z.leb_le in Hl.
    apply forallb_Forall in Hall.
    destruct (Forall2_choice
                (fun x out => (forall array, elem_writes (enc array) x out) /\
                              elem_reads dec x out) arr) as [outs Houts].
    { eapply Forall_impl; [exact Hall|]. intros x Hx. apply Hcodec, Hx. }
    exists (le_bytes 2 (Z.of_nat (length arr)) ++ concat outs). split.
    + apply encode_with_array; try assumption.
      eapply Forall2_impl; [exact Houts|]. intros x out [Hw _]. apply Hw.
    + intros tbl d post Hw Hr. rewrite <- app_assoc in Hr.
      rewrite (decode_with_array dec field tbl arr outs d post Ha); try assumption.
      * rewrite length_app, length_le_bytes. do 3 f_equal. lia.
      * eapply Forall2_impl; [exact Houts|]. intros x out [_ Hrd]. exact Hrd.
  - destruct (Hcodec v Hc) as (out & Hwr & Hrd). exists out. split.
    + apply encode_with_single; [assumption | apply Hwr].
    + intros tbl d post Hw Hr.
      apply (decode_with_single dec field tbl v out d post Ha Hrd Hw Hr).
Qed.

Lemma foldl_insert_lookup (g : string -> LuaValue) (cs : list Field)
    (h0 : gmap string LuaValue) (k : string) :
  foldl (fun h c => <[name_ c := g (name_ c)]> h) h0 cs !! k =
  if decide (k ∈ map name_ cs) then Some (g k) else h0 !! k.
Proof.
  revert h0. induction cs as [|c cs IH]; intros h0; cbn [foldl map].
  - destruct (decide (k ∈ [])) as [Hin|]; [|reflexivity].
    apply elem_of_nil in Hin. contradiction.
  - rewrite IH. destruct (decide (k ∈ map name_ cs)) as [Hin|Hnin].
    + rewrite decide_True by (right; exact Hin). reflexivity.
    + destruct (decide (k = name_ c)) as [-> | Hne].
      * rewrite lookup_insert_eq, decide_True by left. reflexivity.
      * rewrite lookup_insert_ne by congruence.
        rewrite decide_False; [reflexivity|].
        intros Hin. apply elem_of_cons in Hin as [? | ?]; contradiction.
Qed.

Section RecordCodec.
Context `{HostFloat}.

Lemma elem_conforms_nil (type : eTYPE) : elem_conforms type LNil = false.
Proof. destruct type; reflexivity. Qed.

Lemma conforms_nil (depth : Z) (field : Field) : conforms depth field LNil = false.
Proof.
  destruct field as [name array type childs]. cbn [conforms type_ array_].
  destruct type; try reflexivity;
    try (destruct array; cbn [shape_conforms]; [reflexivity | apply elem_conforms_nil]).
  destruct array; cbn [shape_conforms record_conforms];
    rewrite ?andb_false_r; reflexivity.
Qed.

(** The walk over the fields of one record. *)
Lemma fields_roundtrip (depth : Z) (x : LuaValue) (cs : list Field) :
  Forall (fun c => forall v, conforms depth c v = true -> field_codec c depth v) cs ->
  Forall (fun c => conforms depth c (lua_getfield x (name_ c)) = true) cs ->
  exists out,
    (forall buf,
       for_each (fun child =>
         Encoder.EncodeOne child (lua_getfield x (name_ child)) depth) cs buf =
       Ok (tt, buf ++ out)) /\
    (forall h0 d post, wf d -> rest d = out ++ post ->
       fold_each (fun child rec => DecodeOne child rec depth) cs (LTable [] h0) d =
       Ok (LTable []
             (foldl (fun h c => <[name_ c := lua_getfield x (name_ c)]> h) h0 cs),
           advance (Z.of_nat (length out)) d)).
Proof.
  induction 1 as [|c cs Hc Hcs IH]; intros Hconf.
  - exists []. split.
    + intros buf. cbn. unfold ret. rewrite app_nil_r. reflexivity.
    + intros h0 d post Hw Hr. cbn. unfold ret. rewrite advance_0. reflexivity.
  - apply Forall_cons in Hconf as [Hx Hxs].
    destruct (Hc _ Hx) as (out1 & Henc1 & Hdec1).
    destruct (IH Hxs) as (out2 & Henc2 & Hdec2).
    exists (out1 ++ out2). split.
    + intros buf. cbn [for_each]. unfold bind. rewrite Henc1, Henc2.
      rewrite <- app_assoc. reflexivity.
    + intros h0 d post Hw Hr. rewrite <- app_assoc in Hr.
      cbn [fold_each foldl]. unfold bind.
      rewrite (Hdec1 (LTable [] h0) d _ Hw Hr). cbn [lua_setfield].
      destruct (rest_advance_app d out1 _ Hw Hr) as [Hw' Hr'].
      rewrite (Hdec2 _ _ post Hw' Hr'), advance_advance, length_app.
      do 3 f_equal. lia.
Qed.

Lemma record_roundtrip (depth : Z) (x : LuaValue) (cs : list Field) :
  Forall (fun c => forall v, conforms depth c v = true -> field_codec c depth v) cs ->
  record_conforms (conforms depth) cs x = true ->
  lua_type x = LUA_TTABLE /\
  exists out,
    (forall buf,
       for_each (fun child =>
         Encoder.EncodeOne child (lua_getfield x (name_ child)) depth) cs buf =
       Ok (tt, buf ++ out)) /\
    elem_reads (fold_each (fun child rec => DecodeOne child rec depth) cs lua_createtable)
      x out.
Proof.
  intros Hcs Hc. unfold record_conforms in Hc.
  destruct x as [| | | | | arr hash | | | |]; try discriminate.
  destruct arr as [|? ?]; [|discriminate].
  apply andb_true_iff in Hc as [Hk Hall]. apply forallb_Forall in Hall.
  split; [reflexivity|].
  destruct (fields_roundtrip depth (LTable [] hash) cs Hcs Hall) as (out & Henc & Hdec).
  exists out. split; [exact Henc|].
  intros d post Hw Hr. unfold lua_createtable. rewrite (Hdec ∅ d post Hw Hr).
  do 3 f_equal. apply map_eq. intros k. rewrite foldl_insert_lookup.
  destruct (decide (k ∈ map name_ cs)) as [Hin|Hnin].
  - apply list_elem_of_fmap in Hin as (c & -> & Hc).
    rewrite Forall_forall in Hall. specialize (Hall c Hc).
    cbn [lua_getfield] in *. destruct (hash !! name_ c) as [v|]; [reflexivity|].
    cbn in Hall. rewrite conforms_nil in Hall. discriminate.
  - rewrite lookup_empty. symmetry. eapply keys_within_lookup; eassumption.
Qed.
End RecordCodec.

(** * Round trip of a field and of a protocol *)

Section FieldCodec.
Context `{HostFloat}.

Lemma prim_roundtrip (enc : Field -> bool -> LuaValue -> @M (list byte) unit)
    (dec : @M Decoder.t LuaValue) (type : eTYPE) (field : Field) (depth : Z) (v : LuaValue) :
  (forall x, elem_conforms type x = true -> elem_codec (enc field) dec x) ->
  (forall buf, Encoder.EncodeOne field v depth buf =
               Encoder.encode_with (enc field) field v buf) ->
  (forall tbl, DecodeOne field tbl depth = decode_with dec field tbl) ->
  shape_conforms (array_ field) (elem_conforms type) v = true ->
  field_codec field depth v.
Proof.
  intros Hcodec Henc Hdec Hc.
  destruct (shape_roundtrip (enc field) dec _ field v Hcodec Hc) as (out & Hw & Hr).
  exists out. split.
  - intros buf. rewrite Henc. apply Hw.
  - intros tbl d post Hwf Hrest. rewrite Hdec. apply (Hr tbl d post Hwf Hrest).
Qed.

Lemma field_roundtrip (field : Field) :
  forall depth v, conforms depth field v = true -> field_codec field depth v.
Proof.
  induction field as [name array type childs IH] using Field_ind_nested.
  intros depth v Hc. destruct type; cbn [conforms type_] in Hc.
  - apply (prim_roundtrip Encoder.EncodeBool_one DecodeBool_one Bool);
      [intros x Hx; apply Bool_codec, Hx | reflexivity | reflexivity | exact Hc].
  - apply (prim_roundtrip Encoder.EncodeShort_one DecodeShort_one Short);
      [intros x Hx; apply Short_codec, Hx | reflexivity | reflexivity | exact Hc].
  - apply (prim_roundtrip Encoder.EncodeInt_one DecodeInt_one Int);
      [intros x Hx; apply Int_codec, Hx | reflexivity | reflexivity | exact Hc].
  - apply (prim_roundtrip Encoder.EncodeFloat_one DecodeFloat_one Float);
      [intros x Hx; apply Float_codec, Hx | reflexivity | reflexivity | exact Hc].
  - apply (prim_roundtrip Encoder.EncodeDouble_one DecodeDouble_one Double);
      [intros x Hx; apply Double_codec, Hx | reflexivity | reflexivity | exact Hc].
  - apply (prim_roundtrip Encoder.EncodeString_one DecodeString_one String);
      [intros x Hx; apply String_codec, Hx | reflexivity | reflexivity | exact Hc].
  - apply andb_true_iff in Hc as [Hd Hc]. apply Z.leb_le in Hd.
    cbn [array_ childs_] in Hc.
    assert (Hrec : forall x,
      record_conforms (conforms (depth + 1)) childs x = true ->
      lua_type x = LUA_TTABLE /\
      exists out,
        (forall buf,
           for_each (fun child =>
             Encoder.EncodeOne child (lua_getfield x (name_ child)) (depth + 1))
             childs buf = Ok (tt, buf ++ out)) /\
        elem_reads
          (fold_each (fun child rec => DecodeOne child rec (depth + 1)) childs
             lua_createtable) x out).
    { intros x Hx. apply record_roundtrip; [|exact Hx].
      eapply Forall_impl; [exact IH|]. intros c Hcod v' Hv'. apply Hcod, Hv'. }
    unfold field_codec. cbn [Encoder.EncodeOne DecodeOne type_].
    unfold Encoder.EncodePto_, DecodePto_. cbn [array_ childs_ name_].
    destruct (depth + 1 >? MAX_DEPTH) eqn:Ed; [lia|].
    unfold shape_conforms in Hc. destruct array.
    + destruct v as [| | | | | arr hash | | | |]; try discriminate.
      apply andb_true_iff in Hc as [Hc Hall]. apply andb_true_iff in Hc as [Hk Hl].
      apply keys_within_nil in Hk. subst hash. apply Z.leb_le in Hl.
      apply forallb_Forall in Hall.
      destruct (Forall2_choice
        (fun x out =>
           lua_type x = LUA_TTABLE /\
           (forall buf,
              for_each (fun child =>
                Encoder.EncodeOne child (lua_getfield x (name_ child)) (depth + 1))
                childs buf = Ok (tt, buf ++ out)) /\
           elem_reads
             (fold_each (fun child rec => DecodeOne child rec (depth + 1)) childs
                lua_createtable) x out) arr) as [outs Houts].
      { eapply Forall_impl; [exact Hall|]. intros x Hx.
        destruct (Hrec x Hx) as (Ht & out & Hw & Hr). exists out. auto. }
      exists (le_bytes 2 (Z.of_nat (length arr)) ++ concat outs). split.
      * intros buf. cbn [lua_type].
        change (negb (LUA_TTABLE =? LUA_TTABLE)) with false. cbv iota.
        unfold bind at 1. rewrite BeginArray_ok by assumption. rewrite Nat2Z.id.
        pose proof (for_range_rawgeti
          (fun x =>
             if negb (lua_type x =? LUA_TTABLE)
             then throw (BadField true name "table" (lua_typename (lua_type x)))
             else for_each (fun child =>
                    Encoder.EncodeOne child (lua_getfield x (name_ child)) (depth + 1))
                    childs)
          1 arr outs) as HR.
        cbv beta in HR. cbv zeta.
        rewrite (HR ltac:(eapply Forall2_impl; [exact Houts|];
                          intros x out (Ht & Hw & _) b; rewrite Ht; apply Hw)
                    [] ∅ 0 _ eq_refl).
        rewrite <- app_assoc. reflexivity.
      * intros tbl d post Hw Hr. rewrite <- app_assoc in Hr.
        unfold bind at 1. rewrite (Read_T_le_bytes 2 _ d _ Hw Hr).
        change (8 * Z.of_nat 2) with 16. rewrite Z.mod_small by lia.
        destruct (rest_advance_app d _ _ Hw Hr) as [Hw' Hr'].
        rewrite length_le_bytes in Hw', Hr'.
        unfold bind at 1. rewrite Nat2Z.id.
        pose proof (for_fold_rawseti
          (fold_each (fun child rec => DecodeOne child rec (depth + 1)) childs
             lua_createtable) arr outs
          ltac:(eapply Forall2_impl; [exact Houts|];
                intros x out (_ & _ & Hrd); exact Hrd)
          [] ∅ _ post Hw' Hr') as HF.
        cbn [length app] in HF. change (Z.of_nat 0 + 1) with 1 in HF.
        unfold lua_createtable at 2. rewrite HF. unfold ret.
        rewrite advance_advance, length_app, length_le_bytes.
        do 3 f_equal. lia.
    + destruct (Hrec v Hc) as (Ht & out & Hw & Hr). exists out. split.
      * intros buf. rewrite Ht.
        change (negb (LUA_TTABLE =? LUA_TTABLE)) with false. cbv iota. apply Hw.
      * intros tbl d post Hwf Hrest. unfold bind.
        rewrite (Hr d post Hwf Hrest). reflexivity.
  - discriminate.
Qed.
End FieldCodec.

(** * The depth counter *)

Section NeverTooDeep.
Context {St : Type}.








End NeverTooDeep.










Lemma height_nonneg (field : Field) : 0 <= height field.
Proof.
  destruct field as [name array type childs]. destruct type; cbn; try lia.
  induction childs as [|c cs IH]; cbn in *; lia.
Qed.

Lemma height_child (name : string) (array : bool) (childs : list Field) (c : Field) :
  c ∈ childs -> height c + 1 <= height (mkField name array Pto childs).
Proof.
  cbn [height type_ childs_]. induction 1 as [c cs | c c' cs Hin IH]; cbn [foldr]; lia.
Qed.


Section DepthBound.
Context `{HostFloat}.




End DepthBound.

(** * Absent fields *)

Lemma always_fails_for_each {St A} (body : A -> @M St unit) (xs : list A) (x : A) :
  x ∈ xs -> always_fails (body x) -> always_fails (for_each body xs).
Proof.
  intros Hin Hx. induction xs as [|y xs IH].
  - apply elem_of_nil in Hin. contradiction.
  - intros s a s'. cbn [for_each]. unfold bind.
    destruct (body y s) as [[u s1]|e|] eqn:E; try discriminate.
    apply elem_of_cons in Hin as [-> | Hin].
    + exfalso. exact (Hx s u s1 E).
    + apply IH, Hin.
Qed.

Section Absent.
Context `{HostFloat}.

Lemma EncodeOne_absent (field : Field) (depth : Z) (buf : list byte) :
  Encoder.EncodeOne field LNil depth buf =
  match type_ field with
  | Pto =>
      if depth + 1 >? MAX_DEPTH then Throw (TooDepth true)
      else Throw (BadField false (name_ field) "table" "nil")
  | BadCode n => Throw (BadType (name_ field) n)
  | t =>
      if array_ field then Throw (BadArrayType (name_ field) "nil")
      else Throw (BadField false (name_ field) (kind_name t) "nil")
  end.
Proof.
  destruct field as [name array type childs].
  destruct type; cbn [Encoder.EncodeOne type_ array_ name_];
    try (destruct array; reflexivity).
  unfold Encoder.EncodePto_. destruct (depth + 1 >? MAX_DEPTH); reflexivity.
Qed.

Lemma EncodeOne_absent_fails (field : Field) (depth : Z) :
  always_fails (Encoder.EncodeOne field LNil depth).
Proof.
  intros buf a buf'. rewrite EncodeOne_absent.
  destruct (type_ field); try (destruct (array_ field); discriminate);
    try discriminate.
  destruct (depth + 1 >? MAX_DEPTH); discriminate.
Qed.

Lemma EncodePto_absent_fails (ctx : Context) (id : Z) (record : LuaValue)
    (pto : Protocol) (field : Field) :
  GetPto ctx (to_u16 id) = Some pto -> field ∈ fields_ pto ->
  lua_getfield record (name_ field) = LNil ->
  forall bytes, Api.EncodePto ctx id record <> Return bytes.
Proof.
  intros Hpto Hin Habs bytes. unfold Api.EncodePto. rewrite Hpto.
  pose proof (always_fails_for_each
    (fun field => Encoder.EncodeOne field (lua_getfield record (name_ field)) 1)
    (fields_ pto) field Hin) as Hf.
  cbv beta in Hf. rewrite Habs in Hf.
  specialize (Hf (EncodeOne_absent_fails field 1) []).
  destruct (for_each _ (fields_ pto) []) as [[u buf]|e|]; try discriminate.
  exfalso. exact (Hf u buf eq_refl).
Qed.
End Absent.

(** * What the encoder writes, the decoder reads *)

Lemma to_i16_range (n : Z) : - 2 ^ 15 <= to_i16 n < 2 ^ 15.
Proof.
  unfold to_i16. change (2 ^ 15) with 32768. change (2 ^ 16) with 65536.
  Z.div_mod_to_equations. lia.
Qed.

Lemma BeginArray_inv (field : Field) (v : LuaValue) (vt : Z) (buf : list byte)
    (size : Z) (res : list byte) :
  Encoder.BeginArray field v vt buf = Ok (size, res) ->
  vt = LUA_TTABLE /\ size = lua_rawlen v /\ lua_rawlen v <= 0xffff /\
  res = buf ++ le_bytes 2 (lua_rawlen v).
Proof.
  unfold Encoder.BeginArray.
  destruct (negb (vt =? LUA_TTABLE)) eqn:Et; [discriminate|].
  destruct (lua_rawlen v >? 0xffff) eqn:El; [discriminate|].
  apply negb_false_iff, Z.eqb_eq in Et.
  assert (Hn : 0 <= lua_rawlen v).
  { destruct v; cbn; lia. }
  unfold bind, Encoder.Append_T, Encoder.Append_raw, ret, to_u16.
  rewrite Z.mod_small by lia. intros [= <- <-]. repeat split; try assumption. lia.
Qed.

(** The loop over the members of an array, read back member by member. *)
Lemma for_range_decodable (g : Z -> @M (list byte) unit) (dec : @M Decoder.t LuaValue) :
  (forall i buf res, g i buf = Ok (tt, res) ->
     exists out x', res = buf ++ out /\ elem_reads dec x' out) ->
  forall n start buf res,
    for_range g n start buf = Ok (tt, res) ->
    exists outs xs,
      res = buf ++ concat outs /\ Forall2 (elem_reads dec) xs outs /\ length xs = n.
Proof.
  intros Hg. induction n as [|n IH]; intros start buf res; cbn [for_range].
  - unfold ret. intros [= <-]. exists [], []. rewrite app_nil_r.
    split; [reflexivity|]. split; [constructor | reflexivity].
  - unfold bind. destruct (g start buf) as [[[] buf1]|e|] eqn:Eg; try discriminate.
    intros Hrest. destruct (Hg _ _ _ Eg) as (out & x' & -> & Hrd).
    destruct (IH _ _ _ Hrest) as (outs & xs & -> & Hall & Hlen).
    exists (out :: outs), (x' :: xs). cbn [concat length]. rewrite <- app_assoc.
    split; [reflexivity|]. split; [constructor; assumption | congruence].
Qed.

Lemma encode_with_decodable (enc : bool -> LuaValue -> @M (list byte) unit)
    (dec : @M Decoder.t LuaValue) (field : Field) (v : LuaValue) (buf res : list byte) :
  elem_decodable enc dec ->
  Encoder.encode_with enc field v buf = Ok (tt, res) ->
  exists out v',
    res = buf ++ out /\
    forall tbl d post, wf d -> rest d = out ++ post ->
      decode_with dec field tbl d =
      Ok (lua_setfield tbl (name_ field) v', advance (Z.of_nat (length out)) d).
Proof.
  intros Hdec. unfold Encoder.encode_with. destruct (array_ field) eqn:Ha.
  - unfold bind at 1.
    destruct (Encoder.BeginArray field v (lua_type v) buf) as [[size buf1]|e|] eqn:Eb;
      try discriminate.
    apply BeginArray_inv in Eb as (_ & -> & Hl & ->). intros Hloop.
    destruct (for_range_decodable (fun i => enc true (lua_rawgeti v i)) dec
                ltac:(intros i b r Hr; exact (Hdec true _ b r Hr))
                _ _ _ _ Hloop) as (outs & xs & -> & Hall & Hlen).
    assert (Hn : 0 <= lua_rawlen v) by (destruct v; cbn; lia).
    assert (Hxs : Z.of_nat (length xs) = lua_rawlen v) by lia.
    exists (le_bytes 2 (lua_rawlen v) ++ concat outs), (LTable xs ∅).
    rewrite <- app_assoc. split; [reflexivity|].
    intros tbl d post Hw Hr. rewrite <- app_assoc, <- Hxs in Hr.
    rewrite (decode_with_array dec field tbl xs outs d post Ha Hall ltac:(lia) Hw Hr).
    rewrite length_app, length_le_bytes. do 3 f_equal. lia.
  - intros Hone. destruct (Hdec false v buf res Hone) as (out & x' & -> & Hrd).
    exists out, x'. split; [reflexivity|].
    intros tbl d post Hw Hr.
    apply (decode_with_single dec field tbl x' out d post Ha Hrd Hw Hr).
Qed.

Section Decodable.
Context `{HostFloat}.
Variable field : Field.

Lemma Bool_decodable : elem_decodable (Encoder.EncodeBool_one field) DecodeBool_one.
Proof.
  intros array x buf res. unfold Encoder.EncodeBool_one.
  destruct (negb (lua_type x =? LUA_TBOOLEAN)); [discriminate|].
  intros [= <-]. exists (le_bytes 1 (if lua_toboolean x then 1 else 0)),
                        (LBool (lua_toboolean x)).
  split; [reflexivity|]. intros d post Hw Hr. unfold DecodeBool_one, bind.
  rewrite (Read_T_le_bytes 1 _ d post Hw Hr). destruct (lua_toboolean x); reflexivity.
Qed.

Lemma Short_decodable : elem_decodable (Encoder.EncodeShort_one field) DecodeShort_one.
Proof.
  intros array x buf res. unfold Encoder.EncodeShort_one.
  destruct (negb (lua_type x =? LUA_TNUMBER)); [discriminate|].
  intros [= <-]. exists (le_bytes 2 (to_i16 (lua_tointeger x))),
                        (LInt (to_i16 (lua_tointeger x))).
  split; [reflexivity|]. intros d post Hw Hr. unfold DecodeShort_one, bind.
  rewrite (Read_T_le_bytes 2 _ d post Hw Hr). unfold ret.
  change (8 * Z.of_nat 2) with 16.
  rewrite to_i16_u16 by apply to_i16_range. reflexivity.
Qed.

Lemma Int_decodable : elem_decodable (Encoder.EncodeInt_one field) DecodeInt_one.
Proof.
  intros array x buf res. unfold Encoder.EncodeInt_one.
  destruct (negb (lua_type x =? LUA_TNUMBER)); [discriminate|]. cbv zeta.
  destruct ((lua_tointeger x >? MAX_INT) || (lua_tointeger x <? - MAX_INT)) eqn:Ec;
    [discriminate|].
  apply orb_false_iff in Ec as [Ehi Elo].
  rewrite Z.gtb_ltb in Ehi. apply Z.ltb_ge in Ehi. apply Z.ltb_ge in Elo.
  intros Henc.
  destruct (Int_codec field (LInt (lua_tointeger x))) as (out & Hwr & Hrd).
  { cbn [elem_conforms]. apply andb_true_iff. split; apply Z.leb_le; lia. }
  specialize (Hwr array buf). unfold elem_writes, Encoder.EncodeInt_one in Hwr.
  cbn [lua_type lua_tointeger] in Hwr.
  change (negb (LUA_TNUMBER =? LUA_TNUMBER)) with false in Hwr. cbv iota zeta in Hwr.
  assert (Ec' : (lua_tointeger x >? MAX_INT) || (lua_tointeger x <? - MAX_INT) = false).
  { apply orb_false_iff. split; [rewrite Z.gtb_ltb|]; apply Z.ltb_ge; lia. }
  rewrite Ec' in Hwr. rewrite Hwr in Henc. injection Henc as <-.
  exists out, (LInt (lua_tointeger x)). split; [reflexivity | exact Hrd].
Qed.

Lemma Float_decodable : elem_decodable (Encoder.EncodeFloat_one field) DecodeFloat_one.
Proof.
  intros array x buf res. unfold Encoder.EncodeFloat_one.
  destruct (negb (lua_type x =? LUA_TNUMBER)); [discriminate|].
  intros [= <-]. eexists _, _. split; [reflexivity|].
  intros d post Hw Hr. unfold DecodeFloat_one, bind.
  rewrite (Read_T_le_bytes 4 _ d post Hw Hr). reflexivity.
Qed.

Lemma Double_decodable : elem_decodable (Encoder.EncodeDouble_one field) DecodeDouble_one.
Proof.
  intros array x buf res. unfold Encoder.EncodeDouble_one.
  destruct (negb (lua_type x =? LUA_TNUMBER)); [discriminate|].
  intros [= <-]. eexists _, _. split; [reflexivity|].
  intros d post Hw Hr. unfold DecodeDouble_one, bind.
  rewrite (Read_T_le_bytes 8 _ d post Hw Hr). reflexivity.
Qed.

Lemma String_decodable : elem_decodable (Encoder.EncodeString_one field) DecodeString_one.
Proof.
  intros array x buf res. unfold Encoder.EncodeString_one.
  destruct (negb (lua_type x =? LUA_TSTRING)) eqn:Et; [discriminate|]. cbv zeta.
  destruct (Z.of_nat (length (lua_tolstring x)) >? 0xffff) eqn:El; [discriminate|].
  intros Henc.
  destruct (String_codec field (LStr (lua_tolstring x))) as (out & Hwr & Hrd).
  { cbn [elem_conforms]. apply Z.leb_le. lia. }
  specialize (Hwr array buf). unfold elem_writes, Encoder.EncodeString_one in Hwr.
  cbn [lua_type lua_tolstring] in Hwr.
  change (negb (LUA_TSTRING =? LUA_TSTRING)) with false in Hwr. cbv iota zeta in Hwr.
  rewrite El in Hwr. rewrite Hwr in Henc. injection Henc as <-.
  exists out, (LStr (lua_tolstring x)). split; [reflexivity | exact Hrd].
Qed.
End Decodable.

Section EncodeDecodes.
Context `{HostFloat}.

Lemma fields_decodable (depth : Z) (x : LuaValue) (cs : list Field) :
  Forall (fun c => forall v buf res,
            Encoder.EncodeOne c v depth buf = Ok (tt, res) ->
            exists out, res = buf ++ out /\ field_decodes c depth out) cs ->
  forall buf res,
    for_each (fun child =>
      Encoder.EncodeOne child (lua_getfield x (name_ child)) depth) cs buf =
    Ok (tt, res) ->
    exists out (F : gmap string LuaValue -> gmap string LuaValue),
      res = buf ++ out /\
      forall h0 d post, wf d -> rest d = out ++ post ->
        fold_each (fun child rec => DecodeOne child rec depth) cs (LTable [] h0) d =
        Ok (LTable [] (F h0), advance (Z.of_nat (length out)) d).
Proof.
  induction 1 as [|c cs Hc Hcs IH]; intros buf res; cbn [for_each].
  - unfold ret. intros [= <-]. exists [], (fun h => h). rewrite app_nil_r.
    split; [reflexivity|]. intros h0 d post Hw Hr. cbn. unfold ret.
    rewrite advance_0. reflexivity.
  - unfold bind.
    destruct (Encoder.EncodeOne c (lua_getfield x (name_ c)) depth buf)
      as [[[] buf1]|e|] eqn:Ec; try discriminate.
    intros Hrest. destruct (Hc _ _ _ Ec) as (out1 & -> & v' & Hdec1).
    destruct (IH _ _ Hrest) as (out2 & F & -> & Hdec2).
    exists (out1 ++ out2), (fun h => F (<[name_ c := v']> h)).
    rewrite <- app_assoc. split; [reflexivity|].
    intros h0 d post Hw Hr. rewrite <- app_assoc in Hr.
    cbn [fold_each]. unfold bind.
    rewrite (Hdec1 (LTable [] h0) d _ Hw Hr). cbn [lua_setfield].
    destruct (rest_advance_app d out1 _ Hw Hr) as [Hw' Hr'].
    rewrite (Hdec2 _ _ post Hw' Hr'), advance_advance, length_app.
    do 3 f_equal. lia.
Qed.

Lemma prim_decodes (enc : Field -> bool -> LuaValue -> @M (list byte) unit)
    (dec : @M Decoder.t LuaValue) (field : Field) (depth : Z) (v : LuaValue)
    (buf res : list byte) :
  elem_decodable (enc field) dec ->
  (forall buf, Encoder.EncodeOne field v depth buf =
               Encoder.encode_with (enc field) field v buf) ->
  (forall tbl, DecodeOne field tbl depth = decode_with dec field tbl) ->
  Encoder.EncodeOne field v depth buf = Ok (tt, res) ->
  exists out, res = buf ++ out /\ field_decodes field depth out.
Proof.
  intros Hd Henc Hdec Hok. rewrite Henc in Hok.
  destruct (encode_with_decodable _ dec field v buf res Hd Hok) as (out & v' & -> & Hrd).
  exists out. split; [reflexivity|]. exists v'.
  intros tbl d post Hw Hr. rewrite Hdec. apply (Hrd tbl d post Hw Hr).
Qed.

(** Every output of [EncodeOne] is read by [DecodeOne]. *)
Lemma encode_decodes (field : Field) :
  forall depth v buf res,
    Encoder.EncodeOne field v depth buf = Ok (tt, res) ->
    exists out, res = buf ++ out /\ field_decodes field depth out.
Proof.
  induction field as [name array type childs IH] using Field_ind_nested.
  intros depth v buf res Hok. destruct type.
  - apply (prim_decodes Encoder.EncodeBool_one DecodeBool_one _ depth v);
      [apply Bool_decodable | reflexivity | reflexivity | exact Hok].
  - apply (prim_decodes Encoder.EncodeShort_one DecodeShort_one _ depth v);
      [apply Short_decodable | reflexivity | reflexivity | exact Hok].
  - apply (prim_decodes Encoder.EncodeInt_one DecodeInt_one _ depth v);
      [apply Int_decodable | reflexivity | reflexivity | exact Hok].
  - apply (prim_decodes Encoder.EncodeFloat_one DecodeFloat_one _ depth v);
      [apply Float_decodable | reflexivity | reflexivity | exact Hok].
  - apply (prim_decodes Encoder.EncodeDouble_one DecodeDouble_one _ depth v);
      [apply Double_decodable | reflexivity | reflexivity | exact Hok].
  - apply (prim_decodes Encoder.EncodeString_one DecodeString_one _ depth v);
      [apply String_decodable | reflexivity | reflexivity | exact Hok].
  - cbn [Encoder.EncodeOne type_] in Hok. unfold Encoder.EncodePto_ in Hok.
    cbn [array_ childs_ name_] in Hok.
    destruct (depth + 1 >? MAX_DEPTH) eqn:Ed; [discriminate|].
    destruct (negb (lua_type v =? LUA_TTABLE)) eqn:Et; [discriminate|].
    assert (Hkids : forall x b r,
      for_each (fun child =>
        Encoder.EncodeOne child (lua_getfield x (name_ child)) (depth + 1)) childs b =
      Ok (tt, r) ->
      exists out x', r = b ++ out /\
        elem_reads (fold_each (fun child rec => DecodeOne child rec (depth + 1))
                      childs lua_createtable) x' out).
    { intros x b r Hr.
      destruct (fields_decodable (depth + 1) x childs
                  ltac:(eapply Forall_impl; [exact IH|];
                        intros c Hc v0 b0 r0; apply Hc) b r Hr)
        as (out & F & -> & Hdec).
      exists out, (LTable [] (F ∅)). split; [reflexivity|].
      intros d post Hw Hrest. apply (Hdec ∅ d post Hw Hrest). }
    unfold field_decodes. cbn [DecodeOne type_]. unfold DecodePto_.
    cbn [array_ childs_ name_]. rewrite Ed.
    destruct array.
    + unfold bind at 1 in Hok.
      destruct (Encoder.BeginArray _ v (lua_type v) buf) as [[size buf1]|e|] eqn:Eb;
        try discriminate.
      apply BeginArray_inv in Eb as (_ & -> & Hl & ->).
      assert (Hloop : exists outs xs,
        res = (buf ++ le_bytes 2 (lua_rawlen v)) ++ concat outs /\
        Forall2 (elem_reads
                   (fold_each (fun child rec => DecodeOne child rec (depth + 1))
                      childs lua_createtable)) xs outs /\
        length xs = Z.to_nat (lua_rawlen v)).
      { match type of Hok with
        | for_range ?g _ _ _ = _ =>
            apply (for_range_decodable g
                     (fold_each (fun child rec => DecodeOne child rec (depth + 1))
                        childs lua_createtable)) with (start := 0); [|exact Hok]
        end.
        intros i b r. cbv beta zeta.
        destruct (negb (lua_type (lua_rawgeti v (i + 1)) =? LUA_TTABLE));
          [discriminate | apply Hkids]. }
      destruct Hloop as (outs & xs & -> & Hall & Hlen).
      assert (Hn : 0 <= lua_rawlen v) by (destruct v; cbn; lia).
      assert (Hxs : Z.of_nat (length xs) = lua_rawlen v) by lia.
      exists (le_bytes 2 (lua_rawlen v) ++ concat outs).
      rewrite <- app_assoc. split; [reflexivity|]. exists (LTable xs ∅).
      intros tbl d post Hw Hr. rewrite <- app_assoc in Hr.
      unfold bind at 1. rewrite (Read_T_le_bytes 2 _ d _ Hw Hr).
      change (8 * Z.of_nat 2) with 16. rewrite Z.mod_small by lia.
      destruct (rest_advance_app d _ _ Hw Hr) as [Hw' Hr'].
      rewrite length_le_bytes in Hw', Hr'.
      unfold bind at 1. rewrite <- Hxs, Nat2Z.id.
      pose proof (for_fold_rawseti _ xs outs Hall [] ∅ _ post Hw' Hr') as HF.
      cbn [length app] in HF. change (Z.of_nat 0 + 1) with 1 in HF.
      unfold lua_createtable at 2. rewrite HF. unfold ret.
      rewrite advance_advance, length_app, length_le_bytes.
      do 3 f_equal. lia.
    + destruct (Hkids v buf res Hok) as (out & x' & -> & Hrd).
      exists out. split; [reflexivity|]. exists x'.
      intros tbl d post Hw Hr. unfold bind. rewrite (Hrd d post Hw Hr). reflexivity.
  - discriminate.
Qed.

(** The bytes [EncodePto] returns are bytes [DecodePto] accepts. *)
Lemma EncodePto_decodes (ctx : Context) (id : Z) (record len : LuaValue)
    (bytes : list byte) :
  Api.EncodePto ctx id record = Return bytes ->
  exists tbl, Api.DecodePto ctx id (LStr bytes) len = Return tbl.
Proof.
  unfold Api.EncodePto. rewrite DecodePto_string.
  destruct (GetPto ctx (to_u16 id)) as [pto|]; [|discriminate]. cbv zeta.
  destruct (for_each _ (fields_ pto) []) as [[[] buf]|e|] eqn:Ef; try discriminate.
  intros [= ->].
  destruct (fields_decodable 1 record (fields_ pto)
              ltac:(apply Forall_forall; intros f _; apply encode_decodes)
              [] bytes Ef) as (out & F & -> & Hdec).
  cbn [app]. exists (LTable [] (F ∅)). unfold lua_createtable.
  rewrite (Hdec ∅ (Decoder.new out) [] (wf_new out));
    [|rewrite rest_new, app_nil_r; reflexivity].
  cbn [advance new offset_ size_]. rewrite Z.add_0_l, Z.eqb_refl. reflexivity.
Qed.
End EncodeDecodes.

(** * The properties of the codec *)

Lemma registry_P1 : GetPto registry (to_u16 1) = Some (mkProtocol "P1" P1).
Proof. vm_compute. reflexivity. Qed.

Lemma registry_P2 : GetPto registry (to_u16 2) = Some (mkProtocol "P2" P2).
Proof. vm_compute. reflexivity. Qed.

Lemma registry_P3 : GetPto registry (to_u16 3) = Some (mkProtocol "P3" P3).
Proof. vm_compute. reflexivity. Qed.

(** C2, as the code has it (round trip).  For every protocol registered
    under an id and every record in the wire domain of its schema
    ([protocol_conforms]: exactly the protocol's fields, every value within
    what its type represents on the wire, Message nesting within
    [MAX_DEPTH]) whose encoding has at most 2^30 bytes, the most the buffer
    of the encoder can grow to, [EncodePto] returns bytes that [DecodePto]
    decodes to a record equal to the one encoded, in all fields, sequence
    lengths and nested records. *)
Theorem roundtrip_conforming `{HostFloat} (ctx : Context) (id : Z) (pto : Protocol)
    (record len : LuaValue) :
  GetPto ctx (to_u16 id) = Some pto ->
  protocol_conforms pto record = true ->
  (forall bytes, Api.EncodePto ctx id record = Return bytes ->
                 Z.of_nat (length bytes) <= 2 ^ 30) ->
  exists bytes,
    Api.EncodePto ctx id record = Return bytes /\
    Z.of_nat (length bytes) <= 2 ^ 30 /\
    Api.DecodePto ctx id (LStr bytes) len = Return record.
Proof.
  intros Hpto Hc Hsize. unfold protocol_conforms in Hc.
  destruct (record_roundtrip 1 record (fields_ pto)) as (_ & out & Henc & Hdec);
    [|exact Hc|].
  { apply Forall_forall. intros f _ v Hv. apply field_roundtrip, Hv. }
  assert (HE : Api.EncodePto ctx id record = Return out).
  { unfold Api.EncodePto. rewrite Hpto. cbv zeta. rewrite (Henc []). reflexivity. }
  exists out. split; [exact HE|]. split; [exact (Hsize out HE)|].
  rewrite DecodePto_string, Hpto.
  rewrite (Hdec (Decoder.new out) [] (wf_new out));
    [|rewrite rest_new, app_nil_r; reflexivity].
  cbn [advance new offset_ size_]. rewrite Z.add_0_l, Z.eqb_refl. reflexivity.
Qed.

Lemma roundtrip_conforming_witness :
  exists bytes,
    Api.EncodePto (H := IEEE754.host) registry 3 record3 = Return bytes /\
    Z.of_nat (length bytes) <= 2 ^ 30 /\
    Api.DecodePto (H := IEEE754.host) registry 3 (LStr bytes) LNil = Return record3.
Proof.
  apply (roundtrip_conforming (H := IEEE754.host) registry 3 (mkProtocol "P3" P3)
           record3 LNil).
  - vm_compute. reflexivity.
  - vm_compute. reflexivity.
  - intros bytes E. vm_compute in E. injection E as <-. vm_compute. discriminate.
Defined.

(** C2, as the spec states it, fails.  The encoder accepts a record whose
    Short field holds 70000 (a number is all [EncodeShort] asks for), and
    the decoder returns 4464 in its place; on an IEEE 754 host it accepts
    the double 0.1 in a Float field, and the decoder returns the binary32
    nearest to 0.1, another double. *)
Lemma roundtrip_counterexample :
  (Api.EncodePto (H := IEEE754.host) registry 1 record_wide =
     Return [x01; x70; x11; x00; x02; x00; x68; x69] /\
   Api.DecodePto (H := IEEE754.host) registry 1
     (LStr [x01; x70; x11; x00; x02; x00; x68; x69]) LNil = Return record_narrowed /\
   lua_getfield record_wide "b" = LInt 70000 /\
   lua_getfield record_narrowed "b" = LInt 4464 /\
   record_narrowed <> record_wide) /\
  (Api.EncodePto (H := IEEE754.host) registry 4 record_tenth =
     Return [xcd; xcc; xcc; x3d] /\
   Api.DecodePto (H := IEEE754.host) registry 4 (LStr [xcd; xcc; xcc; x3d]) LNil =
     Return record_tenth_narrowed /\
   record_tenth_narrowed <> record_tenth).
Proof.
  split.
  - split; [vm_compute; reflexivity|]. split; [vm_compute; reflexivity|].
    split; [vm_compute; reflexivity|]. split; [vm_compute; reflexivity|].
    intros E. apply (f_equal (fun r => lua_getfield r "b")) in E.
    vm_compute in E. discriminate E.
  - split; [vm_compute; reflexivity|]. split; [vm_compute; reflexivity|].
    intros E. apply (f_equal (fun r => lua_getfield r "x")) in E.
    vm_compute in E. discriminate E.
Qed.

(** C3 (concrete encoding).  Under [P1 = { a: Bool, b: Short, c: Int,
    d: String }], registered with id 1, the record [{a=true, b=-1, c=0,
    d="hi"}] encodes to exactly the 8 bytes 01 FF FF 00 02 00 68 69, and
    these bytes decode to that record. *)
Theorem concrete_P1 `{HostFloat} :
  GetPto registry (to_u16 1) = Some (mkProtocol "P1" P1) /\
  Api.EncodePto registry 1 record1 = Return [x01; xff; xff; x00; x02; x00; x68; x69] /\
  length [x01; xff; xff; x00; x02; x00; x68; x69] = 8%nat /\
  Api.DecodePto registry 1 (LStr [x01; xff; xff; x00; x02; x00; x68; x69]) LNil =
    Return record1.
Proof.
  split; [exact registry_P1|].
  split; [vm_compute; reflexivity|]. split; [reflexivity|].
  vm_compute. reflexivity.
Qed.

(** The other scenarios of the wire format. *)
Example P1_int_300 `{HostFloat} :
  Api.EncodePto registry 1
    (LTable [] (<["a" := LBool false]> (<["b" := LInt 0]>
               (<["c" := LInt 300]> (<["d" := LStr []]> ∅))))) =
  Return [x00; x00; x00; x05; x2c; x01; x00; x00].
Proof. vm_compute. reflexivity. Qed.

Example P1_int_minus_1 `{HostFloat} :
  Api.EncodePto registry 1
    (LTable [] (<["a" := LBool false]> (<["b" := LInt 0]>
               (<["c" := LInt (-1)]> (<["d" := LStr []]> ∅))))) =
  Return [x00; x00; x00; x02; x01; x00; x00].
Proof. vm_compute. reflexivity. Qed.

Example P2_int_array `{HostFloat} :
  Api.EncodePto registry 2
    (LTable [] {["xs" := LTable [LInt 0; LInt 1; LInt (-1); LInt 256] ∅]}) =
  Return [x04; x00; x00; x03; x01; x02; x01; x05; x00; x01].
Proof. vm_compute. reflexivity. Qed.

Example P3_message_array `{HostFloat} :
  Api.EncodePto registry 3 record3 =
  Return [x02; x00; x01; x00; x02; x00; x03; x00; x04; x00].
Proof. vm_compute. reflexivity. Qed.

Example unregistered_id `{HostFloat} :
  Api.DecodePto registry 9 (LStr []) LNil = luaL_error "no such pto:9".
Proof. vm_compute. reflexivity. Qed.

(** C4 (length-exactness on decode).  A call of [DecodePto] succeeds only
    when the cursor, after every top-level field has been decoded, equals
    the length of the input; when the fields decode and bytes are left
    over the call fails with "decode protocol:<name> error"; so a buffer
    that decodes, and with it every buffer that [EncodePto] returns,
    extended by one byte or more, fails with that error. *)
Theorem decode_length_exact `{HostFloat} (ctx : Context) (id : Z) (buf : list byte)
    (len : LuaValue) :
  (forall tbl,
     Api.DecodePto ctx id (LStr buf) len = Return tbl ->
     exists pto d',
       GetPto ctx (to_u16 id) = Some pto /\
       fold_each (fun field tbl => DecodeOne field tbl 1)
         (fields_ pto) lua_createtable (Decoder.new buf) = Ok (tbl, d') /\
       offset_ d' = Z.of_nat (length buf)) /\
  (forall pto tbl d',
     GetPto ctx (to_u16 id) = Some pto ->
     fold_each (fun field tbl => DecodeOne field tbl 1)
       (fields_ pto) lua_createtable (Decoder.new buf) = Ok (tbl, d') ->
     offset_ d' <> Z.of_nat (length buf) ->
     Api.DecodePto ctx id (LStr buf) len =
     luaL_error ("decode protocol:" +:+ pto_name_ pto +:+ " error")) /\
  (forall tbl extra,
     Api.DecodePto ctx id (LStr buf) len = Return tbl -> extra <> [] ->
     exists pto,
       GetPto ctx (to_u16 id) = Some pto /\
       Api.DecodePto ctx id (LStr (buf ++ extra)) len =
       luaL_error ("decode protocol:" +:+ pto_name_ pto +:+ " error")) /\
  (forall record extra,
     Api.EncodePto ctx id record = Return buf -> extra <> [] ->
     exists pto,
       GetPto ctx (to_u16 id) = Some pto /\
       Api.DecodePto ctx id (LStr (buf ++ extra)) len =
       luaL_error ("decode protocol:" +:+ pto_name_ pto +:+ " error")).
Proof.
  split; [|split; [|split]].
  - intros tbl Hok.
    destruct (DecodePto_success _ _ _ _ _ Hok) as (pto & d' & Hpto & Hfold & _ & _ & Hoff).
    exists pto, d'. auto.
  - intros pto tbl d'. apply DecodePto_trailing.
  - intros tbl extra. apply DecodePto_extended.
  - intros record extra Henc Hextra.
    destruct (EncodePto_decodes ctx id record len buf Henc) as [tbl Hdec].
    apply (DecodePto_extended ctx id buf extra len tbl Hdec Hextra).
Qed.

Lemma decode_length_exact_witness :
  Api.DecodePto (H := IEEE754.host) registry 1 (LStr (bytes1 ++ [x00])) LNil =
  luaL_error "decode protocol:P1 error".
Proof.
  destruct (proj1 (proj2 (proj2
              (decode_length_exact (H := IEEE754.host) registry 1 bytes1 LNil)))
              record1 [x00]) as (pto & Hpto & Hdec).
  - vm_compute. reflexivity.
  - discriminate.
  - rewrite registry_P1 in Hpto. injection Hpto as <-. exact Hdec.
Defined.






(** At the entry points: 127 Message fields nested in one another are
    encoded and decoded, 128 are refused. *)
Example deep_127_encodes `{HostFloat} :
  Api.EncodePto (deep_registry 127) 1 (deep_record 127) = Return [x01].
Proof. vm_compute. reflexivity. Qed.

Example deep_127_decodes `{HostFloat} :
  Api.DecodePto (deep_registry 127) 1 (LStr [x01]) LNil = Return (deep_record 127).
Proof. vm_compute. reflexivity. Qed.

Example deep_128_encode_too_deep `{HostFloat} :
  Api.EncodePto (deep_registry 128) 1 (deep_record 128) =
  luaL_error "pto encode too depth".
Proof. vm_compute. reflexivity. Qed.

Example deep_128_decode_too_deep `{HostFloat} :
  Api.DecodePto (deep_registry 128) 1 (LStr [x01]) LNil =
  luaL_error "pto decode too depth".
Proof. vm_compute. reflexivity. Qed.

(** C7 (id range), the code at the id 0xFFFF.  The table has 0xffff slots,
    the ids 0 .. 0xfffe, and a lookup of 0xFFFF finds no protocol; but the
    guard of [ImportPto], [id > 0xffff] on a 16-bit id, never fires: no
    import is refused with "id must less than 0xffff", and the import of
    0xFFFF goes on to store into slot 0xffff, one past the end of the
    table. *)
Theorem import_id_0xffff_not_rejected :
  length (ptos_ Context_new) = Z.to_nat 0xffff /\
  (forall ctx id name fields msg,
     Api.ImportPto ctx id name fields <> luaL_error msg) /\
  (forall name fields,
     Api.ImportPto Context_new 0xffff name fields = UndefinedBehaviour) /\
  (forall ctx, GetPto ctx 0xffff = None) /\
  (forall (H : HostFloat) ctx record,
     Api.EncodePto ctx 0xffff record = luaL_error "no such pto:65535") /\
  (forall (H : HostFloat) ctx input len,
     Api.DecodePto ctx 0xffff input len = luaL_error "no such pto:65535").
Proof.
  split; [apply length_replicate|]. split; [|split; [|split; [|split]]].
  - intros ctx id name fields msg. unfold Api.ImportPto.
    assert (Hid : 0 <= to_u16 id < 2 ^ 16) by (apply Z.mod_pos_bound; lia).
    destruct (to_u16 id >? 0xffff) eqn:E; [lia|].
    destruct (AddPto _ _ ctx); discriminate.
  - intros name fields. unfold Api.ImportPto, AddPto, Context_new. cbn [ptos_].
    rewrite length_replicate. reflexivity.
  - intros ctx. reflexivity.
  - intros H ctx record. reflexivity.
  - intros H ctx input len. reflexivity.
Qed.

(** The ids below 0xFFFF are imported, and found again. *)
Lemma import_below_0xffff (id : Z) (name : string) (fields : list Field) :
  0 <= id < 0xffff ->
  exists ctx,
    Api.ImportPto Context_new id name fields = Return ctx /\
    GetPto ctx id = Some (mkProtocol name fields).
Proof.
  intros Hid. unfold Api.ImportPto, AddPto, Context_new. cbn [ptos_].
  assert (Hu : to_u16 id = id) by (unfold to_u16; apply Z.mod_small; lia).
  rewrite Hu, length_replicate.
  change (Z.of_nat (Z.to_nat 0xffff)) with 65535.
  destruct (id >? 0xffff) eqn:E; [lia|].
  destruct (65535 <=? id) eqn:E'; [lia|].
  eexists. split; [reflexivity|]. unfold GetPto. cbn [ptos_].
  destruct (id >=? 0xffff) eqn:E''; [lia|].
  rewrite list_lookup_insert_eq; [reflexivity|]. rewrite length_replicate. lia.
Qed.

(** C8, as the code has it (absent fields).  Encoding a record in which
    the name of a field is absent (the fetched value is nil) fails.  A
    single-valued field of a primitive type raises [BadField], "field:<name>
    expect <type>,not nil"; a Message field, array or not, met within the
    depth bound raises [BadField] expecting a table; an array-typed field
    of a primitive type raises [BadArrayType], "field:<name> expect
    table,not nil".  In every case the call of [EncodePto] on a protocol
    with that field returns no bytes. *)
Theorem absent_field_rejected `{HostFloat} (field : Field) (record : LuaValue)
    (depth : Z) (buf : list byte) :
  lua_getfield record (name_ field) = LNil ->
  (primitive (type_ field) = true -> array_ field = false ->
   Encoder.EncodeOne field (lua_getfield record (name_ field)) depth buf =
   Throw (BadField false (name_ field) (kind_name (type_ field)) "nil")) /\
  (primitive (type_ field) = true -> array_ field = true ->
   Encoder.EncodeOne field (lua_getfield record (name_ field)) depth buf =
   Throw (BadArrayType (name_ field) "nil")) /\
  (type_ field = Pto -> depth + 1 <= MAX_DEPTH ->
   Encoder.EncodeOne field (lua_getfield record (name_ field)) depth buf =
   Throw (BadField false (name_ field) "table" "nil")) /\
  (forall ctx id pto,
     GetPto ctx (to_u16 id) = Some pto -> field ∈ fields_ pto ->
     forall bytes, Api.EncodePto ctx id record <> Return bytes).
Proof.
  intros Habs. rewrite Habs, EncodeOne_absent.
  split; [|split; [|split]].
  - intros Hp Ha. rewrite Ha. destruct (type_ field); try discriminate Hp; reflexivity.
  - intros Hp Ha. rewrite Ha. destruct (type_ field); try discriminate Hp; reflexivity.
  - intros Ht Hd. rewrite Ht.
    destruct (depth + 1 >? MAX_DEPTH) eqn:E; [lia | reflexivity].
  - intros ctx id pto Hpto Hin. apply (EncodePto_absent_fails ctx id record pto field Hpto Hin Habs).
Qed.

Lemma absent_field_rejected_witness :
  Encoder.EncodeOne (H := IEEE754.host) (mkField "d" false String [])
    (lua_getfield (LTable [] ∅) "d") 1 [] =
  Throw (BadField false "d" "string" "nil").
Proof.
  assert (Habs : lua_getfield (LTable [] ∅) (name_ (mkField "d" false String [])) = LNil)
    by (vm_compute; reflexivity).
  apply (proj1 (absent_field_rejected (H := IEEE754.host) (mkField "d" false String [])
                  (LTable [] ∅) 1 [] Habs)); reflexivity.
Defined.

(** C8, as the spec states it, fails on an array-typed field: with the
    name [xs] of [P2 = { xs: Int[] }] absent, the exception is
    [BadArrayType], not [BadField]. *)
Lemma absent_array_counterexample :
  Api.EncodePto (H := IEEE754.host) registry 2 (LTable [] ∅) =
    luaL_error "field:xs expect table,not nil" /\
  Encoder.EncodeOne (H := IEEE754.host) (mkField "xs" true Int [])
    (lua_getfield (LTable [] ∅) "xs") 1 [] = Throw (BadArrayType "xs" "nil") /\
  ~ (exists array name expect vt,
       Encoder.EncodeOne (H := IEEE754.host) (mkField "xs" true Int [])
         (lua_getfield (LTable [] ∅) "xs") 1 [] =
       Throw (BadField array name expect vt)).
Proof.
  split; [vm_compute; reflexivity|]. split; [vm_compute; reflexivity|].
  intros (array & name & expect & vt & E). vm_compute in E. discriminate E.
Qed.

(** * The encoder only appends *)

Lemma appends_ret {A} (a : A) : appends (ret a).
Proof. left. exists a, []. intros buf. unfold ret. rewrite app_nil_r. reflexivity. Qed.

Lemma appends_throw {A} (e : BadPto) : appends (@throw (list byte) A e).
Proof. right. exists e. reflexivity. Qed.

Lemma appends_Append_raw (data : list byte) : appends (Encoder.Append_raw data).
Proof. left. exists tt, data. reflexivity. Qed.

Lemma appends_bind {A B} (m : @M (list byte) A) (k : A -> @M (list byte) B) :
  appends m -> (forall a, appends (k a)) -> appends (bind m k).
Proof.
  intros [(a & out & Hm) | (e & Hm)] Hk.
  - destruct (Hk a) as [(b & out' & Hka) | (e & Hka)].
    + left. exists b, (out ++ out'). intros buf. unfold bind.
      rewrite Hm, Hka, app_assoc. reflexivity.
    + right. exists e. intros buf. unfold bind. rewrite Hm, Hka. reflexivity.
  - right. exists e. intros buf. unfold bind. rewrite Hm. reflexivity.
Qed.

Lemma appends_for_each {A} (body : A -> @M (list byte) unit) (xs : list A) :
  Forall (fun x => appends (body x)) xs -> appends (for_each body xs).
Proof.
  induction 1 as [|x xs Hx Hxs IH]; cbn [for_each].
  - apply appends_ret.
  - apply appends_bind; [exact Hx | intros _; exact IH].
Qed.

Lemma appends_for_range (body : Z -> @M (list byte) unit) :
  (forall i, appends (body i)) -> forall n i, appends (for_range body n i).
Proof.
  intros Hb. induction n as [|n IH]; intros i; cbn [for_range].
  - apply appends_ret.
  - apply appends_bind; [apply Hb | intros _; apply IH].
Qed.

Lemma appends_Append_int64 (val : Z) : appends (Encoder.Append_int64 val).
Proof.
  unfold Encoder.Append_int64. destruct (val =? 0); apply appends_Append_raw.
Qed.

Lemma appends_BeginArray (field : Field) (v : LuaValue) (vt : Z) :
  appends (Encoder.BeginArray field v vt).
Proof.
  unfold Encoder.BeginArray. destruct (negb (vt =? LUA_TTABLE)); [apply appends_throw|].
  destruct (lua_rawlen v >? 0xffff); [apply appends_throw|].
  apply appends_bind; [apply appends_Append_raw | intros _; apply appends_ret].
Qed.

Lemma appends_encode_with (one : bool -> LuaValue -> @M (list byte) unit)
    (field : Field) (v : LuaValue) :
  (forall array x, appends (one array x)) -> appends (Encoder.encode_with one field v).
Proof.
  intros Hone. unfold Encoder.encode_with. destruct (array_ field); [|apply Hone].
  apply appends_bind; [apply appends_BeginArray|]. intros size.
  apply appends_for_range. intros i. apply Hone.
Qed.

Ltac appends_one :=
  unfold Encoder.EncodeBool_one, Encoder.EncodeShort_one, Encoder.EncodeInt_one,
    Encoder.EncodeFloat_one, Encoder.EncodeDouble_one, Encoder.EncodeString_one,
    Encoder.Append_T, Encoder.Append_str;
  repeat first
    [ apply appends_Append_raw | apply appends_Append_int64 | apply appends_ret
    | apply appends_throw
    | apply appends_bind; [|intros ?]
    | match goal with |- appends (if ?c then _ else _) => destruct c end
    | progress cbv zeta ].

Section Appends.
Context `{HostFloat}.

Lemma appends_EncodeOne (field : Field) :
  forall v depth, appends (Encoder.EncodeOne field v depth).
Proof.
  induction field as [name array type childs IH] using Field_ind_nested.
  intros v depth. destruct type; cbn [Encoder.EncodeOne type_];
    try (apply appends_encode_with; intros a x; appends_one; fail).
  - unfold Encoder.EncodePto_. cbn [array_ childs_ name_].
    destruct (depth + 1 >? MAX_DEPTH); [apply appends_throw|].
    assert (Hkids : forall x,
      appends (for_each (fun child =>
        Encoder.EncodeOne child (lua_getfield x (name_ child)) (depth + 1)) childs)).
    { intros x. apply appends_for_each. eapply Forall_impl; [exact IH|].
      intros c Hc. apply Hc. }
    destruct (negb (lua_type v =? LUA_TTABLE)); [apply appends_throw|].
    destruct array; [|apply Hkids].
    apply appends_bind; [apply appends_BeginArray|]. intros size.
    apply appends_for_range. intros i. cbv zeta.
    destruct (negb _); [apply appends_throw | apply Hkids].
  - apply appends_throw.
Qed.

Lemma appends_fields (record : LuaValue) (depth : Z) (fields : list Field) :
  appends (for_each (fun field =>
    Encoder.EncodeOne field (lua_getfield record (name_ field)) depth) fields).
Proof.
  apply appends_for_each, Forall_forall. intros f _. apply appends_EncodeOne.
Qed.

(** X1.  [EncodeOne] only appends to the buffer: whatever has been
    written stays as it is, and what is written for a field and a value,
    or the exception raised for them, does not depend on what was
    written before.  In particular the walk itself never runs into
    undefined behaviour; the growth of the buffer is the matter of
    [Reserve]. *)
Theorem encode_appends (field : Field) (v : LuaValue) (depth : Z) :
  (exists out, forall buf,
     Encoder.EncodeOne field v depth buf = Ok (tt, buf ++ out)) \/
  (exists e, forall buf, Encoder.EncodeOne field v depth buf = Throw e).
Proof.
  destruct (appends_EncodeOne field v depth) as [([] & out & Ho) | He].
  - left. exists out. exact Ho.
  - right. exact He.
Qed.

Lemma for_each_app {St A} (body : A -> @M St unit) (xs ys : list A) (s : St) :
  for_each body (xs ++ ys) s = bind (for_each body xs) (fun _ => for_each body ys) s.
Proof.
  revert s. induction xs as [|x xs IH]; intros s; cbn [app for_each].
  - reflexivity.
  - unfold bind in *. destruct (body x s) as [[u s1]|e|]; [apply IH | | ]; reflexivity.
Qed.

(** X2.  The bytes of a protocol are the bytes of its fields, one after
    the other in schema order: when a record encodes under the fields
    [fs1] and under the fields [fs2], it encodes under [fs1 ++ fs2] to
    the two byte strings concatenated. *)
Theorem encode_concatenates (ctx : Context) (id1 id2 id12 : Z) (n1 n2 n12 : string)
    (fs1 fs2 : list Field) (record : LuaValue) (b1 b2 : list byte) :
  GetPto ctx (to_u16 id1) = Some (mkProtocol n1 fs1) ->
  GetPto ctx (to_u16 id2) = Some (mkProtocol n2 fs2) ->
  GetPto ctx (to_u16 id12) = Some (mkProtocol n12 (fs1 ++ fs2)) ->
  Api.EncodePto ctx id1 record = Return b1 ->
  Api.EncodePto ctx id2 record = Return b2 ->
  Api.EncodePto ctx id12 record = Return (b1 ++ b2).
Proof.
  unfold Api.EncodePto. intros -> -> ->. cbn [fields_]. cbv zeta.
  rewrite for_each_app. unfold bind.
  destruct (for_each _ fs1 []) as [[[] o1]|e|]; try discriminate. intros [= ->].
  destruct (appends_fields record 1 fs2) as [([] & out & Ho) | (e & He)].
  - rewrite (Ho []), (Ho b1). cbn [app]. intros [= ->]. reflexivity.
  - rewrite (He []). discriminate.
Qed.
End Appends.

Lemma encode_concatenates_witness :
  Api.EncodePto (H := IEEE754.host) registry_split 1 record1 =
  Return ([x01; xff; xff] ++ [x00; x02; x00; x68; x69]).
Proof.
  apply (encode_concatenates (H := IEEE754.host) registry_split 5 6 1
           "P1a" "P1b" "P1" (take 2 P1) (drop 2 P1) record1);
    vm_compute; reflexivity.
Defined.

(** * Array framing *)

Section Framing.
Context `{HostFloat}.

Lemma prim_array_framing (one : bool -> LuaValue -> @M (list byte) unit)
    (field : Field) (xs : list LuaValue) (h : gmap string LuaValue)
    (outs : list (list byte)) :
  (forall x buf r, one false x buf = Ok (tt, r) -> one true x buf = Ok (tt, r)) ->
  array_ field = true -> Z.of_nat (length xs) <= 0xffff ->
  Forall2 (fun x out => forall buf, one false x buf = Ok (tt, buf ++ out)) xs outs ->
  forall buf,
    Encoder.encode_with one field (LTable xs h) buf =
    Ok (tt, buf ++ le_bytes 2 (Z.of_nat (length xs)) ++ concat outs).
Proof.
  intros Hflag Ha Hl Hall. apply encode_with_array; try assumption.
  eapply Forall2_impl; [exact Hall|]. intros x out Hx buf. apply Hflag, Hx.
Qed.

Ltac flag_one :=
  intros x buf r;
  unfold Encoder.EncodeBool_one, Encoder.EncodeShort_one, Encoder.EncodeInt_one,
    Encoder.EncodeFloat_one, Encoder.EncodeDouble_one, Encoder.EncodeString_one;
  cbv zeta;
  repeat match goal with
         | |- (if ?c then _ else _) _ = _ -> _ => destruct c
         end;
  first [discriminate | exact (fun E => E)].

Lemma array_framing_walk (field : Field) (xs : list LuaValue)
    (h : gmap string LuaValue) (outs : list (list byte)) (depth : Z) :
  array_ field = true ->
  match type_ field with
  | Pto => depth + 1 <= MAX_DEPTH
  | BadCode _ => False
  | _ => True
  end ->
  Z.of_nat (length xs) <= 0xffff ->
  Forall2 (fun x out => forall buf,
             Encoder.EncodeOne (single field) x depth buf = Ok (tt, buf ++ out))
    xs outs ->
  forall buf,
    Encoder.EncodeOne field (LTable xs h) depth buf =
    Ok (tt, buf ++ le_bytes 2 (Z.of_nat (length xs)) ++ concat outs).
Proof.
  destruct field as [name array type childs]. unfold single.
  cbn [array_ type_ name_ childs_]. intros -> Ht Hl Hall.
  destruct type; try contradiction;
    cbn [Encoder.EncodeOne type_] in Hall |- *.
  - apply prim_array_framing; try assumption; try reflexivity. flag_one.
  - apply prim_array_framing; try assumption; try reflexivity. flag_one.
  - apply prim_array_framing; try assumption; try reflexivity. flag_one.
  - apply prim_array_framing; try assumption; try reflexivity. flag_one.
  - apply prim_array_framing; try assumption; try reflexivity. flag_one.
  - apply prim_array_framing; try assumption; try reflexivity. flag_one.
  - intros buf. unfold Encoder.EncodePto_ in Hall |- *.
    cbn [array_ childs_ name_] in Hall |- *.
    destruct (depth + 1 >? MAX_DEPTH) eqn:Ed; [lia|].
    cbn [lua_type]. change (negb (LUA_TTABLE =? LUA_TTABLE)) with false. cbv iota.
    unfold bind at 1. rewrite BeginArray_ok by assumption. rewrite Nat2Z.id.
    pose proof (for_range_rawgeti
      (fun x =>
         if negb (lua_type x =? LUA_TTABLE)
         then throw (BadField true name "table" (lua_typename (lua_type x)))
         else for_each (fun child =>
                Encoder.EncodeOne child (lua_getfield x (name_ child)) (depth + 1))
                childs)
      1 xs outs) as HR.
    cbv beta in HR. cbv zeta.
    rewrite (HR ltac:(eapply Forall2_impl; [exact Hall|];
                      intros x out Hx b; specialize (Hx b);
                      destruct (negb (lua_type x =? LUA_TTABLE));
                      [discriminate Hx | exact Hx])
                [] h 0 _ eq_refl).
    rewrite <- app_assoc. reflexivity.
Qed.

(** X3.  An array is framed by its count: when every member [x] of a
    sequence of at most 0xffff members encodes to [out] as the value of
    the single-valued field of the same type, the sequence encodes, as
    the value of the array field, to the 16-bit little-endian count
    followed by the [out]s in order, as long as the bytes written stay
    within the 2^30 that the buffer can grow to.  Keys of the sequence
    table other than 1..n are ignored. *)
Theorem array_framing (field : Field) (xs : list LuaValue)
    (h : gmap string LuaValue) (outs : list (list byte)) (depth : Z)
    (buf : list byte) :
  array_ field = true ->
  match type_ field with
  | Pto => depth + 1 <= MAX_DEPTH
  | BadCode _ => False
  | _ => True
  end ->
  Z.of_nat (length xs) <= 0xffff ->
  Forall2 (fun x out =>
             Encoder.EncodeOne (single field) x depth [] = Ok (tt, out))
    xs outs ->
  Z.of_nat (length buf) + 2 + Z.of_nat (length (concat outs)) <= 2 ^ 30 ->
  Encoder.EncodeOne field (LTable xs h) depth buf =
  Ok (tt, buf ++ le_bytes 2 (Z.of_nat (length xs)) ++ concat outs).
Proof.
  intros Ha Ht Hl Hall _. apply array_framing_walk; try assumption.
  eapply Forall2_impl; [exact Hall|]. intros x out Hx b.
  destruct (appends_EncodeOne (single field) x depth) as [([] & out' & Ho) | (e & He)].
  - pose proof (Ho []) as Hn. cbn [app] in Hn. cbv beta in Hx.
    rewrite Hx in Hn. injection Hn as <-. apply Ho.
  - pose proof (He []) as Hn. cbv beta in Hx. rewrite Hx in Hn. discriminate Hn.
Qed.

(** X4.  Whatever [EncodePto] returns, [DecodePto] accepts: for every
    registry, id and record, the bytes of a successful encoding decode
    under the same id to some record (the one encoded when it lies in
    the wire domain, its narrowing otherwise). *)
Theorem encoder_output_decodes (ctx : Context) (id : Z) (record len : LuaValue)
    (bytes : list byte) :
  Api.EncodePto ctx id record = Return bytes ->
  exists tbl, Api.DecodePto ctx id (LStr bytes) len = Return tbl.
Proof. apply EncodePto_decodes. Qed.
End Framing.

Lemma array_framing_witness :
  Encoder.EncodeOne (H := IEEE754.host) (mkField "xs" true Int [])
    (LTable [LInt 0; LInt 1; LInt (-1); LInt 256] ∅) 1 [] =
  Ok (tt, [] ++ le_bytes 2 4 ++ concat [[x00]; [x03; x01]; [x02; x01]; [x05; x00; x01]]).
Proof.
  apply (array_framing (H := IEEE754.host) (mkField "xs" true Int [])
           [LInt 0; LInt 1; LInt (-1); LInt 256] ∅
           [[x00]; [x03; x01]; [x02; x01]; [x05; x00; x01]] 1 [] eq_refl I).
  - vm_compute. intros E. discriminate E.
  - repeat constructor.
  - vm_compute. intros E. discriminate E.
Defined.

Lemma encoder_output_decodes_witness :
  exists tbl,
    Api.DecodePto (H := IEEE754.host) registry 1
      (LStr [x01; x70; x11; x00; x02; x00; x68; x69]) LNil = Return tbl.
Proof.
  apply (encoder_output_decodes (H := IEEE754.host) registry 1 record_wide LNil).
  vm_compute. reflexivity.
Defined.

(** * What the decoder builds *)

Lemma decode_with_sets (one : @M Decoder.t LuaValue) (field : Field) (tbl tbl' : LuaValue)
    (d d' : Decoder.t) :
  decode_with one field tbl d = Ok (tbl', d') ->
  exists v, tbl' = lua_setfield tbl (name_ field) v.
Proof.
  unfold decode_with. destruct (array_ field).
  - unfold bind. destruct (Read_T 2 d) as [[size d1]|e|]; try discriminate.
    destruct (for_fold _ _ _ _ d1) as [[arr d2]|e|]; try discriminate.
    unfold ret. intros [= <- _]. eauto.
  - unfold bind. destruct (one d) as [[val d1]|e|]; try discriminate.
    unfold ret. intros [= <- _]. eauto.
Qed.

Section Built.
Context `{HostFloat}.

Lemma DecodeOne_sets (field : Field) (tbl tbl' : LuaValue) (depth : Z)
    (d d' : Decoder.t) :
  DecodeOne field tbl depth d = Ok (tbl', d') ->
  exists v, tbl' = lua_setfield tbl (name_ field) v.
Proof.
  destruct field as [name array type childs].
  destruct type; cbn [DecodeOne type_]; try apply decode_with_sets.
  - unfold DecodePto_. cbn [array_ childs_ name_].
    destruct (depth + 1 >? MAX_DEPTH); [discriminate|].
    destruct array; unfold bind.
    + destruct (Read_T 2 d) as [[size d1]|e|]; try discriminate.
      destruct (for_fold _ _ _ _ d1) as [[arr d2]|e|]; try discriminate.
      unfold ret. intros [= <- _]. eauto.
    + destruct (fold_each _ childs lua_createtable d) as [[rec d1]|e|];
        try discriminate.
      unfold ret. intros [= <- _]. eauto.
  - discriminate.
Qed.

Lemma fields_build (depth : Z) (fields : list Field) :
  forall (h : gmap string LuaValue) tbl' d d',
    fold_each (fun field tbl => DecodeOne field tbl depth) fields (LTable [] h) d =
    Ok (tbl', d') ->
    exists h', tbl' = LTable [] h' /\
               dom h' = dom h ∪ list_to_set (map name_ fields).
Proof.
  induction fields as [|f fs IH]; intros h tbl' d d'; cbn [fold_each map].
  - unfold ret. intros [= <- _]. exists h. split; [reflexivity|].
    rewrite list_to_set_nil, union_empty_r_L. reflexivity.
  - unfold bind.
    destruct (DecodeOne f (LTable [] h) depth d) as [[t1 d1]|e|] eqn:E1;
      try discriminate.
    apply DecodeOne_sets in E1 as [v ->]. cbn [lua_setfield]. intros Hrest.
    destruct (IH _ _ _ _ Hrest) as (h' & -> & Hdom).
    exists h'. split; [reflexivity|]. rewrite Hdom, dom_insert_L.
    rewrite list_to_set_cons. apply set_eq. intros k.
    rewrite !elem_of_union. tauto.
Qed.

(** X5.  The record [DecodePto] returns is freshly built from the schema:
    it has no sequence part and its keys are exactly the names of the
    protocol's top-level fields, whatever the bytes were. *)
Theorem decoded_record_keys (ctx : Context) (id : Z) (buf : list byte)
    (len tbl : LuaValue) :
  Api.DecodePto ctx id (LStr buf) len = Return tbl ->
  exists pto h,
    GetPto ctx (to_u16 id) = Some pto /\
    tbl = LTable [] h /\
    dom h = list_to_set (map name_ (fields_ pto)).
Proof.
  intros Hok.
  destruct (DecodePto_success _ _ _ _ _ Hok) as (pto & d' & Hpto & Hfold & _).
  destruct (fields_build 1 (fields_ pto) ∅ tbl _ d' Hfold) as (h & -> & Hdom).
  exists pto, h. split; [exact Hpto|]. split; [reflexivity|].
  rewrite Hdom, dom_empty_L, union_empty_l_L. reflexivity.
Qed.

(** X6.  Decoding a field keeps the decoder well formed: on success the
    buffer is the same, the cursor has not moved back and is still
    inside the buffer; and the same bytes followed by any others decode
    to the same table, with the cursor at the same place. *)
Theorem decode_cursor_invariant (field : Field) (tbl tbl' : LuaValue) (depth : Z)
    (d d' : Decoder.t) (ext : list byte) :
  wf d -> DecodeOne field tbl depth d = Ok (tbl', d') ->
  wf d' /\ ptr_ d' = ptr_ d /\
  offset_ d <= offset_ d' <= Z.of_nat (length (ptr_ d)) /\
  DecodeOne field tbl depth (extend ext d) = Ok (tbl', extend ext d').
Proof.
  intros Hw Hok. pose proof (stable_DecodeOne field tbl depth d ext Hw) as Hst.
  rewrite Hok in Hst. destruct Hst as (Hw' & Hmono & Hptr & Hext).
  split; [exact Hw'|]. split; [exact Hptr|]. split; [|exact Hext].
  destruct Hw' as [Ho Hs]. rewrite <- Hptr, <- Hs. lia.
Qed.
End Built.

Lemma decoded_record_keys_witness :
  exists pto h,
    GetPto registry (to_u16 1) = Some pto /\
    record1 = LTable [] h /\
    dom h = list_to_set (map name_ (fields_ pto)).
Proof.
  apply (decoded_record_keys (H := IEEE754.host) registry 1 bytes1 LNil record1).
  vm_compute. reflexivity.
Defined.

Lemma decode_cursor_invariant_witness :
  DecodeOne (H := IEEE754.host) (mkField "b" false Short []) lua_createtable 1
    (extend [x07] (Decoder.new [xff; xff])) =
  Ok (LTable [] {["b" := LInt (-1)]}, extend [x07] (Decoder.mk [xff; xff] 2 2)).
Proof.
  apply (decode_cursor_invariant (H := IEEE754.host) (mkField "b" false Short [])
           lua_createtable (LTable [] {["b" := LInt (-1)]}) 1
           (Decoder.new [xff; xff]) (Decoder.mk [xff; xff] 2 2) [x07] (wf_new _)).
  vm_compute. reflexivity.
Defined.

(** * The outcomes of decoding *)

Section Outcomes.
Context {St : Type} (E : BadPto -> Prop) (U : Prop).

Lemma outcomes_ret {A} (a : A) : outcomes E U (@ret St A a).
Proof. intros s. exact I. Qed.

Lemma outcomes_throw {A} (e : BadPto) : E e -> outcomes E U (@throw St A e).
Proof. intros He s. exact He. Qed.

Lemma outcomes_undefined {A} : U -> outcomes E U (@undefined St A).
Proof. intros HU s. exact HU. Qed.

Lemma outcomes_bind {A B} (m : @M St A) (k : A -> @M St B) :
  outcomes E U m -> (forall a, outcomes E U (k a)) -> outcomes E U (bind m k).
Proof.
  intros Hm Hk s. unfold bind. specialize (Hm s).
  destruct (m s) as [[a s']|e|]; [apply Hk | exact Hm | exact Hm].
Qed.

Lemma outcomes_fold_each {A B} (body : A -> B -> @M St B) (xs : list A) :
  Forall (fun x => forall acc, outcomes E U (body x acc)) xs ->
  forall acc, outcomes E U (fold_each body xs acc).
Proof.
  induction 1 as [|x xs Hx Hxs IH]; intros acc; cbn [fold_each].
  - apply outcomes_ret.
  - apply outcomes_bind; [apply Hx | intros acc'; apply IH].
Qed.

Lemma outcomes_for_fold {A} (body : Z -> A -> @M St A) :
  (forall i acc, outcomes E U (body i acc)) ->
  forall n i acc, outcomes E U (for_fold body n i acc).
Proof.
  intros Hb. induction n as [|n IH]; intros i acc; cbn [for_fold].
  - apply outcomes_ret.
  - apply outcomes_bind; [apply Hb | intros acc'; apply IH].
Qed.
End Outcomes.

Lemma outcomes_weaken {St A} (E E' : BadPto -> Prop) (U U' : Prop) (m : @M St A) :
  (forall e, E e -> E' e) -> (U -> U') -> outcomes E U m -> outcomes E' U' m.
Proof.
  intros HE HU Hm s. specialize (Hm s).
  destruct (m s) as [[a s']|e|]; [exact I | apply HE, Hm | apply HU, Hm].
Qed.

Lemma decode_error_mono (ns ns' : list string) (e : BadPto) :
  ns ⊆ ns' -> decode_error ns e -> decode_error ns' e.
Proof.
  intros Hs [-> | [-> | (name & n & -> & Hin)]].
  - left. reflexivity.
  - right. left. reflexivity.
  - right. right. exists name, n. split; [reflexivity | apply Hs, Hin].
Qed.

Section Reads.
Context (E : BadPto -> Prop) (U : Prop).

Lemma reads_ret {A} (a : A) : reads E U (ret a).
Proof. intros d Hw. exact Hw. Qed.

Lemma reads_throw {A} (e : BadPto) : E e -> reads E U (@throw _ A e).
Proof. intros He d Hw. exact He. Qed.

Lemma reads_undefined {A} : U -> reads E U (@undefined _ A).
Proof. intros HU d Hw. exact HU. Qed.

Lemma reads_bind_post {A B} (P : A -> Prop) (m : @M Decoder.t A)
    (k : A -> @M Decoder.t B) :
  reads E U m -> (forall d a d', m d = Ok (a, d') -> P a) ->
  (forall a, P a -> reads E U (k a)) -> reads E U (bind m k).
Proof.
  intros Hm HP Hk d Hw. unfold bind. specialize (Hm d Hw).
  destruct (m d) as [[a d']|e|] eqn:Em; [|exact Hm|exact Hm].
  apply (Hk a (HP _ _ _ Em) d' Hm).
Qed.

Lemma reads_bind {A B} (m : @M Decoder.t A) (k : A -> @M Decoder.t B) :
  reads E U m -> (forall a, reads E U (k a)) -> reads E U (bind m k).
Proof.
  intros Hm Hk. apply (reads_bind_post (fun _ => True)); auto.
Qed.

Lemma reads_fold_each {A B} (body : A -> B -> @M Decoder.t B) (xs : list A) :
  Forall (fun x => forall acc, reads E U (body x acc)) xs ->
  forall acc, reads E U (fold_each body xs acc).
Proof.
  induction 1 as [|x xs Hx Hxs IH]; intros acc; cbn [fold_each].
  - apply reads_ret.
  - apply reads_bind; [apply Hx | intros acc'; apply IH].
Qed.

Lemma reads_for_fold {A} (body : Z -> A -> @M Decoder.t A) :
  (forall i acc, reads E U (body i acc)) ->
  forall n i acc, reads E U (for_fold body n i acc).
Proof.
  intros Hb. induction n as [|n IH]; intros i acc; cbn [for_fold].
  - apply reads_ret.
  - apply reads_bind; [apply Hb | intros acc'; apply IH].
Qed.

Hypothesis E_BadDecode : E BadDecode.

Lemma reads_Read_T (w : nat) : reads E U (Read_T w).
Proof.
  intros d Hw. unfold Read_T. pose proof Hw as [Ho Hs].
  destruct (size_ d - offset_ d <? 0) eqn:E0; [lia|].
  destruct (Z.of_nat w >? size_ d - offset_ d) eqn:Ew; [exact E_BadDecode|].
  apply wf_advance; [exact Hw | lia].
Qed.

Lemma reads_Read_raw (n : Z) : 0 <= n -> reads E U (Read_raw n).
Proof.
  intros Hn d Hw. unfold Read_raw.
  destruct (size_ d - offset_ d <? n) eqn:En; [exact E_BadDecode|].
  apply wf_advance; [exact Hw | lia].
Qed.

Lemma reads_Read_str : reads E U Read_str.
Proof.
  unfold Read_str. apply (reads_bind_post (fun size => 0 <= size));
    [apply reads_Read_T | apply Read_T_nonneg |].
  intros size Hsize d Hw.
  destruct (size_ d - offset_ d <? size) eqn:En; [exact E_BadDecode|].
  apply wf_advance; [exact Hw | lia].
Qed.

Lemma reads_Read_int64 : U -> reads E U Read_int64.
Proof.
  intros HU. unfold Read_int64.
  apply (reads_bind_post (fun tag => 0 <= tag));
    [apply reads_Read_T | apply Read_T_nonneg |].
  intros tag Htag. destruct (tag =? 0); [apply reads_ret|].
  apply reads_bind; [apply reads_Read_raw, Z.shiftr_nonneg, Htag|]. intros bytes.
  destruct (Z.shiftr tag 1 >? 8); [apply reads_undefined, HU | apply reads_ret].
Qed.

Lemma reads_decode_with (one : @M Decoder.t LuaValue) (field : Field) (tbl : LuaValue) :
  reads E U one -> reads E U (decode_with one field tbl).
Proof.
  intros Hone. unfold decode_with. destruct (array_ field).
  - apply reads_bind; [apply reads_Read_T|]. intros size.
    apply reads_bind; [|intros arr; apply reads_ret].
    apply reads_for_fold. intros i acc.
    apply reads_bind; [exact Hone | intros val; apply reads_ret].
  - apply reads_bind; [exact Hone | intros val; apply reads_ret].
Qed.
End Reads.

Lemma reads_weaken {A} (E E' : BadPto -> Prop) (U U' : Prop) (m : @M Decoder.t A) :
  (forall e, E e -> E' e) -> (U -> U') -> reads E U m -> reads E' U' m.
Proof.
  intros HE HU Hm d Hw. specialize (Hm d Hw).
  destruct (m d) as [[a d']|e|]; [exact Hm | apply HE, Hm | apply HU, Hm].
Qed.

Section DecodeOutcomesWalk.
Context `{HostFloat}.

Lemma reads_DecodeOne (field : Field) :
  forall tbl depth,
    reads (decode_error (names field))
      (has_int field = true \/ has_bool field = true)
      (DecodeOne field tbl depth).
Proof.
  induction field as [name array type childs IH] using Field_ind_nested.
  intros tbl depth.
  assert (HB : decode_error (names (mkField name array type childs)) BadDecode)
    by (left; reflexivity).
  destruct type; cbn [DecodeOne type_].
  - apply reads_decode_with; [exact HB|]. apply reads_bind;
      [apply reads_Read_T, HB|]. intros val.
    destruct ((val =? 0) || (val =? 1));
      [apply reads_ret | apply reads_undefined; right; reflexivity].
  - apply reads_decode_with; [exact HB|]. apply reads_bind;
      [apply reads_Read_T, HB | intros; apply reads_ret].
  - apply reads_decode_with; [exact HB|]. apply reads_bind;
      [apply reads_Read_int64; [exact HB | left; reflexivity]
      | intros; apply reads_ret].
  - apply reads_decode_with; [exact HB|]. apply reads_bind;
      [apply reads_Read_T, HB | intros; apply reads_ret].
  - apply reads_decode_with; [exact HB|]. apply reads_bind;
      [apply reads_Read_T, HB | intros; apply reads_ret].
  - apply reads_decode_with; [exact HB|]. apply reads_bind;
      [apply reads_Read_str, HB | intros; apply reads_ret].
  - unfold DecodePto_. cbn [array_ childs_ name_].
    destruct (depth + 1 >? MAX_DEPTH);
      [apply reads_throw; right; left; reflexivity|].
    assert (Hkids : forall acc,
      reads (decode_error (names (mkField name array Pto childs)))
        (has_int (mkField name array Pto childs) = true \/
         has_bool (mkField name array Pto childs) = true)
        (fold_each (fun child rec => DecodeOne child rec (depth + 1))
           childs acc)).
    { apply reads_fold_each. rewrite Forall_forall in IH |- *.
      intros c Hc acc. eapply reads_weaken; [| |apply IH, Hc].
      - intros e. apply decode_error_mono. cbn [names childs_].
        intros nm Hnm. apply elem_of_cons. right.
        apply list_elem_of_In, in_flat_map. exists c.
        split; [apply list_elem_of_In, Hc | apply list_elem_of_In, Hnm].
      - cbn [has_int has_bool type_ childs_].
        intros [Hi | Hb]; [left | right]; apply existsb_exists; exists c;
          (split; [apply list_elem_of_In, Hc | assumption]). }
    destruct array.
    + apply reads_bind; [apply reads_Read_T, HB|]. intros size.
      apply reads_bind; [|intros arr; apply reads_ret].
      apply reads_for_fold. intros i acc.
      apply reads_bind; [apply Hkids | intros rec; apply reads_ret].
    + apply reads_bind; [apply Hkids | intros rec; apply reads_ret].
  - apply reads_throw. right. right. exists name, code.
    split; [reflexivity|]. cbn [names name_]. apply elem_of_cons. left. reflexivity.
Qed.

(** X7.  The outcomes of the decoder.  On a decoder over a buffer,
    whatever the bytes, the walk of [DecodePto] over the fields of a
    protocol either succeeds, leaving a decoder over the buffer, or
    raises "invalid message", "pto decode too depth" or [BadType] for a
    field of the protocol whose type code is none of the seven.  It
    runs into undefined behaviour only under a protocol that has an Int
    field (a tag that asks for more than eight magnitude bytes) or a
    Bool field (a byte other than 0 and 1), at top level or nested:
    under any other protocol no byte string makes the decoder read
    outside the buffer. *)
Theorem decode_outcomes (fields : list Field) (tbl : LuaValue) (depth : Z)
    (d : Decoder.t) :
  wf d ->
  match fold_each (fun field tbl => DecodeOne field tbl depth) fields tbl d with
  | Ok (_, d') => wf d'
  | Throw e =>
      e = BadDecode \/ e = TooDepth false \/
      exists name n, e = BadType name n /\ name ∈ flat_map names fields
  | Undefined =>
      existsb has_int fields = true \/ existsb has_bool fields = true
  end.
Proof.
  assert (Ho : reads (decode_error (flat_map names fields))
                 (existsb has_int fields = true \/ existsb has_bool fields = true)
                 (fold_each (fun field tbl => DecodeOne field tbl depth) fields tbl)).
  { apply reads_fold_each, Forall_forall. intros f Hf acc.
    eapply reads_weaken; [| |apply reads_DecodeOne].
    - intros e. apply decode_error_mono. intros nm Hnm.
      apply list_elem_of_In, in_flat_map. exists f.
      split; [apply list_elem_of_In, Hf | apply list_elem_of_In, Hnm].
    - intros [Hi | Hb]; [left | right]; apply existsb_exists; exists f;
        (split; [apply list_elem_of_In, Hf | assumption]). }
  exact (Ho d).
Qed.
End DecodeOutcomesWalk.

Lemma decode_outcomes_witness :
  match fold_each (fun field tbl => DecodeOne (H := IEEE754.host) field tbl 1) P3
          lua_createtable (Decoder.new [x02; x00; xff; xff; x00]) with
  | Ok (_, d') => wf d'
  | Throw e =>
      e = BadDecode \/ e = TooDepth false \/
      exists name n, e = BadType name n /\ name ∈ flat_map names P3
  | Undefined => existsb has_int P3 = true \/ existsb has_bool P3 = true
  end.
Proof.
  apply (decode_outcomes (H := IEEE754.host) P3 lua_createtable 1
           (Decoder.new [x02; x00; xff; xff; x00])).
  apply wf_new.
Defined.

(** * The outcomes of encoding *)

Section OutcomesLoops.
Context {St : Type} (E : BadPto -> Prop) (U : Prop).

Lemma outcomes_mono {A} (E' : BadPto -> Prop) (m : @M St A) :
  (forall e, E' e -> E e) -> outcomes E' U m -> outcomes E U m.
Proof. intros HE. apply outcomes_weaken; [exact HE | exact (fun u => u)]. Qed.

Lemma outcomes_for_each {A} (body : A -> @M St unit) (xs : list A) :
  Forall (fun x => outcomes E U (body x)) xs -> outcomes E U (for_each body xs).
Proof.
  induction 1 as [|x xs Hx Hxs IH]; cbn [for_each].
  - apply outcomes_ret.
  - apply outcomes_bind; [exact Hx | intros _; exact IH].
Qed.

Lemma outcomes_for_range (body : Z -> @M St unit) :
  (forall i, outcomes E U (body i)) ->
  forall n i, outcomes E U (for_range body n i).
Proof.
  intros Hb. induction n as [|n IH]; intros i; cbn [for_range].
  - apply outcomes_ret.
  - apply outcomes_bind; [apply Hb | intros _; apply IH].
Qed.
End OutcomesLoops.

Lemma encode_error_mono (ns ns' : list string) (e : BadPto) :
  ns ⊆ ns' -> encode_error ns e -> encode_error ns' e.
Proof.
  intros Hs [-> | (name & He & Hin)]; [left; reflexivity|].
  right. exists name. split; [exact He | apply Hs, Hin].
Qed.

Section EncodeOutcomes.
Context `{HostFloat}.

Lemma outcomes_Append_raw (E : BadPto -> Prop) (data : list byte) :
  outcomes E False (Encoder.Append_raw data).
Proof. intros buf. exact I. Qed.

Lemma outcomes_Append_int64 (E : BadPto -> Prop) (val : Z) :
  outcomes E False (Encoder.Append_int64 val).
Proof.
  unfold Encoder.Append_int64. destruct (val =? 0); intros buf; exact I.
Qed.

Lemma outcomes_BeginArray (field : Field) (v : LuaValue) (vt : Z) :
  outcomes (encode_error [name_ field]) False (Encoder.BeginArray field v vt).
Proof.
  unfold Encoder.BeginArray. destruct (negb (vt =? LUA_TTABLE)).
  - apply outcomes_throw. right. eexists. split; [reflexivity | apply list_elem_of_singleton; reflexivity].
  - cbv zeta. destruct (lua_rawlen v >? 0xffff).
    + apply outcomes_throw. right. eexists. split; [reflexivity | apply list_elem_of_singleton; reflexivity].
    + intros buf. exact I.
Qed.

Lemma outcomes_encode_with (one : bool -> LuaValue -> @M (list byte) unit)
    (field : Field) (v : LuaValue) :
  (forall array x, outcomes (encode_error [name_ field]) False (one array x)) ->
  outcomes (encode_error [name_ field]) False (Encoder.encode_with one field v).
Proof.
  intros Hone. unfold Encoder.encode_with. cbv zeta. destruct (array_ field).
  - apply outcomes_bind; [apply outcomes_BeginArray|]. intros size.
    apply outcomes_for_range. intros i. apply Hone.
  - apply Hone.
Qed.

Ltac one_outcome :=
  intros ? ?; cbv zeta;
  repeat match goal with
  | |- outcomes _ _ (if ?c then _ else _) => destruct c
  | |- outcomes _ _ (throw _) =>
      apply outcomes_throw; right; eexists; split; [reflexivity | apply list_elem_of_singleton; reflexivity]
  | |- outcomes _ _ (Encoder.Append_int64 _) => apply outcomes_Append_int64
  | |- outcomes _ _ _ => intros buf; exact I
  end.

Lemma outcomes_EncodeOne (field : Field) :
  forall v depth, outcomes (encode_error (names field)) False
                    (Encoder.EncodeOne field v depth).
Proof.
  induction field as [name array type childs IH] using Field_ind_nested.
  intros v depth.
  assert (Hself : forall e, encode_error [name] e ->
                    encode_error (names (mkField name array type childs)) e).
  { intros e. apply encode_error_mono. cbn [names name_]. intros nm Hnm.
    apply list_elem_of_singleton in Hnm as ->. apply elem_of_cons. left. reflexivity. }
  destruct type; cbn [Encoder.EncodeOne type_].
  1-6: apply (outcomes_mono _ _ _ _ Hself);
       apply (outcomes_encode_with _ (mkField name array _ childs));
       cbn [name_].
  - unfold Encoder.EncodeBool_one. one_outcome.
  - unfold Encoder.EncodeShort_one. one_outcome.
  - unfold Encoder.EncodeInt_one. one_outcome.
  - unfold Encoder.EncodeFloat_one. one_outcome.
  - unfold Encoder.EncodeDouble_one. one_outcome.
  - unfold Encoder.EncodeString_one. one_outcome.
  - unfold Encoder.EncodePto_. cbn [array_ childs_ name_]. cbv zeta.
    destruct (depth + 1 >? MAX_DEPTH);
      [apply outcomes_throw; left; reflexivity|].
    destruct (negb (lua_type v =? LUA_TTABLE));
      [apply outcomes_throw, Hself; right; eexists;
       split; [reflexivity | apply list_elem_of_singleton; reflexivity]|].
    assert (Hkids : forall x,
      outcomes (encode_error (names (mkField name array Pto childs))) False
        (for_each (fun child =>
           Encoder.EncodeOne child (lua_getfield x (name_ child)) (depth + 1))
           childs)).
    { intros x. apply outcomes_for_each. rewrite Forall_forall in IH |- *.
      intros c Hc. eapply outcomes_mono; [|apply IH, Hc].
      intros e. apply encode_error_mono. cbn [names childs_].
      intros nm Hnm. apply elem_of_cons. right.
      apply list_elem_of_In, in_flat_map. exists c.
      split; [apply list_elem_of_In, Hc | apply list_elem_of_In, Hnm]. }
    destruct array.
    + apply outcomes_bind.
      * eapply outcomes_mono; [exact Hself|].
        apply (outcomes_BeginArray (mkField name true Pto childs)).
      * intros size. apply outcomes_for_range. intros i.
        destruct (negb (lua_type (lua_rawgeti v (i + 1)) =? LUA_TTABLE));
          [apply outcomes_throw, Hself; right; eexists;
           split; [reflexivity | apply list_elem_of_singleton; reflexivity] | apply Hkids].
    + apply Hkids.
  - apply outcomes_throw. right. eexists. split; [reflexivity|].
    cbn [names name_]. apply elem_of_cons. left. reflexivity.
Qed.

(** X8.  The exceptions of the encoder.  Whatever the record, a table,
    holds, an exception that the walk of [EncodePto] over the fields of
    a protocol raises is "pto encode too depth" or names a field of the
    protocol, at top level or nested: [BadArrayType], [BadArraySize],
    [BadField], [BadInt], [BadString] or [BadType].  The walk never
    raises the decoder's exceptions. *)
Theorem encode_errors_name_fields (fields : list Field) (record : LuaValue)
    (depth : Z) (buf : list byte) (e : BadPto) :
  lua_type record = LUA_TTABLE ->
  for_each (fun field =>
    Encoder.EncodeOne field (lua_getfield record (name_ field)) depth)
    fields buf = Throw e ->
  e = TooDepth true \/
  exists name, error_field e = Some name /\ name ∈ flat_map names fields.
Proof.
  intros _ He.
  assert (Ho : outcomes (encode_error (flat_map names fields)) False
                 (for_each (fun field =>
                    Encoder.EncodeOne field (lua_getfield record (name_ field)) depth)
                    fields)).
  { apply outcomes_for_each, Forall_forall. intros f Hf.
    eapply outcomes_mono; [|apply outcomes_EncodeOne].
    intros e0. apply encode_error_mono. intros nm Hnm.
    apply list_elem_of_In, in_flat_map. exists f.
    split; [apply list_elem_of_In, Hf | apply list_elem_of_In, Hnm]. }
  specialize (Ho buf). rewrite He in Ho. exact Ho.
Qed.
End EncodeOutcomes.

Lemma encode_errors_name_fields_witness :
  BadField false "b" "short" "nil" = TooDepth true \/
  exists name, error_field (BadField false "b" "short" "nil") = Some name /\
               name ∈ flat_map names P1.
Proof.
  apply (encode_errors_name_fields (H := IEEE754.host) P1
           (LTable [] {["a" := LBool true]}) 1 []).
  - reflexivity.
  - vm_compute. reflexivity.
Defined.

(** * Values outside the wire domain *)

Lemma to_i16_congr (n : Z) : (to_i16 n - n) mod 2 ^ 16 = 0.
Proof.
  unfold to_i16. change (2 ^ 15) with 32768. change (2 ^ 16) with 65536.
  Z.div_mod_to_equations. lia.
Qed.

Section ValueLaws.
Context `{HostFloat}.

(** X9.  A Short keeps 16 bits.  An integer [n] in a Short field is
    written as the two bytes of [(short)n] and comes back as the integer
    of [-32768, 32767] that is congruent to [n] modulo 2^16; no integer
    is refused. *)
Theorem short_wraps (name : string) (n depth : Z) (buf : list byte)
    (tbl : LuaValue) (d : Decoder.t) (post : list byte) :
  wf d -> rest d = le_bytes 2 (to_i16 n) ++ post ->
  Encoder.EncodeOne (mkField name false Short []) (LInt n) depth buf =
    Ok (tt, buf ++ le_bytes 2 (to_i16 n)) /\
  DecodeOne (mkField name false Short []) tbl depth d =
    Ok (lua_setfield tbl name (LInt (to_i16 n)), advance 2 d) /\
  - 2 ^ 15 <= to_i16 n < 2 ^ 15 /\ (to_i16 n - n) mod 2 ^ 16 = 0.
Proof.
  intros Hw Hr. split; [reflexivity|]. split.
  - cbn [DecodeOne type_]. unfold DecodeShort, decode_with. cbn [array_ name_].
    unfold DecodeShort_one, bind.
    rewrite (Read_T_le_bytes 2 _ d post Hw Hr). unfold ret.
    change (8 * Z.of_nat 2) with 16.
    rewrite to_i16_u16 by apply to_i16_range. reflexivity.
  - split; [apply to_i16_range | apply to_i16_congr].
Qed.

(** X10.  The decoder accepts padded integers.  In an Int field, a tag
    with any length [l] of 1 to 7 followed by the [l] little-endian bytes
    of a magnitude is read as that integer, whether or not [l] is the
    least length for it: an integer has several encodings, of which the
    encoder writes the shortest. *)
Theorem varint_padding_accepted (name : string) (x depth : Z) (l : nat)
    (tbl : LuaValue) (d : Decoder.t) (post : list byte) :
  wf d -> (1 <= l <= 7)%nat -> Z.abs x < 2 ^ (8 * Z.of_nat l) ->
  rest d = byte_of_Z (Z.lor (Z.shiftl (Z.of_nat l) 1) (if 0 <? x then 1 else 0))
             :: le_bytes l (Z.abs x) ++ post ->
  DecodeOne (mkField name false Int []) tbl depth d =
    Ok (lua_setfield tbl name (LInt x), advance (1 + Z.of_nat l) d).
Proof.
  intros Hw Hl Hx Hr. cbn [DecodeOne type_]. unfold DecodeInt, decode_with.
  cbn [array_ name_]. unfold DecodeInt_one, bind.
  rewrite (Read_int64_shape d l (if 0 <? x then 1 else 0) (Z.abs x) post Hw Hl).
  - unfold ret. destruct (0 <? x) eqn:E.
    + change (1 =? 1) with true. cbv iota.
      replace (Z.abs x) with x by lia. reflexivity.
    + change (0 =? 1) with false. cbv iota.
      replace (- Z.abs x) with x by lia. reflexivity.
  - destruct (0 <? x); auto.
  - lia.
  - exact Hr.
Qed.

(** X11.  A number with no integer value counts as 0.  In an Int or
    Short field, a float that [lua_tointeger] does not convert (a
    fraction, an infinity, a NaN) is written as the integer 0, with no
    error. *)
Theorem unconvertible_number_encodes_as_zero (name : string) (bits depth : Z)
    (buf : list byte) :
  double_to_int bits = None ->
  Encoder.EncodeOne (mkField name false Int []) (LFloat bits) depth buf =
    Ok (tt, buf ++ [x00]) /\
  Encoder.EncodeOne (mkField name false Short []) (LFloat bits) depth buf =
    Ok (tt, buf ++ [x00; x00]).
Proof.
  intros Hc. cbn [Encoder.EncodeOne type_].
  unfold Encoder.EncodeInt, Encoder.EncodeShort, Encoder.encode_with.
  cbn [array_]. unfold Encoder.EncodeInt_one, Encoder.EncodeShort_one.
  cbn [lua_type lua_tointeger]. rewrite Hc. split; reflexivity.
Qed.

(** X12.  A value of the wrong kind.  A single-valued field given a
    value whose kind is not the one its type asks for (boolean, number,
    string or table) raises [BadField] naming the field, the expected type
    and the kind met; an array field given anything but a table raises
    [BadArrayType] when its members are primitive and [BadField] expecting
    a table when they are Messages.  Nothing is written. *)
Theorem kind_mismatch (field : Field) (v : LuaValue) (depth : Z) (buf : list byte) :
  (forall n, type_ field <> BadCode n) ->
  (type_ field = Pto -> depth + 1 <= MAX_DEPTH) ->
  lua_type v <> (if array_ field then LUA_TTABLE else expected_type (type_ field)) ->
  Encoder.EncodeOne field v depth buf =
  Throw (if array_ field && primitive (type_ field)
         then BadArrayType (name_ field) (lua_typename (lua_type v))
         else BadField false (name_ field) (kind_name (type_ field))
                (lua_typename (lua_type v))).
Proof.
  destruct field as [name array type childs]. cbn [type_ array_ name_].
  intros Hcode Hdepth Hkind.
  assert (Hneq : forall t, lua_type v <> t -> negb (lua_type v =? t) = true).
  { intros t Ht. apply negb_true_iff, Z.eqb_neq, Ht. }
  destruct type; cbn [Encoder.EncodeOne type_ primitive kind_name expected_type] in *;
    try (exfalso; eapply Hcode; reflexivity);
    try (unfold Encoder.EncodeBool, Encoder.EncodeShort, Encoder.EncodeInt,
           Encoder.EncodeFloat, Encoder.EncodeDouble, Encoder.EncodeString,
           Encoder.encode_with; cbn [array_ name_]; cbv zeta;
         destruct array; cbn [andb];
         [ unfold bind, Encoder.BeginArray; cbn [name_]; rewrite (Hneq _ Hkind);
           reflexivity
         | unfold Encoder.EncodeBool_one, Encoder.EncodeShort_one,
             Encoder.EncodeInt_one, Encoder.EncodeFloat_one,
             Encoder.EncodeDouble_one, Encoder.EncodeString_one;
           cbn [name_]; cbv zeta; rewrite (Hneq _ Hkind); reflexivity ]).
  unfold Encoder.EncodePto_. cbn [array_ name_]. cbv zeta.
  destruct (depth + 1 >? MAX_DEPTH) eqn:E; [specialize (Hdepth eq_refl); lia|].
  rewrite andb_false_r.
  assert (Ht : lua_type v <> LUA_TTABLE) by (destruct array; exact Hkind).
  rewrite (Hneq _ Ht). reflexivity.
Qed.

(** X13.  An array of more than 0xffff members.  An array field given a
    table whose sequence is longer than 0xffff raises [BadArraySize]
    before any member is looked at, whatever the members are. *)
Theorem array_too_long (field : Field) (v : LuaValue) (depth : Z) (buf : list byte) :
  array_ field = true ->
  (forall n, type_ field <> BadCode n) ->
  (type_ field = Pto -> depth + 1 <= MAX_DEPTH) ->
  lua_type v = LUA_TTABLE -> lua_rawlen v > 0xffff ->
  Encoder.EncodeOne field v depth buf = Throw (BadArraySize (name_ field)).
Proof.
  destruct field as [name array type childs]. cbn [type_ array_ name_].
  intros -> Hcode Hdepth Hkind Hlen.
  assert (Hgt : (lua_rawlen v >? 0xffff) = true) by lia.
  destruct type; cbn [Encoder.EncodeOne type_] in *;
    try (exfalso; eapply Hcode; reflexivity);
    try (unfold Encoder.EncodeBool, Encoder.EncodeShort, Encoder.EncodeInt,
           Encoder.EncodeFloat, Encoder.EncodeDouble, Encoder.EncodeString,
           Encoder.encode_with; cbn [array_ name_]; cbv zeta;
         unfold bind, Encoder.BeginArray; cbn [name_]; rewrite Hkind;
         change (negb (LUA_TTABLE =? LUA_TTABLE)) with false; cbv iota zeta;
         rewrite Hgt; reflexivity).
  unfold Encoder.EncodePto_. cbn [array_ name_]. cbv zeta.
  destruct (depth + 1 >? MAX_DEPTH) eqn:E; [specialize (Hdepth eq_refl); lia|].
  rewrite Hkind. change (negb (LUA_TTABLE =? LUA_TTABLE)) with false. cbv iota.
  unfold bind, Encoder.BeginArray. cbn [name_].
  change (negb (LUA_TTABLE =? LUA_TTABLE)) with false. cbv iota zeta.
  rewrite Hgt. reflexivity.
Qed.
End ValueLaws.

Lemma short_wraps_witness :
  Encoder.EncodeOne (H := IEEE754.host) (mkField "b" false Short []) (LInt 70000) 1 [] =
    Ok (tt, [x70; x11]) /\
  DecodeOne (H := IEEE754.host) (mkField "b" false Short []) lua_createtable 1
    (Decoder.new [x70; x11]) =
    Ok (LTable [] {["b" := LInt 4464]}, Decoder.mk [x70; x11] 2 2).
Proof.
  pose proof (short_wraps (H := IEEE754.host) "b" 70000 1 [] lua_createtable
                (Decoder.new [x70; x11]) []
                (wf_new _) eq_refl) as (He & Hd & _).
  split; [exact He | exact Hd].
Defined.

Lemma varint_padding_accepted_witness :
  DecodeOne (H := IEEE754.host) (mkField "c" false Int []) lua_createtable 1
    (Decoder.new [x07; x01; x00; x00]) =
  Ok (LTable [] {["c" := LInt 1]}, Decoder.mk [x07; x01; x00; x00] 4 4).
Proof.
  apply (varint_padding_accepted (H := IEEE754.host) "c" 1 1 3 lua_createtable
           (Decoder.new [x07; x01; x00; x00]) []).
  - apply wf_new.
  - lia.
  - vm_compute. reflexivity.
  - reflexivity.
Defined.

Lemma unconvertible_number_encodes_as_zero_witness :
  Encoder.EncodeOne (H := IEEE754.host) (mkField "c" false Int [])
    (LFloat 0x3FF8000000000000) 1 [] = Ok (tt, [x00]) /\
  Encoder.EncodeOne (H := IEEE754.host) (mkField "b" false Short [])
    (LFloat 0x3FF8000000000000) 1 [] = Ok (tt, [x00; x00]).
Proof.
  apply (unconvertible_number_encodes_as_zero (H := IEEE754.host) "c").
  vm_compute. reflexivity.
Defined.

Lemma kind_mismatch_witness :
  Encoder.EncodeOne (H := IEEE754.host) (mkField "d" false String []) (LInt 7) 1 [] =
    Throw (BadField false "d" "string" "number") /\
  Encoder.EncodeOne (H := IEEE754.host) (mkField "xs" true Int []) (LStr []) 1 [] =
    Throw (BadArrayType "xs" "string").
Proof.
  split.
  - apply (kind_mismatch (H := IEEE754.host) (mkField "d" false String []) (LInt 7) 1 []).
    + intros n. discriminate.
    + discriminate.
    + vm_compute. discriminate.
  - apply (kind_mismatch (H := IEEE754.host) (mkField "xs" true Int []) (LStr []) 1 []).
    + intros n. discriminate.
    + discriminate.
    + vm_compute. discriminate.
Defined.

Lemma array_too_long_witness :
  Encoder.EncodeOne (H := IEEE754.host) (mkField "xs" true Int [])
    (LTable (replicate (Z.to_nat 65536) LNil) ∅) 1 [] = Throw (BadArraySize "xs").
Proof.
  apply (array_too_long (H := IEEE754.host) (mkField "xs" true Int [])
           (LTable (replicate (Z.to_nat 65536) LNil) ∅) 1 []).
  - reflexivity.
  - intros n. discriminate.
  - discriminate.
  - reflexivity.
  - vm_compute. reflexivity.
Defined.

(** * The registry *)

Lemma to_u16_range (id : Z) : 0 <= to_u16 id < 2 ^ 16.
Proof. unfold to_u16. apply Z.mod_pos_bound. reflexivity. Qed.

Lemma to_u16_add (id k : Z) : to_u16 (id + 65536 * k) = to_u16 id.
Proof.
  unfold to_u16. change (2 ^ 16) with 65536.
  rewrite (Z.mul_comm 65536), Z.mod_add by lia. reflexivity.
Qed.

Lemma GetPto_new (id : Z) : GetPto Context_new id = None.
Proof.
  unfold GetPto, Context_new. cbn [ptos_]. destruct (id >=? 0xffff); [reflexivity|].
  destruct (replicate (Z.to_nat 0xffff) None !! Z.to_nat id) as [x|] eqn:E;
    [|reflexivity].
  apply lookup_replicate in E as [-> _]. reflexivity.
Qed.

Lemma registry_wf_new : registry_wf Context_new.
Proof. unfold registry_wf, Context_new. cbn [ptos_]. apply length_replicate. Qed.

Lemma registry_wf_import (ctx : Context) (id : Z) (name : string) (fields : list Field) :
  registry_wf ctx ->
  registry_wf match Api.ImportPto ctx id name fields with
              | Return ctx' => ctx'
              | _ => ctx
              end.
Proof.
  intros Hwf. unfold Api.ImportPto, AddPto. cbv zeta.
  destruct (to_u16 id >? 0xffff); [exact Hwf|].
  destruct (Z.of_nat (length (ptos_ ctx)) <=? to_u16 id); [exact Hwf|].
  unfold registry_wf. cbn [ptos_]. rewrite length_insert. exact Hwf.
Qed.

Lemma registry_wf_registry : registry_wf registry.
Proof. unfold registry. repeat apply registry_wf_import. apply registry_wf_new. Qed.

(** X14.  Import registers, lookups find.  On a registry of 0xffff slots
    an import under an id other than 0xFFFF returns; afterwards the
    registry still has 0xffff slots, the id holds the imported protocol,
    replacing what it held, and every other id holds what it held. *)
Theorem import_then_lookup (ctx : Context) (id : Z) (name : string)
    (fields : list Field) :
  registry_wf ctx -> to_u16 id <> 0xffff ->
  exists ctx',
    Api.ImportPto ctx id name fields = Return ctx' /\
    registry_wf ctx' /\
    GetPto ctx' (to_u16 id) = Some (mkProtocol name fields) /\
    forall id', to_u16 id' <> to_u16 id ->
      GetPto ctx' (to_u16 id') = GetPto ctx (to_u16 id').
Proof.
  unfold registry_wf. intros Hwf Hid. pose proof (to_u16_range id) as Hr.
  change (2 ^ 16) with 65536 in Hr.
  unfold Api.ImportPto, AddPto. cbv zeta. rewrite Hwf.
  change (Z.of_nat (Z.to_nat 0xffff)) with 65535.
  destruct (to_u16 id >? 0xffff) eqn:E; [lia|].
  destruct (65535 <=? to_u16 id) eqn:E'; [lia|].
  eexists. split; [reflexivity|]. cbn [ptos_]. split; [|split].
  - rewrite length_insert. exact Hwf.
  - unfold GetPto. cbn [ptos_].
    destruct (to_u16 id >=? 0xffff) eqn:E''; [lia|].
    rewrite list_lookup_insert_eq; [reflexivity|]. rewrite Hwf. lia.
  - intros id' Hne. pose proof (to_u16_range id') as Hr'.
    unfold GetPto. cbn [ptos_]. destruct (to_u16 id' >=? 0xffff); [reflexivity|].
    rewrite list_lookup_insert_ne; [reflexivity|]. lia.
Qed.

Lemma import_then_lookup_witness :
  exists ctx',
    Api.ImportPto registry 1 "Q" P2 = Return ctx' /\
    GetPto registry (to_u16 1) = Some (mkProtocol "P1" P1) /\
    GetPto ctx' (to_u16 1) = Some (mkProtocol "Q" P2) /\
    GetPto ctx' (to_u16 2) = Some (mkProtocol "P2" P2).
Proof.
  pose proof registry_wf_registry as Hwf.
  assert (Hid : to_u16 1 <> 0xffff) by (vm_compute; discriminate).
  destruct (import_then_lookup registry 1 "Q" P2 Hwf Hid)
    as (ctx' & Himp & _ & Hget & Hother).
  exists ctx'. split; [exact Himp|]. split; [exact registry_P1|].
  split; [exact Hget|]. rewrite Hother; [exact registry_P2|].
  vm_compute. discriminate.
Defined.

Section Ids.
Context `{HostFloat}.

(** X15.  Ids are taken modulo 2^16.  The three entry points cast the
    integer they are given to [uint16_t]: an id and the same id plus a
    multiple of 65536 name the same slot, in [ImportPto], [EncodePto]
    and [DecodePto] alike. *)
Theorem ids_modulo_65536 (ctx : Context) (id k : Z) (name : string)
    (fields : list Field) (record input len : LuaValue) :
  Api.ImportPto ctx (id + 65536 * k) name fields = Api.ImportPto ctx id name fields /\
  Api.EncodePto ctx (id + 65536 * k) record = Api.EncodePto ctx id record /\
  Api.DecodePto ctx (id + 65536 * k) input len = Api.DecodePto ctx id input len.
Proof.
  unfold Api.ImportPto, Api.EncodePto, Api.DecodePto. cbv zeta.
  rewrite !to_u16_add. repeat split; reflexivity.
Qed.

(** X16.  A fresh registry holds no protocol.  On the registry that
    [Context()] builds, [EncodePto] and [DecodePto] fail with "no such
    pto:<id>" for every id, where <id> is the id modulo 2^16. *)
Theorem fresh_registry_empty (id : Z) (record input len : LuaValue) :
  Api.EncodePto Context_new id record =
    luaL_error ("no such pto:" +:+ pretty (to_u16 id)) /\
  Api.DecodePto Context_new id input len =
    luaL_error ("no such pto:" +:+ pretty (to_u16 id)).
Proof.
  unfold Api.EncodePto, Api.DecodePto. cbv zeta. rewrite GetPto_new.
  split; reflexivity.
Qed.
End Ids.

(** * Children by index *)

(** X17.  [Field::GetField] is off by one.  For an index below the number
    of children it returns that child, so the loops of [EncodePto] and
    [DecodePto], which stop below it, visit the children in order; for an
    index above it returns NULL; for the index equal to the number of
    children the test [index > childs_.size()] lets it through and it
    reads one past the end of the vector. *)
Theorem GetField_off_by_one (field : Field) (index : Z) :
  0 <= index < 2 ^ 32 ->
  (index < Z.of_nat (length (childs_ field)) ->
     exists child, childs_ field !! Z.to_nat index = Some child /\
                   Field_GetField field index = Ok (Some child)) /\
  (index = Z.of_nat (length (childs_ field)) -> Field_GetField field index = Undefined) /\
  (index > Z.of_nat (length (childs_ field)) -> Field_GetField field index = Ok None).
Proof.
  intros Hi. unfold Field_GetField. cbv zeta.
  assert (Hu : to_u32 index = index) by (unfold to_u32; apply Z.mod_small; lia).
  rewrite Hu. split; [|split].
  - intros Hlt. destruct (index >? Z.of_nat (length (childs_ field))) eqn:E; [lia|].
    destruct (childs_ field !! Z.to_nat index) as [child|] eqn:El.
    + exists child. split; reflexivity.
    + apply lookup_ge_None in El. lia.
  - intros ->. rewrite Z.gtb_ltb, Z.ltb_irrefl, Nat2Z.id.
    rewrite (proj2 (lookup_ge_None _ _)); [reflexivity | lia].
  - intros Hgt. destruct (index >? Z.of_nat (length (childs_ field))) eqn:E; [reflexivity | lia].
Qed.

Lemma GetField_off_by_one_witness :
  Field_GetField (mkField "inner" true Pto [mkField "x" false Short []]) 0 =
    Ok (Some (mkField "x" false Short [])) /\
  Field_GetField (mkField "inner" true Pto [mkField "x" false Short []]) 1 = Undefined /\
  Field_GetField (mkField "inner" true Pto [mkField "x" false Short []]) 2 = Ok None.
Proof.
  split; [|split].
  - destruct (proj1 (GetField_off_by_one
                       (mkField "inner" true Pto [mkField "x" false Short []]) 0
                       ltac:(lia)) ltac:(simpl; lia)) as (child & Hc & Hg).
    injection Hc as <-. exact Hg.
  - apply (GetField_off_by_one (mkField "inner" true Pto [mkField "x" false Short []]) 1);
      [lia | reflexivity].
  - apply (GetField_off_by_one (mkField "inner" true Pto [mkField "x" false Short []]) 2);
      [lia | simpl; lia].
Defined.

(** * The buffer of the encoder *)

Lemma pow2_le (j k : Z) : 0 <= j <= k -> 2 ^ j <= 2 ^ k.
Proof. intros Hjk. apply Z.pow_le_mono_r; lia. Qed.

Lemma pow2_double (j : Z) : 0 <= j -> 2 ^ j * 2 = 2 ^ (j + 1).
Proof. intros Hj. rewrite Z.pow_add_r by lia. reflexivity. Qed.

Lemma in_int_pow2 (j : Z) : 0 <= j <= 30 -> in_int (2 ^ j) = true.
Proof.
  intros Hj. pose proof (pow2_le j 30 Hj) as Hle.
  pose proof (Z.pow_pos_nonneg 2 j ltac:(lia) ltac:(lia)) as Hpos.
  unfold in_int, INT_MIN, INT_MAX. change (2 ^ 31) with 2147483648.
  change (2 ^ 30) with 1073741824 in Hle. lia.
Qed.

Lemma grow_ok (fuel : nat) :
  forall j need,
    7 <= j <= 30 -> 2 ^ j < 2 * need -> need <= 2 ^ 30 -> 31 <= Z.of_nat fuel + j ->
    exists j', j <= j' <= 30 /\ Buffer.grow fuel (2 ^ j) need = Some (Ok (2 ^ j')) /\
               need <= 2 ^ j' < 2 * need.
Proof.
  induction fuel as [|fuel IH]; intros j need Hj Hhalf Hneed Hfuel.
  - lia.
  - cbn [Buffer.grow]. destruct (2 ^ j <? need) eqn:E.
    + apply Z.ltb_lt in E.
      assert (Hj30 : j < 30).
      { destruct (Z.lt_ge_cases j 30) as [Hlt|Hge]; [exact Hlt|].
        pose proof (pow2_le 30 j ltac:(lia)). lia. }
      rewrite pow2_double by lia. rewrite in_int_pow2 by lia. cbn [negb].
      destruct (IH (j + 1) need) as (j' & Hj' & Hg & Hb); try lia.
      { rewrite <- pow2_double by lia. lia. }
      exists j'. split; [lia|]. split; [exact Hg | exact Hb].
    + apply Z.ltb_ge in E. exists j. split; [lia|]. split; [reflexivity | lia].
Qed.

Lemma grow_overflow (fuel : nat) :
  forall j need,
    7 <= j <= 31 -> 2 ^ 30 < need -> 32 <= Z.of_nat fuel + j ->
    in_int (2 ^ j) = true ->
    Buffer.grow fuel (2 ^ j) need = Some Undefined.
Proof.
  induction fuel as [|fuel IH]; intros j need Hj Hneed Hfuel Hin.
  - lia.
  - assert (Hj30 : j <= 30).
    { destruct (Z.le_gt_cases j 30) as [Hle|Hgt]; [exact Hle|].
      assert (j = 31) as -> by lia. discriminate Hin. }
    cbn [Buffer.grow]. pose proof (pow2_le j 30 ltac:(lia)) as Hle.
    destruct (2 ^ j <? need) eqn:E; [|lia].
    rewrite pow2_double by lia.
    destruct (in_int (2 ^ (j + 1))) eqn:Ein; [|reflexivity]. cbn [negb].
    apply IH; [lia | exact Hneed | lia | exact Ein].
Qed.

Section BufferProofs.
Variable malloc : Z -> option (list byte).

Lemma Reserve_room (fuel : nat) (sz : Z) (e : Buffer.t) :
  buffer_wf e -> malloc_succeeds malloc -> (31 <= fuel)%nat ->
  0 <= sz -> Buffer.offset_ e + sz <= 2 ^ 30 ->
  exists e',
    Buffer.Reserve malloc fuel sz e = Some (Ok e') /\
    buffer_wf e' /\
    Buffer.offset_ e' = Buffer.offset_ e /\ written e' = written e /\
    Buffer.offset_ e + sz <= Buffer.size_ e' /\
    (Buffer.size_ e' = Buffer.size_ e \/
     Buffer.size_ e < Buffer.offset_ e + sz /\
     Buffer.size_ e' < 2 * (Buffer.offset_ e + sz)).
Proof.
  intros (Ho & Hl & j & Hj & Hs) Hm Hfuel Hsz Hneed.
  unfold Buffer.Reserve.
  assert (Hin : in_int (Buffer.offset_ e + sz) = true).
  { unfold in_int, INT_MIN, INT_MAX. change (2 ^ 31) with 2147483648.
    change (2 ^ 30) with 1073741824 in Hneed. lia. }
  rewrite Hin. cbn [negb].
  destruct (Buffer.offset_ e + sz <=? Buffer.size_ e) eqn:E.
  - exists e. split; [reflexivity|]. split; [exact (conj Ho (conj Hl (ex_intro _ j (conj Hj Hs))))|].
    split; [reflexivity|]. split; [reflexivity|]. split; [lia | left; reflexivity].
  - apply Z.leb_gt in E. rewrite Hs in *.
    assert (Hj30 : j < 30).
    { destruct (Z.lt_ge_cases j 30) as [Hlt|Hge]; [exact Hlt|].
      pose proof (pow2_le 30 j ltac:(lia)). lia. }
    rewrite pow2_double by lia. rewrite in_int_pow2 by lia. cbn [negb].
    destruct (grow_ok fuel (j + 1) (Buffer.offset_ e + sz)) as (j' & Hj' & Hg & Hb);
      try lia.
    { rewrite <- pow2_double by lia. lia. }
    rewrite Hg.
    pose proof (Z.pow_pos_nonneg 2 j' ltac:(lia) ltac:(lia)) as Hpos.
    destruct (Hm (2 ^ j') Hpos) as (block & -> & Hblock).
    pose proof (pow2_le j j' ltac:(lia)) as Hjj'.
    pose proof (Z.pow_pos_nonneg 2 j ltac:(lia) ltac:(lia)) as Hposj.
    eexists. split; [reflexivity|]. cbn [Buffer.offset_ Buffer.size_ Buffer.ptr_].
    split; [|split; [reflexivity|split; [|split; [lia | right; lia]]]].
    + unfold buffer_wf. cbn [Buffer.offset_ Buffer.size_ Buffer.ptr_].
      split; [lia|]. split.
      * rewrite length_app, length_take, length_drop. lia.
      * exists j'. split; [lia | reflexivity].
    + unfold written. cbn [Buffer.offset_ Buffer.ptr_].
      rewrite take_app_le by (rewrite length_take; lia).
      rewrite take_take. f_equal. lia.
Qed.

(** X18.  [Reserve] makes room.  On a buffer as the encoder keeps it, a
    request that brings the written bytes to at most 2^30 returns, as long
    as [malloc] does: the buffer is again as the encoder keeps it, the
    write position and the bytes written are unchanged, the request fits,
    and the size is either unchanged or the least doubling of the old
    size that fits the request.  The loop of [Reserve] needs at most 31
    iterations. *)
Theorem Reserve_makes_room (fuel : nat) (sz : Z) (e : Buffer.t) :
  buffer_wf e -> malloc_succeeds malloc -> (31 <= fuel)%nat ->
  0 <= sz -> Buffer.offset_ e + sz <= 2 ^ 30 ->
  exists e',
    Buffer.Reserve malloc fuel sz e = Some (Ok e') /\
    buffer_wf e' /\
    Buffer.offset_ e' = Buffer.offset_ e /\ written e' = written e /\
    Buffer.offset_ e + sz <= Buffer.size_ e' /\
    (Buffer.size_ e' = Buffer.size_ e \/
     Buffer.size_ e < Buffer.offset_ e + sz /\
     Buffer.size_ e' < 2 * (Buffer.offset_ e + sz)).
Proof. apply Reserve_room. Qed.

(** X19.  [Reserve] cannot pass 2^30 bytes.  On a buffer as the encoder
    keeps it, a request that would bring the written bytes beyond 2^30
    ends in undefined behaviour: either [offset_ + sz] or the doubling
    [nsize * 2] overflows [int]. *)
Theorem Reserve_overflows (fuel : nat) (sz : Z) (e : Buffer.t) :
  buffer_wf e -> (31 <= fuel)%nat ->
  2 ^ 30 < Buffer.offset_ e + sz ->
  Buffer.Reserve malloc fuel sz e = Some Undefined.
Proof.
  intros (Ho & Hl & j & Hj & Hs) Hfuel Hneed.
  unfold Buffer.Reserve.
  destruct (in_int (Buffer.offset_ e + sz)) eqn:Hin; [|reflexivity]. cbn [negb].
  pose proof (pow2_le j 30 ltac:(lia)) as Hle.
  destruct (Buffer.offset_ e + sz <=? Buffer.size_ e) eqn:E; [lia|].
  rewrite Hs. rewrite pow2_double by lia.
  destruct (in_int (2 ^ (j + 1))) eqn:Ein; [|reflexivity]. cbn [negb].
  rewrite (grow_overflow fuel (j + 1) (Buffer.offset_ e + sz));
    [reflexivity | lia | exact Hneed | lia | exact Ein].
Qed.

(** X20.  [Append] on the buffer is [Append] on the written bytes.  On a
    buffer as the encoder keeps it, appending data that brings the written
    bytes to at most 2^30 returns, as long as [malloc] does, a buffer as
    the encoder keeps it whose written bytes are the old ones followed by
    the data: what [Encoder.Append_raw] computes on the written bytes. *)
Theorem Append_refines (fuel : nat) (data : list byte) (e : Buffer.t) :
  buffer_wf e -> malloc_succeeds malloc -> (31 <= fuel)%nat ->
  Buffer.offset_ e + Z.of_nat (length data) <= 2 ^ 30 ->
  exists e',
    Buffer.Append malloc fuel data e = Some (Ok e') /\
    buffer_wf e' /\
    Encoder.Append_raw data (written e) = Ok (tt, written e').
Proof.
  intros Hwf Hm Hfuel Hneed.
  destruct (Reserve_room fuel (Z.of_nat (length data)) e Hwf Hm Hfuel
              ltac:(lia) Hneed)
    as (e1 & HR & (Ho1 & Hl1 & j1 & Hj1 & Hs1) & Hoff & Hwr & Hfit & _).
  destruct Hwf as (Ho & _).
  unfold Buffer.Append. cbv zeta. rewrite HR.
  assert (Hin : in_int (Buffer.offset_ e1 + Z.of_nat (length data)) = true).
  { unfold in_int, INT_MIN, INT_MAX. change (2 ^ 31) with 2147483648.
    change (2 ^ 30) with 1073741824 in Hneed. lia. }
  rewrite Hin. cbn [negb]. eexists. split; [reflexivity|].
  split.
  - unfold buffer_wf. cbn [Buffer.offset_ Buffer.size_ Buffer.ptr_].
    split; [lia|]. split; [|exists j1; split; [exact Hj1 | exact Hs1]].
    rewrite !length_app, length_take, length_drop. lia.
  - unfold Encoder.Append_raw. rewrite <- Hwr. unfold written.
    cbn [Buffer.offset_ Buffer.ptr_]. do 2 f_equal. symmetry.
    rewrite app_assoc. rewrite take_app_le.
    + rewrite take_ge; [reflexivity|].
      rewrite length_app, length_take. lia.
    + rewrite length_app, length_take. lia.
Qed.
End BufferProofs.

Lemma malloc_zeroes_succeeds : malloc_succeeds malloc_zeroes.
Proof.
  intros n Hn. eexists. split; [reflexivity|]. rewrite length_replicate. lia.
Qed.

Lemma buffer_wf_new (init_ : list byte) :
  Z.of_nat (length init_) = BUFFER_SIZE -> buffer_wf (Buffer.new init_).
Proof.
  intros Hl. unfold buffer_wf, Buffer.new. cbn [Buffer.offset_ Buffer.size_ Buffer.ptr_].
  unfold BUFFER_SIZE in *. split; [lia|]. split; [exact Hl|].
  exists 7. split; [lia | reflexivity].
Qed.

Lemma Reserve_makes_room_witness :
  exists e',
    Buffer.Reserve malloc_zeroes 31 200 (Buffer.new (replicate 128 x00)) = Some (Ok e') /\
    buffer_wf e' /\ 200 <= Buffer.size_ e' < 400.
Proof.
  destruct (Reserve_makes_room malloc_zeroes 31 200 (Buffer.new (replicate 128 x00)))
    as (e' & HR & Hwf & _ & _ & Hfit & Hmin).
  - apply buffer_wf_new. reflexivity.
  - apply malloc_zeroes_succeeds.
  - lia.
  - lia.
  - vm_compute. discriminate.
  - exists e'. split; [exact HR|]. split; [exact Hwf|].
    cbn [Buffer.new Buffer.offset_ Buffer.size_] in Hfit, Hmin.
    unfold BUFFER_SIZE in Hmin. lia.
Defined.

Lemma Reserve_overflows_witness :
  Buffer.Reserve malloc_zeroes 31 (2 ^ 30 + 1) (Buffer.new (replicate 128 x00)) =
  Some Undefined.
Proof.
  apply (Reserve_overflows malloc_zeroes 31 (2 ^ 30 + 1) (Buffer.new (replicate 128 x00))).
  - apply buffer_wf_new. reflexivity.
  - lia.
  - vm_compute. reflexivity.
Defined.

Lemma Append_refines_witness :
  exists e',
    Buffer.Append malloc_zeroes 31 (replicate 200 x01) (Buffer.new (replicate 128 x00)) =
      Some (Ok e') /\
    buffer_wf e' /\ written e' = replicate 200 x01.
Proof.
  destruct (Append_refines malloc_zeroes 31 (replicate 200 x01)
              (Buffer.new (replicate 128 x00)))
    as (e' & HA & Hwf & Hw).
  - apply buffer_wf_new. reflexivity.
  - apply malloc_zeroes_succeeds.
  - lia.
  - vm_compute. discriminate.
  - exists e'. split; [exact HA|]. split; [exact Hwf|].
    unfold Encoder.Append_raw in Hw. injection Hw as Hw. symmetry. exact Hw.
Defined.

(** * Importing a schema *)

Lemma c_str_id (bs : list byte) :
  forallb (fun b => negb (Byte.eqb b x00)) bs = true -> c_str bs = bs.
Proof.
  induction bs as [|b bs IH]; cbn [forallb c_str]; [reflexivity|].
  intros Hb. apply andb_true_iff in Hb as [Hb Hbs].
  apply negb_true_iff in Hb. rewrite Hb, (IH Hbs). reflexivity.
Qed.

Lemma code_roundtrip (type : eTYPE) :
  code_ok type = true -> eTYPE_of_Z (to_i32 (eTYPE_to_Z type)) = type.
Proof.
  destruct type; try reflexivity. cbn [code_ok eTYPE_to_Z].
  intros Hc. apply andb_true_iff in Hc as [Hout Hint].
  apply Z.eqb_eq in Hint. rewrite Hint. apply negb_true_iff in Hout.
  unfold eTYPE_of_Z.
  destruct (code =? 0) eqn:E0; [lia|]. destruct (code =? 1) eqn:E1; [lia|].
  destruct (code =? 2) eqn:E2; [lia|]. destruct (code =? 3) eqn:E3; [lia|].
  destruct (code =? 4) eqn:E4; [lia|]. destruct (code =? 5) eqn:E5; [lia|].
  destruct (code =? 6) eqn:E6; [lia|]. reflexivity.
Qed.

Lemma schema_entry_type (field : Field) :
  lua_getfield (schema_entry field) "type" = LInt (eTYPE_to_Z (type_ field)).
Proof.
  destruct field as [name array type childs]. cbn [schema_entry lua_getfield].
  rewrite lookup_insert_eq. reflexivity.
Qed.

Lemma schema_entry_array (field : Field) :
  lua_getfield (schema_entry field) "array" = LBool (array_ field).
Proof.
  destruct field as [name array type childs]. cbn [schema_entry lua_getfield].
  rewrite lookup_insert_ne by discriminate. rewrite lookup_insert_eq. reflexivity.
Qed.

Lemma schema_entry_name (field : Field) :
  lua_getfield (schema_entry field) "name" =
  LStr (String.list_byte_of_string (name_ field)).
Proof.
  destruct field as [name array type childs]. cbn [schema_entry lua_getfield].
  do 2 (rewrite lookup_insert_ne by discriminate). rewrite lookup_insert_eq.
  reflexivity.
Qed.

Lemma schema_entry_pto (field : Field) :
  type_ field = Pto ->
  lua_getfield (schema_entry field) "pto" = schema_value (childs_ field).
Proof.
  destruct field as [name array type childs]. cbn [type_]. intros ->.
  cbn [schema_entry lua_getfield type_].
  do 3 (rewrite lookup_insert_ne by discriminate). rewrite lookup_singleton_eq.
  reflexivity.
Qed.

Lemma import_each_map {A B} (f : A -> Import B) (g : B -> A) (xs : list B) :
  Forall (fun x => f (g x) = Imported x) xs ->
  import_each f (map g xs) = Imported xs.
Proof.
  induction 1 as [|x xs Hx Hxs IH]; cbn [map import_each]; [reflexivity|].
  rewrite Hx, IH. reflexivity.
Qed.

Lemma import_each_stops {A B} (f : A -> Import B) (good : list A) (bs : list B)
    (x : A) (rest : list A) :
  import_each f good = Imported bs ->
  (f x = HostError -> import_each f (good ++ x :: rest) = HostError) /\
  (f x = ImportUndefined -> import_each f (good ++ x :: rest) = ImportUndefined).
Proof.
  revert bs. induction good as [|g good IH]; intros bs Hgood.
  - cbn [app import_each]. split; intros ->; reflexivity.
  - cbn [app import_each] in *. destruct (f g) as [b| |]; try discriminate.
    destruct (import_each f good) as [bs'| |]; try discriminate.
    destruct (IH bs' eq_refl) as [Hh Hu].
    split; intros Hx; [rewrite (Hh Hx) | rewrite (Hu Hx)]; reflexivity.
Qed.

Lemma schema_entry_table (field : Field) :
  exists hash, schema_entry field = LTable [] hash.
Proof. destruct field as [name array type childs]. eexists. reflexivity. Qed.

Section ImportProofs.
Context `{HostFloat}.
Variable string_to_number : list byte -> option LuaValue.
Variable float_to_string : Z -> string.

Lemma ImportField_eq (free : nat) (v : LuaValue) :
  ImportField string_to_number float_to_string free v =
  match v with
  | LTable arr _ =>
      import_each (fun x =>
        match free with
        | S (S free') =>
            import_entry string_to_number float_to_string
              (ImportField string_to_number float_to_string free') x
        | _ => ImportUndefined
        end) arr
  | LStr (_ :: _) => ImportUndefined
  | _ => Imported []
  end.
Proof. destruct free; reflexivity. Qed.

Lemma import_entry_schema (rec : LuaValue -> Import (list Field)) (field : Field) :
  schema_ok field = true ->
  (type_ field = Pto -> rec (schema_value (childs_ field)) = Imported (childs_ field)) ->
  import_entry string_to_number float_to_string rec (schema_entry field) = Imported field.
Proof.
  intros Hok Hrec. unfold import_entry.
  rewrite schema_entry_type, schema_entry_array, schema_entry_name.
  cbn [lua_tointeger_cvt lua_tointeger lua_toboolean lua_tostring].
  destruct field as [name array type childs]. cbn [type_ array_ name_ childs_] in *.
  cbn [schema_ok type_ name_ childs_] in Hok.
  apply andb_true_iff in Hok as [Hok Hkids]. apply andb_true_iff in Hok as [Hname Hcode].
  rewrite (code_roundtrip _ Hcode), (c_str_id _ Hname).
  rewrite String.string_of_list_byte_of_string.
  assert (Hb : (if array then true else false) = array) by (destruct array; reflexivity).
  destruct type;
    try (cbn [schema_entry type_]; destruct childs; [|discriminate];
         destruct array; reflexivity).
  rewrite (schema_entry_pto (mkField name array Pto childs) eq_refl).
  cbn [childs_]. rewrite (Hrec eq_refl). cbn [schema_entry].
  destruct array; reflexivity.
Qed.

Lemma schema_ok_child (name : string) (array : bool) (childs : list Field) (c : Field) :
  schema_ok (mkField name array Pto childs) = true -> c ∈ childs -> schema_ok c = true.
Proof.
  cbn [schema_ok type_ childs_]. intros Hok Hc.
  apply andb_true_iff in Hok as [_ Hkids].
  rewrite forallb_forall in Hkids. apply Hkids, list_elem_of_In, Hc.
Qed.

Lemma import_entry_ok (field : Field) :
  forall free, schema_ok field = true -> 2 * height field <= Z.of_nat free ->
    import_entry string_to_number float_to_string
      (ImportField string_to_number float_to_string free) (schema_entry field) =
    Imported field.
Proof.
  induction field as [name array type childs IH] using Field_ind_nested.
  intros free Hok Hfree. apply import_entry_schema; [exact Hok|].
  cbn [type_ childs_]. intros ->. rewrite ImportField_eq. unfold schema_value.
  apply import_each_map. rewrite Forall_forall in IH |- *. intros c Hc.
  pose proof (height_child name array childs c Hc) as Hh.
  pose proof (height_nonneg c) as Hn.
  destruct free as [|[|free']]; [lia | lia |].
  apply IH; [exact Hc | exact (schema_ok_child _ _ _ _ Hok Hc) | lia].
Qed.

Lemma ImportField_schema (fields : list Field) (free : nat) :
  Forall (fun f => schema_ok f = true) fields ->
  Forall (fun f => 2 * height f + 2 <= Z.of_nat free) fields ->
  ImportField string_to_number float_to_string free (schema_value fields) =
  Imported fields.
Proof.
  intros Hok Hfree. rewrite ImportField_eq. unfold schema_value.
  apply import_each_map. rewrite Forall_forall in Hok, Hfree |- *. intros f Hf.
  specialize (Hok f Hf). specialize (Hfree f Hf).
  destruct free as [|[|free']]; [pose proof (height_nonneg f); lia
                                | pose proof (height_nonneg f); lia |].
  apply import_entry_ok; [exact Hok | lia].
Qed.

Lemma ImportField_chain_overrun (leaf : Field) (n : nat) :
  forall free, (free < 2 * (n + 1))%nat ->
    ImportField string_to_number float_to_string free (schema_value [chain n leaf]) =
    ImportUndefined.
Proof.
  induction n as [|n IH]; intros free Hfree; rewrite ImportField_eq;
    unfold schema_value; cbn [map import_each].
  - destruct free as [|[|free']]; [reflexivity | reflexivity | lia].
  - destruct free as [|[|free']]; [reflexivity | reflexivity |].
    unfold import_entry.
    rewrite schema_entry_type, schema_entry_array, schema_entry_name.
    rewrite (schema_entry_pto (chain (S n) leaf) eq_refl).
    cbn [chain type_ childs_ name_ array_ schema_entry].
    cbn [lua_tointeger_cvt lua_tointeger lua_toboolean lua_tostring eTYPE_to_Z].
    change (eTYPE_of_Z (to_i32 6)) with Pto. cbv iota.
    rewrite (IH free') by lia. reflexivity.
Qed.

Lemma height_chain (leaf : Field) (n : nat) :
  height (chain n leaf) = Z.of_nat n + height leaf.
Proof.
  induction n as [|n IH]; [cbn [chain]; lia|].
  cbn [chain height type_ childs_ foldr]. rewrite IH.
  pose proof (height_nonneg leaf). lia.
Qed.

Lemma schema_ok_chain (leaf : Field) (n : nat) :
  schema_ok leaf = true -> schema_ok (chain n leaf) = true.
Proof.
  intros Hleaf. induction n as [|n IH]; [exact Hleaf|].
  cbn [chain schema_ok type_ childs_ name_ forallb]. rewrite IH. reflexivity.
Qed.

Lemma DecodeOne_chain_too_deep (leaf : Field) (n : nat) :
  forall tbl depth d, (1 <= n)%nat -> MAX_DEPTH < depth + Z.of_nat n ->
    DecodeOne (chain n leaf) tbl depth d = Throw (TooDepth false).
Proof.
  induction n as [|n IH]; intros tbl depth d Hn Hdeep; [lia|].
  cbn [chain DecodeOne type_]. unfold DecodePto_. cbn [array_ childs_ name_].
  destruct (depth + 1 >? MAX_DEPTH) eqn:E; [reflexivity|].
  cbn [fold_each]. unfold bind at 1. unfold bind at 1.
  rewrite IH by lia. reflexivity.
Qed.

Lemma EncodeOne_chain_too_deep (leaf : Field) (n : nat) :
  forall v depth, (1 <= n)%nat -> MAX_DEPTH < depth + Z.of_nat n ->
    always_fails (Encoder.EncodeOne (chain n leaf) v depth).
Proof.
  induction n as [|n IH]; intros v depth Hn Hdeep; [lia|].
  intros buf a buf'. cbn [chain Encoder.EncodeOne type_].
  unfold Encoder.EncodePto_. cbn [array_ childs_ name_]. cbv zeta.
  destruct (depth + 1 >? MAX_DEPTH) eqn:E; [discriminate|].
  destruct (negb (lua_type v =? LUA_TTABLE)); [discriminate|].
  cbn [for_each]. unfold bind.
  destruct (Encoder.EncodeOne (chain n leaf) _ (depth + 1) buf) as [[u b1]|e|] eqn:E1;
    try discriminate.
  exfalso. exact (IH _ (depth + 1) ltac:(lia) ltac:(lia) buf u b1 E1).
Qed.
End ImportProofs.

Section ImportTheorems.
Context `{HostFloat}.
Variable string_to_number : list byte -> option LuaValue.
Variable float_to_string : Z -> string.

(** X21.  [ImportField] builds the field list a schema table spells.
    For a field list whose names are C strings, whose type codes are the
    seven or other [int]s and in which only Messages have children, the
    walk over its schema table returns that field list, provided the
    stack slots left cover two per level of nesting; with the slots that
    [ImportPto] ensures this is up to 131 Messages nested in one
    another. *)
Theorem import_builds_schema (fields : list Field) (free : nat) :
  Forall (fun f => schema_ok f = true) fields ->
  Forall (fun f => 2 * height f + 2 <= Z.of_nat free) fields ->
  ImportField string_to_number float_to_string free (schema_value fields) =
  Imported fields.
Proof. apply ImportField_schema. Qed.

(** X22.  [ImportField] has no depth limit of its own.  A schema of 128
    to 131 Message fields nested in one another is imported with the
    slots [ImportPto] ensures, although no record of it can be encoded
    and every decode raises "pto decode too depth". *)
Theorem import_accepts_too_deep (leaf : Field) (n : nat) :
  schema_ok leaf = true -> height leaf = 0 -> (128 <= n <= 131)%nat ->
  ImportField string_to_number float_to_string IMPORT_STACK
    (schema_value [chain n leaf]) = Imported [chain n leaf] /\
  (forall tbl d, DecodeOne (chain n leaf) tbl 1 d = Throw (TooDepth false)) /\
  (forall v, always_fails (Encoder.EncodeOne (chain n leaf) v 1)).
Proof.
  intros Hleaf Hh Hn. split; [|split].
  - apply ImportField_schema.
    + constructor; [apply schema_ok_chain, Hleaf | constructor].
    + constructor; [|constructor]. rewrite height_chain, Hh.
      unfold IMPORT_STACK, MAX_DEPTH. lia.
  - intros tbl d. apply DecodeOne_chain_too_deep; [lia | unfold MAX_DEPTH; lia].
  - intros v. apply EncodeOne_chain_too_deep; [lia | unfold MAX_DEPTH; lia].
Qed.

(** X23.  [ImportField] overruns the stack.  On a schema of 132 or more
    Message fields nested in one another the walk pushes beyond the
    slots that [ImportPto] has ensured. *)
Theorem import_overruns_stack (leaf : Field) (n : nat) :
  (132 <= n)%nat ->
  ImportField string_to_number float_to_string IMPORT_STACK
    (schema_value [chain n leaf]) = ImportUndefined.
Proof.
  intros Hn. apply ImportField_chain_overrun.
  unfold IMPORT_STACK, MAX_DEPTH. lia.
Qed.

(** X24.  A malformed entry.  After entries that import, an entry that
    is nil, a boolean, a number, a light userdata, a function or a
    thread makes the host raise an error when it is indexed; an entry
    that is a string, and an entry that is a table whose "name" is
    neither a string nor a number, is undefined behaviour: the name
    handed to [strdup] is NULL. *)
Theorem import_malformed_entry (good : list Field) (x : LuaValue)
    (rest : list LuaValue) (hash : gmap string LuaValue) (free : nat) :
  Forall (fun f => schema_ok f = true) good ->
  Forall (fun f => 2 * height f + 2 <= Z.of_nat free) good ->
  (2 <= free)%nat ->
  (lua_type x <> LUA_TTABLE -> lua_type x <> LUA_TSTRING ->
   lua_type x <> LUA_TUSERDATA ->
     ImportField string_to_number float_to_string free
       (LTable (map schema_entry good ++ x :: rest) hash) = HostError) /\
  (lua_type x = LUA_TSTRING ->
     ImportField string_to_number float_to_string free
       (LTable (map schema_entry good ++ x :: rest) hash) = ImportUndefined) /\
  (lua_type x = LUA_TTABLE ->
     lua_tostring float_to_string (lua_getfield x "name") = None ->
     ImportField string_to_number float_to_string free
       (LTable (map schema_entry good ++ x :: rest) hash) = ImportUndefined).
Proof.
  intros Hok Hfree H2. rewrite ImportField_eq.
  pose proof (ImportField_schema string_to_number float_to_string good free Hok Hfree)
    as Hgood.
  rewrite ImportField_eq in Hgood. unfold schema_value in Hgood.
  destruct free as [|[|free']]; [lia | lia |].
  split; [|split].
  - intros Ht Hs Hu. apply (proj1 (import_each_stops _ _ _ x rest Hgood)).
    destruct x; try reflexivity; try (exfalso; apply Hu; reflexivity);
      exfalso; [apply Hs | apply Ht]; reflexivity.
  - intros Hs. apply (proj2 (import_each_stops _ _ _ x rest Hgood)).
    destruct x; try discriminate Hs. reflexivity.
  - intros Hx Hname. apply (proj2 (import_each_stops _ _ _ x rest Hgood)).
    unfold import_entry. rewrite Hname. destruct x; try discriminate Hx. reflexivity.
Qed.

(** X25.  [ImportField] accepts any type code.  A field whose "type" is
    an [int] other than the seven codes is imported as it is; the error
    comes when the protocol is used: encoding and decoding the field
    raise [BadType] with the field and the code. *)
Theorem import_accepts_unknown_type (name : string) (array : bool) (n : Z)
    (free : nat) (v tbl : LuaValue) (depth : Z) (buf : list byte) (d : Decoder.t) :
  schema_ok (mkField name array (BadCode n) []) = true -> (2 <= free)%nat ->
  ImportField string_to_number float_to_string free
    (schema_value [mkField name array (BadCode n) []]) =
    Imported [mkField name array (BadCode n) []] /\
  Encoder.EncodeOne (mkField name array (BadCode n) []) v depth buf =
    Throw (BadType name n) /\
  DecodeOne (mkField name array (BadCode n) []) tbl depth d = Throw (BadType name n).
Proof.
  intros Hok Hfree. split; [|split; reflexivity].
  apply ImportField_schema.
  - constructor; [exact Hok | constructor].
  - constructor; [|constructor]. cbn [height type_]. lia.
Qed.
End ImportTheorems.

Lemma import_builds_schema_witness :
  ImportField (H := IEEE754.host) (fun _ => None) (fun _ => EmptyString) IMPORT_STACK
    (schema_value P3) = Imported P3.
Proof.
  apply (import_builds_schema (H := IEEE754.host) (fun _ => None) (fun _ => EmptyString)
           P3 IMPORT_STACK).
  - repeat constructor.
  - repeat constructor; vm_compute; discriminate.
Defined.

Lemma import_accepts_too_deep_witness :
  ImportField (H := IEEE754.host) (fun _ => None) (fun _ => EmptyString) IMPORT_STACK
    (schema_value [chain 128 (mkField "a" false Bool [])]) =
    Imported [chain 128 (mkField "a" false Bool [])] /\
  DecodeOne (H := IEEE754.host) (chain 128 (mkField "a" false Bool [])) lua_createtable 1
    (Decoder.new [x01]) = Throw (TooDepth false).
Proof.
  destruct (import_accepts_too_deep (H := IEEE754.host) (fun _ => None)
              (fun _ => EmptyString) (mkField "a" false Bool []) 128)
    as (Himp & Hdec & _).
  - reflexivity.
  - reflexivity.
  - lia.
  - split; [exact Himp | apply Hdec].
Defined.

Lemma import_overruns_stack_witness :
  ImportField (H := IEEE754.host) (fun _ => None) (fun _ => EmptyString) IMPORT_STACK
    (schema_value [chain 132 (mkField "a" false Bool [])]) = ImportUndefined.
Proof.
  apply (import_overruns_stack (H := IEEE754.host) (fun _ => None) (fun _ => EmptyString)
           (mkField "a" false Bool []) 132).
  lia.
Defined.

Lemma import_malformed_entry_witness :
  ImportField (H := IEEE754.host) (fun _ => None) (fun _ => EmptyString) IMPORT_STACK
    (LTable (map schema_entry P1 ++ [LInt 3]) ∅) = HostError /\
  ImportField (H := IEEE754.host) (fun _ => None) (fun _ => EmptyString) IMPORT_STACK
    (LTable (map schema_entry P1 ++ [LStr [x61]]) ∅) = ImportUndefined /\
  ImportField (H := IEEE754.host) (fun _ => None) (fun _ => EmptyString) IMPORT_STACK
    (LTable (map schema_entry P1 ++ [LTable [] {["type" := LInt 0]}]) ∅) =
    ImportUndefined.
Proof.
  assert (Hok : Forall (fun f => schema_ok f = true) P1) by repeat constructor.
  assert (Hfree : Forall (fun f => 2 * height f + 2 <= Z.of_nat IMPORT_STACK) P1)
    by (repeat constructor; vm_compute; discriminate).
  assert (H2 : (2 <= IMPORT_STACK)%nat) by (vm_compute; lia).
  split; [|split].
  - apply (proj1 (import_malformed_entry (H := IEEE754.host) (fun _ => None)
                    (fun _ => EmptyString) P1 (LInt 3) [] ∅ IMPORT_STACK Hok Hfree H2));
      vm_compute; discriminate.
  - apply (proj1 (proj2 (import_malformed_entry (H := IEEE754.host) (fun _ => None)
                    (fun _ => EmptyString) P1 (LStr [x61]) [] ∅ IMPORT_STACK
                    Hok Hfree H2))).
    reflexivity.
  - apply (proj2 (proj2 (import_malformed_entry (H := IEEE754.host) (fun _ => None)
                    (fun _ => EmptyString) P1 (LTable [] {["type" := LInt 0]}) [] ∅
                    IMPORT_STACK Hok Hfree H2))).
    + reflexivity.
    + vm_compute. reflexivity.
Defined.

Lemma import_accepts_unknown_type_witness :
  ImportField (H := IEEE754.host) (fun _ => None) (fun _ => EmptyString) IMPORT_STACK
    (schema_value [mkField "z" false (BadCode 9) []]) =
    Imported [mkField "z" false (BadCode 9) []] /\
  Encoder.EncodeOne (H := IEEE754.host) (mkField "z" false (BadCode 9) []) (LInt 1) 1 [] =
    Throw (BadType "z" 9) /\
  DecodeOne (H := IEEE754.host) (mkField "z" false (BadCode 9) []) lua_createtable 1
    (Decoder.new [x01]) = Throw (BadType "z" 9).
Proof.
  apply (import_accepts_unknown_type (H := IEEE754.host) (fun _ => None)
           (fun _ => EmptyString) "z" false 9 IMPORT_STACK).
  - reflexivity.
  - vm_compute. lia.
Defined.

(** * Decoding, then encoding *)

Lemma Read_T_bound (w : nat) d a d' :
  Read_T w d = Ok (a, d') -> 0 <= a < 2 ^ (8 * Z.of_nat w).
Proof.
  unfold Read_T. destruct (size_ d - offset_ d <? 0); [discriminate|].
  destruct (Z.of_nat w >? size_ d - offset_ d); [discriminate|].
  intros E. injection E as <- _.
  pose proof (le_value_range (peek w d)) as Hr.
  assert (Hl : (length (peek w d) <= w)%nat) by (unfold peek; rewrite length_take; lia).
  split; [lia|]. eapply Z.lt_le_trans; [apply Hr|]. apply Z.pow_le_mono_r; lia.
Qed.

Lemma for_fold_build (one : @M Decoder.t LuaValue) (p : LuaValue -> bool) :
  (forall d x d', one d = Ok (x, d') -> p x = true) ->
  forall n done h d t d',
    for_fold (fun i arr => do val <- one; ret (lua_rawseti arr i val)) n
      (Z.of_nat (length done) + 1) (LTable done h) d = Ok (t, d') ->
    exists xs, t = LTable (done ++ xs) h /\ length xs = n /\ forallb p xs = true.
Proof.
  intros Hone. induction n as [|n IH]; intros done h d t d'; cbn [for_fold].
  - unfold ret. intros E. injection E as <- _. exists [].
    rewrite app_nil_r. auto.
  - unfold bind at 1. unfold bind at 1.
    destruct (one d) as [[x d1]|e|] eqn:E; try discriminate.
    unfold ret at 1. cbn [lua_rawseti]. rewrite Z.eqb_refl.
    replace (Z.of_nat (length done) + 1 + 1)
      with (Z.of_nat (length (done ++ [x])) + 1)
      by (rewrite length_app; cbn [length]; lia).
    intros Hrest. destruct (IH _ _ _ _ _ Hrest) as (xs & -> & Hl & Hp).
    exists (x :: xs). rewrite <- app_assoc. cbn [app length forallb].
    split; [reflexivity|]. split; [lia|]. rewrite (Hone _ _ _ E), Hp. reflexivity.
Qed.

Lemma decode_with_shaped (one : @M Decoder.t LuaValue) (p : LuaValue -> bool)
    (field : Field) (tbl tbl' : LuaValue) (d d' : Decoder.t) :
  (forall d x d', one d = Ok (x, d') -> p x = true) ->
  decode_with one field tbl d = Ok (tbl', d') ->
  exists v, tbl' = lua_setfield tbl (name_ field) v /\
            array_shaped (array_ field) p v = true.
Proof.
  intros Hone. unfold decode_with, array_shaped. destruct (array_ field).
  - unfold bind at 1. destruct (Read_T 2 d) as [[size d1]|e|] eqn:ER; try discriminate.
    unfold bind at 1.
    destruct (for_fold _ (Z.to_nat size) 1 lua_createtable d1) as [[arr d2]|e|] eqn:EF;
      try discriminate.
    unfold ret. intros E. injection E as <- _.
    destruct (for_fold_build one p Hone (Z.to_nat size) [] ∅ d1 arr d2 EF)
      as (xs & -> & Hl & Hp).
    exists (LTable xs ∅). split; [reflexivity|]. cbn [app]. rewrite Hp, andb_true_r.
    apply Read_T_bound in ER. change (2 ^ (8 * Z.of_nat 2)) with 65536 in ER. lia.
  - unfold bind at 1. destruct (one d) as [[x d1]|e|] eqn:E; try discriminate.
    unfold ret. intros E'. injection E' as <- _. exists x.
    split; [reflexivity | exact (Hone _ _ _ E)].
Qed.

Section Reencode.
Context `{HostFloat}.

Lemma DecodeBool_one_shaped d x d' :
  DecodeBool_one d = Ok (x, d') -> elem_shaped Bool x = true.
Proof.
  unfold DecodeBool_one, bind. destruct (Read_T 1 d) as [[v d1]|e|]; try discriminate.
  destruct ((v =? 0) || (v =? 1)); [|discriminate].
  unfold ret. intros E. injection E as <- _. reflexivity.
Qed.

Lemma DecodeShort_one_shaped d x d' :
  DecodeShort_one d = Ok (x, d') -> elem_shaped Short x = true.
Proof.
  unfold DecodeShort_one, bind. destruct (Read_T 2 d) as [[v d1]|e|]; try discriminate.
  unfold ret. intros E. injection E as <- _. reflexivity.
Qed.

Lemma DecodeInt_one_shaped d x d' :
  DecodeInt_one d = Ok (x, d') -> elem_shaped Int x = true.
Proof.
  unfold DecodeInt_one, bind. destruct (Read_int64 d) as [[v d1]|e|]; try discriminate.
  unfold ret. intros E. injection E as <- _. reflexivity.
Qed.

Lemma DecodeFloat_one_shaped d x d' :
  DecodeFloat_one d = Ok (x, d') -> elem_shaped Float x = true.
Proof.
  unfold DecodeFloat_one, bind. destruct (Read_T 4 d) as [[v d1]|e|]; try discriminate.
  unfold ret. intros E. injection E as <- _. reflexivity.
Qed.

Lemma DecodeDouble_one_shaped d x d' :
  DecodeDouble_one d = Ok (x, d') -> elem_shaped Double x = true.
Proof.
  unfold DecodeDouble_one, bind. destruct (Read_T 8 d) as [[v d1]|e|]; try discriminate.
  unfold ret. intros E. injection E as <- _. reflexivity.
Qed.

Lemma DecodeString_one_shaped d x d' :
  DecodeString_one d = Ok (x, d') -> elem_shaped String x = true.
Proof.
  unfold DecodeString_one, Read_str. unfold bind at 1. unfold bind at 1.
  destruct (Read_T 2 d) as [[size d1]|e|] eqn:ER; try discriminate.
  destruct (size_ d1 - offset_ d1 <? size); [discriminate|].
  unfold ret. intros E. injection E as <- _. cbn [elem_shaped].
  apply Read_T_bound in ER. change (2 ^ (8 * Z.of_nat 2)) with 65536 in ER.
  unfold peek. rewrite length_take. apply Z.leb_le. lia.
Qed.

Lemma fields_shaped (depth : Z) (fields : list Field) :
  Forall (fun f => forall tbl d tbl' d',
            DecodeOne f tbl depth d = Ok (tbl', d') ->
            exists v, tbl' = lua_setfield tbl (name_ f) v /\
                      shaped depth f v = true) fields ->
  NoDup (map name_ fields) ->
  forall a h d t d',
    fold_each (fun field tbl => DecodeOne field tbl depth) fields (LTable a h) d =
    Ok (t, d') ->
    exists h', t = LTable a h' /\
      (forall k, k ∉ map name_ fields -> h' !! k = h !! k) /\
      forallb (fun f => shaped depth f (lua_getfield t (name_ f))) fields = true.
Proof.
  induction 1 as [|f fs Hf Hfs IH]; intros Hnd a h d t d'; cbn [fold_each map].
  - unfold ret. intros E. injection E as <- _. exists h. auto.
  - cbn [map] in Hnd. apply NoDup_cons in Hnd as [Hnew Hnd].
    unfold bind.
    destruct (DecodeOne f (LTable a h) depth d) as [[t1 d1]|e|] eqn:E1;
      try discriminate.
    destruct (Hf _ _ _ _ E1) as (v & -> & Hv). cbn [lua_setfield]. intros Hrest.
    destruct (IH Hnd _ _ _ _ _ Hrest) as (h' & -> & Hkeep & Hall).
    exists h'. split; [reflexivity|]. split.
    + intros k Hk. apply not_elem_of_cons in Hk as [Hk1 Hk2].
      rewrite (Hkeep k Hk2). apply lookup_insert_ne. congruence.
    + cbn [forallb]. rewrite Hall, andb_true_r. cbn [lua_getfield].
      rewrite (Hkeep _ Hnew), lookup_insert_eq. exact Hv.
Qed.

Lemma DecodeOne_shaped (field : Field) :
  distinct_names field = true ->
  forall tbl depth d tbl' d',
    DecodeOne field tbl depth d = Ok (tbl', d') ->
    exists v, tbl' = lua_setfield tbl (name_ field) v /\ shaped depth field v = true.
Proof.
  induction field as [name array type childs IH] using Field_ind_nested.
  intros Hd tbl depth d tbl' d'.
  destruct type; cbn [DecodeOne shaped type_ array_ name_ childs_].
  - apply (decode_with_shaped _ _ (mkField name array Bool childs)),
      DecodeBool_one_shaped.
  - apply (decode_with_shaped _ _ (mkField name array Short childs)),
      DecodeShort_one_shaped.
  - apply (decode_with_shaped _ _ (mkField name array Int childs)),
      DecodeInt_one_shaped.
  - apply (decode_with_shaped _ _ (mkField name array Float childs)),
      DecodeFloat_one_shaped.
  - apply (decode_with_shaped _ _ (mkField name array Double childs)),
      DecodeDouble_one_shaped.
  - apply (decode_with_shaped _ _ (mkField name array String childs)),
      DecodeString_one_shaped.
  - cbn [distinct_names childs_] in Hd. apply andb_true_iff in Hd as [Hnd Hkids].
    apply bool_decide_eq_true in Hnd. rewrite forallb_forall in Hkids.
    unfold DecodePto_. cbn [array_ childs_ name_].
    destruct (depth + 1 >? MAX_DEPTH) eqn:Edepth; [discriminate|].
    assert (Hle : (depth + 1 <=? MAX_DEPTH) = true) by lia. rewrite Hle. cbn [andb].
    assert (Hrec : forall d x d',
      fold_each (fun child rec => DecodeOne child rec (depth + 1)) childs
        lua_createtable d = Ok (x, d') ->
      record_shaped (shaped (depth + 1)) childs x = true).
    { intros d0 x d0' Hfold.
      destruct (fields_shaped (depth + 1) childs) with (a := @nil LuaValue)
        (h := (∅ : gmap string LuaValue)) (d := d0) (t := x) (d' := d0')
        as (h' & -> & _ & Hall);
        [|exact Hnd|exact Hfold|exact Hall].
      rewrite Forall_forall in IH |- *. intros c Hc tbl0 d1 tbl1 d1'.
      apply IH; [exact Hc | apply Hkids, list_elem_of_In, Hc]. }
    destruct array.
    + apply (decode_with_shaped _ _ (mkField name true Pto childs)), Hrec.
    + apply (decode_with_shaped _ _ (mkField name false Pto childs)), Hrec.
  - discriminate.
Qed.
End Reencode.

Lemma outcomes_for_range_bounded {St : Type} (E : BadPto -> Prop) (U : Prop)
    (body : Z -> @M St unit) :
  forall n i,
    (forall j, i <= j < i + Z.of_nat n -> outcomes E U (body j)) ->
    outcomes E U (for_range body n i).
Proof.
  induction n as [|n IH]; intros i Hb; cbn [for_range].
  - apply outcomes_ret.
  - apply outcomes_bind; [apply Hb; lia|]. intros _. apply IH.
    intros j Hj. apply Hb. lia.
Qed.

Lemma rawgeti_elem (arr : list LuaValue) (h : gmap string LuaValue) (i : Z) :
  1 <= i <= Z.of_nat (length arr) -> lua_rawgeti (LTable arr h) i ∈ arr.
Proof.
  intros Hi. cbn [lua_rawgeti]. destruct (1 <=? i) eqn:E; [|lia].
  destruct (arr !! Z.to_nat (i - 1)) as [x|] eqn:El.
  - cbn [default]. eapply list_elem_of_lookup_2, El.
  - apply lookup_ge_None in El. lia.
Qed.

Lemma int_error_mono (int int' : bool) (e : BadPto) :
  (int = true -> int' = true) -> int_error int e -> int_error int' e.
Proof. intros Hi [Hint He]. split; [apply Hi, Hint | exact He]. Qed.

Section ReencodeOutcomes.
Context `{HostFloat}.

Lemma encode_with_shaped (E : BadPto -> Prop)
    (one : bool -> LuaValue -> @M (list byte) unit) (p : LuaValue -> bool)
    (field : Field) (v : LuaValue) :
  (forall array x, p x = true -> outcomes E False (one array x)) ->
  array_shaped (array_ field) p v = true ->
  outcomes E False (Encoder.encode_with one field v).
Proof.
  intros Hone. unfold Encoder.encode_with, array_shaped. cbv zeta.
  destruct (array_ field); [|apply Hone].
  destruct v as [| | | | |arr h| | | |]; try discriminate.
  intros Hs. apply andb_true_iff in Hs as [Hl Hall]. apply Z.leb_le in Hl.
  rewrite forallb_forall in Hall.
  intros buf. unfold bind. cbn [lua_type]. rewrite (BeginArray_ok field arr h buf Hl).
  rewrite Nat2Z.id. apply outcomes_for_range_bounded. intros j Hj.
  apply Hone, Hall, list_elem_of_In, rawgeti_elem. lia.
Qed.

Ltac shaped_one :=
  intros ? x Hx; cbv zeta;
  destruct x; try discriminate Hx;
  cbn [lua_type lua_tointeger lua_tonumber lua_toboolean lua_tolstring];
  repeat match goal with
  | |- context [negb (?a =? ?a)] => change (negb (a =? a)) with false; cbv iota
  end.

Lemma EncodeOne_shaped (field : Field) :
  forall v depth, shaped depth field v = true ->
    outcomes (int_error (has_int field)) False (Encoder.EncodeOne field v depth).
Proof.
  induction field as [name array type childs IH] using Field_ind_nested.
  intros v depth. destruct type;
    cbn [Encoder.EncodeOne shaped has_int type_ array_ name_ childs_].
  - apply (encode_with_shaped _ _ _ (mkField name array Bool childs)).
    unfold Encoder.EncodeBool_one. shaped_one. intros buf. exact I.
  - apply (encode_with_shaped _ _ _ (mkField name array Short childs)).
    unfold Encoder.EncodeShort_one. shaped_one. intros buf. exact I.
  - apply (encode_with_shaped _ _ _ (mkField name array Int childs)).
    unfold Encoder.EncodeInt_one. shaped_one.
    destruct ((n >? MAX_INT) || (n <? - MAX_INT)).
    + apply outcomes_throw. split; [reflexivity | eauto].
    + apply outcomes_Append_int64.
  - apply (encode_with_shaped _ _ _ (mkField name array Float childs)).
    unfold Encoder.EncodeFloat_one. shaped_one. intros buf. exact I.
  - apply (encode_with_shaped _ _ _ (mkField name array Double childs)).
    unfold Encoder.EncodeDouble_one. shaped_one. intros buf. exact I.
  - apply (encode_with_shaped _ _ _ (mkField name array String childs)).
    unfold Encoder.EncodeString_one. shaped_one. cbn [elem_shaped] in Hx.
    destruct (Z.of_nat (length s) >? 0xffff) eqn:El; [lia|].
    intros buf. exact I.
  - intros Hs. apply andb_true_iff in Hs as [Hdepth Hs].
    unfold Encoder.EncodePto_. cbn [array_ childs_ name_]. cbv zeta.
    destruct (depth + 1 >? MAX_DEPTH) eqn:Ed; [lia|].
    assert (Hkids : forall x,
      record_shaped (shaped (depth + 1)) childs x = true ->
      outcomes (int_error (existsb has_int childs)) False
        (for_each (fun child =>
           Encoder.EncodeOne child (lua_getfield x (name_ child)) (depth + 1))
           childs)).
    { intros x Hx. unfold record_shaped in Hx.
      apply andb_true_iff in Hx as [_ Hx]. rewrite forallb_forall in Hx.
      apply outcomes_for_each. rewrite Forall_forall in IH |- *.
      intros c Hc. eapply outcomes_weaken; [| |apply IH; [exact Hc|]].
      - intros e. apply int_error_mono. intros Hi.
        apply existsb_exists. exists c. split; [apply list_elem_of_In, Hc | exact Hi].
      - exact (fun f => f).
      - apply Hx, list_elem_of_In, Hc. }
    unfold array_shaped in Hs. destruct array.
    + destruct v as [| | | | |arr h| | | |]; try discriminate.
      apply andb_true_iff in Hs as [Hl Hall]. apply Z.leb_le in Hl.
      rewrite forallb_forall in Hall. cbn [lua_type].
      change (negb (LUA_TTABLE =? LUA_TTABLE)) with false. cbv iota.
      intros buf. unfold bind.
      rewrite (BeginArray_ok (mkField name true Pto childs) arr h buf Hl).
      rewrite Nat2Z.id. apply outcomes_for_range_bounded. intros j Hj.
      assert (Hx : record_shaped (shaped (depth + 1)) childs
                     (lua_rawgeti (LTable arr h) (j + 1)) = true).
      { apply Hall, list_elem_of_In, rawgeti_elem. lia. }
      pose proof Hx as Ht. unfold record_shaped in Ht.
      apply andb_true_iff in Ht as [Ht _]. apply Z.eqb_eq in Ht. rewrite Ht.
      change (negb (LUA_TTABLE =? LUA_TTABLE)) with false. cbv iota.
      apply Hkids, Hx.
    + pose proof Hs as Ht. unfold record_shaped in Ht.
      apply andb_true_iff in Ht as [Ht _]. apply Z.eqb_eq in Ht. rewrite Ht.
      change (negb (LUA_TTABLE =? LUA_TTABLE)) with false. cbv iota.
      apply Hkids, Hs.
  - discriminate.
Qed.

(** X26.  What decodes can be encoded again.  Under fields whose
    siblings have different names, the record that the walk of
    [DecodePto] builds passes every check of the walk of [EncodePto] over
    the same fields, but one: an Int read from eight magnitude bytes can
    lie beyond [MAX_INT] and raise [BadInt].  Without an Int field the
    record is always encoded. *)
Theorem decoded_record_reencodes (fields : list Field) (depth : Z)
    (d d' : Decoder.t) (tbl : LuaValue) (buf : list byte) :
  NoDup (map name_ fields) -> forallb distinct_names fields = true ->
  fold_each (fun field tbl => DecodeOne field tbl depth) fields lua_createtable d =
    Ok (tbl, d') ->
  match for_each (fun field =>
          Encoder.EncodeOne field (lua_getfield tbl (name_ field)) depth)
          fields buf with
  | Ok _ => True
  | Throw e =>
      existsb has_int fields = true /\ exists name val array, e = BadInt name val array
  | Undefined => False
  end.
Proof.
  intros Hnd Hdist Hdec. rewrite forallb_forall in Hdist.
  destruct (fields_shaped depth fields) with (a := @nil LuaValue)
    (h := (∅ : gmap string LuaValue)) (d := d) (t := tbl) (d' := d')
    as (h' & -> & _ & Hall); [|exact Hnd|exact Hdec|].
  { apply Forall_forall. intros f Hf tbl0 d0 tbl1 d1.
    apply DecodeOne_shaped, Hdist, list_elem_of_In, Hf. }
  rewrite forallb_forall in Hall.
  assert (Ho : outcomes (int_error (existsb has_int fields)) False
                 (for_each (fun field =>
                    Encoder.EncodeOne field
                      (lua_getfield (LTable [] h') (name_ field)) depth) fields)).
  { apply outcomes_for_each, Forall_forall. intros f Hf.
    eapply outcomes_weaken; [| |apply EncodeOne_shaped, Hall, list_elem_of_In, Hf].
    - intros e. apply int_error_mono. intros Hi.
      apply existsb_exists. exists f. split; [apply list_elem_of_In, Hf | exact Hi].
    - exact (fun f => f). }
  exact (Ho buf).
Qed.
End ReencodeOutcomes.

Lemma decoded_record_reencodes_witness :
  match for_each (fun field =>
          Encoder.EncodeOne (H := IEEE754.host) field
            (lua_getfield record1 (name_ field)) 1) P1 [] with
  | Ok _ => True
  | Throw e => existsb has_int P1 = true /\ exists name val array, e = BadInt name val array
  | Undefined => False
  end.
Proof.
  apply (decoded_record_reencodes (H := IEEE754.host) P1 1 (Decoder.new bytes1)
           (Decoder.mk bytes1 8 8) record1 []).
  - apply (bool_decide_eq_true_1 (NoDup (map name_ P1))). vm_compute. reflexivity.
  - reflexivity.
  - vm_compute. reflexivity.
Defined.
